(** * chirpy: the file-backed user store (database/database_user.go)

    A shallow embedding of the user store of the chirpy service and of the
    parts of Go's standard library that it runs on (encoding/json at the
    type [DBUserStructure], encoding/base64, strconv, unicode/utf8,
    unicode/utf16, sort), followed by the properties of the store.

    Go values are modelled as follows.
    - [int] is 64 bits wide: a [Z] in the range of [int_ok]; the sum that
      could leave the range goes through [wrap_int].
    - [string] and [[]byte] are byte sequences, [list byte].  A nil slice
      is [None], an empty one [Some []]; a nil map is [None].
    - [map[int]User] is a [gmap Z User]; the order in which [range] visits
      a map is an argument of the function that iterates.
    - The file at [db.path] is the state: [None] when it does not exist.
      Functions that touch it live in the monad [M].  The disk has no
      faults: a file that exists can be read, and every write succeeds.
    - The mutex of [DB] is not modelled: a call is one function on the
      file.

    The library functions follow Go 1.22, the first release with the
    routing patterns that the service uses. *)

From Stdlib Require Import ZArith List Lia.
From Stdlib Require Import Strings.Byte Strings.String.
From stdpp Require Import gmap list sorting.

Local Open Scope Z_scope.

(** ** Bytes *)

Abbreviation byte := Byte.byte.

Definition b2z (b : byte) : Z := Z.of_N (Byte.to_N b).

(** Go's conversion [byte(x)]: the low eight bits. *)
Definition z2b (z : Z) : byte :=
  default x00 (Byte.of_N (Z.to_N (z mod 256))).

(** The bytes of an ASCII literal. *)
Definition bytes (s : string) : list byte := list_byte_of_string s.

Definition byte_eqb (a b : byte) : bool := Byte.eqb a b.

#[export] Instance byte_eq_dec : EqDecision byte := Byte.byte_eq_dec.

(** ** unicode/utf8 *)

Module utf8.

Definition RuneError : Z := 0xFFFD.
Definition RuneSelf : Z := 0x80.
Definition MaxRune : Z := 0x10FFFF.
Definition surrogateMin : Z := 0xD800.
Definition surrogateMax : Z := 0xDFFF.

Definition t2 : Z := 0xC0.
Definition t3 : Z := 0xE0.
Definition t4 : Z := 0xF0.
Definition tx : Z := 0x80.
Definition maskx : Z := 0x3F.
Definition mask2 : Z := 0x1F.
Definition mask3 : Z := 0x0F.
Definition mask4 : Z := 0x07.

Definition rune1Max : Z := 0x7F.
Definition rune2Max : Z := 0x7FF.
Definition rune3Max : Z := 0xFFFF.

Definition locb : Z := 0x80.
Definition hicb : Z := 0xBF.

(** The table [first] together with [acceptRanges], for a leading byte
    that is not ASCII: the length of the sequence and the range accepted
    for its second byte; [None] is the entry [xx]. *)
Definition first (p0 : Z) : option (nat * Z * Z) :=
  if p0 <? 0xC2 then None
  else if p0 <=? 0xDF then Some (2%nat, locb, hicb)
  else if p0 =? 0xE0 then Some (3%nat, 0xA0, hicb)
  else if p0 =? 0xED then Some (3%nat, locb, 0x9F)
  else if p0 <=? 0xEF then Some (3%nat, locb, hicb)
  else if p0 =? 0xF0 then Some (4%nat, 0x90, hicb)
  else if p0 <=? 0xF3 then Some (4%nat, locb, hicb)
  else if p0 =? 0xF4 then Some (4%nat, locb, 0x8F)
  else None.

Definition outside (lo hi : Z) (b : byte) : bool :=
  (b2z b <? lo) || (hi <? b2z b).

(** [DecodeRune p]: the first rune of [p] and its width in bytes;
    [(RuneError, 1)] for an invalid encoding, [(RuneError, 0)] for the
    empty input.  A sequence cut short by the end of [p] ([n < sz] in the
    source) is the case of a missing byte below. *)
Definition DecodeRune (p : list byte) : Z * nat :=
  match p with
  | [] => (RuneError, 0%nat)
  | p0 :: p1 =>
    if b2z p0 <? RuneSelf then (b2z p0, 1%nat)
    else match first (b2z p0) with
    | None => (RuneError, 1%nat)
    | Some (sz, lo, hi) =>
      match p1 with
      | [] => (RuneError, 1%nat)
      | b1 :: p2 =>
        if outside lo hi b1 then (RuneError, 1%nat)
        else if (sz <=? 2)%nat then
          (Z.lor (Z.land (b2z p0) mask2 ≪ 6) (Z.land (b2z b1) maskx), 2%nat)
        else match p2 with
        | [] => (RuneError, 1%nat)
        | b2 :: p3 =>
          if outside locb hicb b2 then (RuneError, 1%nat)
          else if (sz <=? 3)%nat then
            (Z.lor (Z.lor (Z.land (b2z p0) mask3 ≪ 12)
                          (Z.land (b2z b1) maskx ≪ 6))
                   (Z.land (b2z b2) maskx), 3%nat)
          else match p3 with
          | [] => (RuneError, 1%nat)
          | b3 :: _ =>
            if outside locb hicb b3 then (RuneError, 1%nat)
            else
              (Z.lor (Z.lor (Z.lor (Z.land (b2z p0) mask4 ≪ 18)
                                   (Z.land (b2z b1) maskx ≪ 12))
                            (Z.land (b2z b2) maskx ≪ 6))
                     (Z.land (b2z b3) maskx), 4%nat)
          end
        end
      end
    end
  end.

(** [EncodeRune r]: the UTF-8 encoding of [r]; a rune out of range or a
    surrogate half is encoded as [RuneError].  [i] is [uint32(r)]. *)
Definition EncodeRune (r : Z) : list byte :=
  let i := r mod 2 ^ 32 in
  let enc3 (r : Z) :=
    [z2b (Z.lor t3 (b2z (z2b (r ≫ 12))));
     z2b (Z.lor tx (Z.land (b2z (z2b (r ≫ 6))) maskx));
     z2b (Z.lor tx (Z.land (b2z (z2b r)) maskx))] in
  if i <=? rune1Max then [z2b r]
  else if i <=? rune2Max then
    [z2b (Z.lor t2 (b2z (z2b (r ≫ 6))));
     z2b (Z.lor tx (Z.land (b2z (z2b r)) maskx))]
  else if (MaxRune <? i) || ((surrogateMin <=? i) && (i <=? surrogateMax))
  then enc3 RuneError
  else if i <=? rune3Max then enc3 r
  else
    [z2b (Z.lor t4 (b2z (z2b (r ≫ 18))));
     z2b (Z.lor tx (Z.land (b2z (z2b (r ≫ 12))) maskx));
     z2b (Z.lor tx (Z.land (b2z (z2b (r ≫ 6))) maskx));
     z2b (Z.lor tx (Z.land (b2z (z2b r)) maskx))].

(** The position [p] starts an invalid encoding. *)
Definition invalid_at (p : list byte) : bool :=
  let '(c, size) := DecodeRune p in (c =? RuneError) && (size =? 1)%nat.

(** [ValidString s]: [s] consists of valid UTF-8 encodings only.  The
    loop of the source, with the length of the input as its bound. *)
Fixpoint Valid_loop (fuel : nat) (s : list byte) : bool :=
  match fuel, s with
  | _, [] => true
  | O, _ => false
  | S fuel, _ =>
    if invalid_at s then false
    else Valid_loop fuel (drop (DecodeRune s).2 s)
  end.

Definition ValidString (s : list byte) : bool := Valid_loop (length s) s.

End utf8.

(** ** unicode/utf16 *)

Module utf16.

Definition surr1 : Z := 0xd800.
Definition surr2 : Z := 0xdc00.
Definition surr3 : Z := 0xe000.
Definition surrSelf : Z := 0x10000.
Definition replacementChar : Z := 0xFFFD.

Definition IsSurrogate (r : Z) : bool := (surr1 <=? r) && (r <? surr3).

Definition DecodeRune (r1 r2 : Z) : Z :=
  if (surr1 <=? r1) && (r1 <? surr2) && (surr2 <=? r2) && (r2 <? surr3)
  then Z.lor ((r1 - surr1) ≪ 10) (r2 - surr2) + surrSelf
  else replacementChar.

End utf16.

(** ** encoding/base64, [StdEncoding] *)

Module base64.

Definition encodeStd : list byte :=
  bytes "ABCDEFGHIJKLMNOPQRSTUVWXYZabcdefghijklmnopqrstuvwxyz0123456789+/".

Definition StdPadding : byte := x3d.

(** [enc v] is [enc.encode[v]] for a six-bit [v]. *)
Definition enc (v : Z) : byte := nth (Z.to_nat v) encodeStd x00.

Fixpoint index_of (c : byte) (l : list byte) (i : Z) : option Z :=
  match l with
  | [] => None
  | x :: l => if byte_eqb x c then Some i else index_of c l (i + 1)
  end.

(** [decodeMap c]: the value of the character [c], [None] for a byte that
    is not in the alphabet (the entry 0xFF of the source's table). *)
Definition decodeMap (c : byte) : option Z := index_of c encodeStd 0.

Fixpoint Encode (src : list byte) : list byte :=
  match src with
  | [] => []
  | [s0] =>
    let val := b2z s0 ≪ 16 in
    [enc (Z.land (val ≫ 18) 0x3F); enc (Z.land (val ≫ 12) 0x3F);
     StdPadding; StdPadding]
  | [s0; s1] =>
    let val := Z.lor (b2z s0 ≪ 16) (b2z s1 ≪ 8) in
    [enc (Z.land (val ≫ 18) 0x3F); enc (Z.land (val ≫ 12) 0x3F);
     enc (Z.land (val ≫ 6) 0x3F); StdPadding]
  | s0 :: s1 :: s2 :: src =>
    let val := Z.lor (Z.lor (b2z s0 ≪ 16) (b2z s1 ≪ 8)) (b2z s2) in
    [enc (Z.land (val ≫ 18) 0x3F); enc (Z.land (val ≫ 12) 0x3F);
     enc (Z.land (val ≫ 6) 0x3F); enc (Z.land val 0x3F)] ++ Encode src
  end.

(** [Decode src]: the bytes encoded by [src], [None] for corrupt input.
    Padding is required and only the last quantum may carry it; bits left
    over in a padded quantum are not checked.  The source also skips
    carriage returns and line feeds inside [src]; here such input is
    corrupt. *)
Fixpoint Decode (src : list byte) : option (list byte) :=
  match src with
  | [] => Some []
  | c0 :: c1 :: c2 :: c3 :: src =>
    d0 ← decodeMap c0;
    d1 ← decodeMap c1;
    if byte_eqb c2 StdPadding then
      if byte_eqb c3 StdPadding then
        match src with
        | [] => Some [z2b (Z.lor (d0 ≪ 18) (d1 ≪ 12) ≫ 16)]
        | _ => None
        end
      else None
    else
      d2 ← decodeMap c2;
      if byte_eqb c3 StdPadding then
        match src with
        | [] =>
          let val := Z.lor (Z.lor (d0 ≪ 18) (d1 ≪ 12)) (d2 ≪ 6) in
          Some [z2b (val ≫ 16); z2b (val ≫ 8)]
        | _ => None
        end
      else
        d3 ← decodeMap c3;
        let val := Z.lor (Z.lor (Z.lor (d0 ≪ 18) (d1 ≪ 12)) (d2 ≪ 6)) d3 in
        out ← Decode src;
        Some ([z2b (val ≫ 16); z2b (val ≫ 8); z2b val] ++ out)
  | _ => None
  end.

End base64.

(** ** strconv *)

Module strconv.

Definition digit (d : Z) : byte := z2b (0x30 + d).

(** The loop of [formatBits] in base 10, one digit for each iteration:
    the digits of [u] in front of [a].  [fuel] bounds the iterations. *)
Fixpoint formatBits (fuel : nat) (u : Z) (a : list byte) : list byte :=
  match fuel with
  | O => a
  | S fuel =>
    if u <? 10 then digit u :: a
    else formatBits fuel (u / 10) (digit (u mod 10) :: a)
  end.

(** [FormatInt i 10]: the decimal digits of [i], most significant first,
    after a minus sign for a negative [i]. *)
Definition FormatInt (i : Z) : list byte :=
  let u := Z.abs i in
  let a := formatBits (S (Z.to_nat (Z.log2 u))) u [] in
  if i <? 0 then x2d :: a else a.

Definition isDigit (c : byte) : bool := (0x30 <=? b2z c) && (b2z c <=? 0x39).

(** The loop of [ParseUint] in base 10: [None] for a byte that is not a
    digit.  The value is not bounded here; [ParseInt] checks the range. *)
Fixpoint parseDigits (acc : Z) (s : list byte) : option Z :=
  match s with
  | [] => Some acc
  | c :: s =>
    if isDigit c then parseDigits (acc * 10 + (b2z c - 0x30)) s else None
  end.

Definition ParseUint (s : list byte) : option Z :=
  match s with
  | [] => None
  | _ => parseDigits 0 s
  end.

(** [ParseInt s 10 64]: [None] stands for both of the source's errors,
    [ErrSyntax] and [ErrRange]. *)
Definition ParseInt (s : list byte) : option Z :=
  match s with
  | [] => None
  | c :: s' =>
    let neg := byte_eqb c x2d in
    let s := if byte_eqb c x2b || neg then s' else s in
    un ← ParseUint s;
    let cutoff := 1 ≪ 63 in
    if negb neg && (cutoff <=? un) then None
    else if neg && (cutoff <? un) then None
    else Some (if neg then - un else un)
  end.

End strconv.

(** ** The data model (database_user.go, lines 12-22) *)

Record User := mkUser {
  Email : list byte;
  ID : Z;
  Password : option (list byte);
  RefreshToken : list byte;
  IsChirpyRed : bool
}.

(** [User{}] *)
Definition User_zero : User := mkUser [] 0 None [] false.

Record DBUserStructure := mkDB {
  Users : option (gmap Z User)
}.

(** [DBUserStructure{}] *)
Definition DB_zero : DBUserStructure := mkDB None.

(** Go's [int]. *)
Definition int_ok (z : Z) : Prop := - 2 ^ 63 <= z < 2 ^ 63.

Definition wrap_int (z : Z) : Z := (z + 2 ^ 63) mod 2 ^ 64 - 2 ^ 63.

(** The entries of a map that may be nil. *)
Definition entries (m : option (gmap Z User)) : gmap Z User := default ∅ m.

(** [len(m)], [v, ok := m[k]] and [m[k]] on a map that may be nil.  A Go
    map holds fewer than [2 ^ 63] entries, so [len] stays in range. *)
Definition len (m : option (gmap Z User)) : Z := Z.of_nat (size (entries m)).

Definition comma_ok (m : option (gmap Z User)) (k : Z) : option User :=
  m ≫= (λ m, m !! k).

Definition index (m : option (gmap Z User)) (k : Z) : User :=
  default User_zero (comma_ok m k).

(** ** encoding/json, for the type [DBUserStructure] *)

Module json.

Definition hex : list byte := bytes "0123456789abcdef".

Definition hexDigit (v : Z) : byte := nth (Z.to_nat v) hex x00.

(** [htmlSafeSet]: the ASCII bytes that [Marshal] copies unescaped. *)
Definition htmlSafeSet (b : byte) : bool :=
  (0x20 <=? b2z b) && (b2z b <? 0x80) &&
  negb (byte_eqb b x22) && negb (byte_eqb b x5c) &&
  negb (byte_eqb b x3c) && negb (byte_eqb b x3e) && negb (byte_eqb b x26).

(** A backslash, [u] and the given hexadecimal digits. *)
Definition esc_u (digits : string) : list byte := x5c :: x75 :: bytes digits.

(** The escape of an ASCII byte outside [htmlSafeSet]. *)
Definition escape (b : byte) : list byte :=
  if byte_eqb b x5c || byte_eqb b x22 then [x5c; b]
  else if byte_eqb b x08 then [x5c; x62]
  else if byte_eqb b x0c then [x5c; x66]
  else if byte_eqb b x0a then [x5c; x6e]
  else if byte_eqb b x0d then [x5c; x72]
  else if byte_eqb b x09 then [x5c; x74]
  else esc_u "00" ++ [hexDigit (b2z b ≫ 4); hexDigit (Z.land (b2z b) 0xF)].

(** The loop of [appendString] with [escapeHTML] set, as [Marshal] sets
    it; [fuel] bounds the iterations by the length of [src]. *)
Fixpoint appendString_loop (fuel : nat) (src : list byte) : list byte :=
  match fuel, src with
  | _, [] => []
  | O, _ => []
  | S fuel, b :: tl =>
    if b2z b <? utf8.RuneSelf then
      (if htmlSafeSet b then [b] else escape b) ++ appendString_loop fuel tl
    else
      let '(c, size) := utf8.DecodeRune src in
      if (c =? utf8.RuneError) && (size =? 1)%nat then
        esc_u "fffd" ++ appendString_loop fuel tl
      else if (c =? 0x2028) || (c =? 0x2029) then
        esc_u "202" ++ [hexDigit (Z.land c 0xF)]
          ++ appendString_loop fuel (drop size src)
      else take size src ++ appendString_loop fuel (drop size src)
  end.

Definition appendString (src : list byte) : list byte :=
  x22 :: appendString_loop (length src) src ++ [x22].

(** [getu4 s]: the rune of the escape [\uXXXX] that starts [s], or -1. *)
Definition hexValue (c : byte) : option Z :=
  if (0x30 <=? b2z c) && (b2z c <=? 0x39) then Some (b2z c - 0x30)
  else if (0x61 <=? b2z c) && (b2z c <=? 0x66) then Some (b2z c - 0x61 + 10)
  else if (0x41 <=? b2z c) && (b2z c <=? 0x46) then Some (b2z c - 0x41 + 10)
  else None.

Definition getu4 (s : list byte) : Z :=
  match s with
  | a :: b :: c0 :: c1 :: c2 :: c3 :: _ =>
    if byte_eqb a x5c && byte_eqb b x75 then
      match hexValue c0, hexValue c1, hexValue c2, hexValue c3 with
      | Some v0, Some v1, Some v2, Some v3 =>
        ((v0 * 16 + v1) * 16 + v2) * 16 + v3
      | _, _, _, _ => -1
      end
    else -1
  | _ => -1
  end.

(** The escapes of one character that the scanner accepts. *)
Definition unescape (e : byte) : option byte :=
  if byte_eqb e x22 || byte_eqb e x5c || byte_eqb e x2f then Some e
  else if byte_eqb e x62 then Some x08
  else if byte_eqb e x66 then Some x0c
  else if byte_eqb e x6e then Some x0a
  else if byte_eqb e x72 then Some x0d
  else if byte_eqb e x74 then Some x09
  else None.

(** [unquote_loop fuel s]: [s] is the input after the opening quote of a
    string literal; the result is the value of the literal and the input
    after its closing quote.  It does the work of the scanner (find the
    end, refuse control characters and unknown escapes) and of [unquote]
    (decode the escapes, coerce to valid UTF-8) in one pass. *)
Fixpoint unquote_loop (fuel : nat) (s : list byte)
    : option (list byte * list byte) :=
  match fuel, s with
  | O, _ => None
  | _, [] => None
  | S fuel, c :: tl =>
    let continue (out : list byte) (s : list byte) :=
      '(w, rest) ← unquote_loop fuel s; Some (out ++ w, rest) in
    if byte_eqb c x22 then Some ([], tl)
    else if byte_eqb c x5c then
      match tl with
      | [] => None
      | e :: tl' =>
        if byte_eqb e x75 then
          let rr := getu4 s in
          if rr <? 0 then None
          else
            let s6 := drop 6 s in
            if utf16.IsSurrogate rr then
              let dec := utf16.DecodeRune rr (getu4 s6) in
              if negb (dec =? utf16.replacementChar) then
                continue (utf8.EncodeRune dec) (drop 6 s6)
              else continue (utf8.EncodeRune utf16.replacementChar) s6
            else continue (utf8.EncodeRune rr) s6
        else
          b ← unescape e; continue [b] tl'
      end
    else if b2z c <? 0x20 then None
    else if b2z c <? utf8.RuneSelf then continue [c] tl
    else
      let '(rr, size) := utf8.DecodeRune s in
      continue (utf8.EncodeRune rr) (drop size s)
  end.

(** A string literal at the head of [s]. *)
Definition unquote (s : list byte) : option (list byte * list byte) :=
  match s with
  | c :: tl => if byte_eqb c x22 then unquote_loop (length tl) tl else None
  | [] => None
  end.

(** *** Marshal *)

(** ["name":] *)
Definition key (name : string) : list byte :=
  x22 :: bytes name ++ [x22; x3a].

(** [encodeByteSlice]: [null] for a nil slice, else the base64 text in
    quotes. *)
Definition encodeByteSlice (p : option (list byte)) : list byte :=
  match p with
  | None => bytes "null"
  | Some p => x22 :: base64.Encode p ++ [x22]
  end.

Definition boolEncoder (b : bool) : list byte :=
  if b then bytes "true" else bytes "false".

(** The struct encoder for [User]: the fields in the order of the
    declaration, under the names of their tags. *)
Definition structEncoder (u : User) : list byte :=
  bytes "{" ++ key "email" ++ appendString (Email u)
  ++ bytes "," ++ key "id" ++ strconv.FormatInt (ID u)
  ++ bytes "," ++ key "password" ++ encodeByteSlice (Password u)
  ++ bytes "," ++ key "refreshToken" ++ appendString (RefreshToken u)
  ++ bytes "," ++ key "is_chirpy_red" ++ boolEncoder (IsChirpyRed u)
  ++ bytes "}".

(** [strings.Compare a b <= 0] *)
Fixpoint bytes_le (a b : list byte) : bool :=
  match a, b with
  | [], _ => true
  | _ :: _, [] => false
  | x :: a, y :: b =>
    if b2z x <? b2z y then true
    else if b2z y <? b2z x then false
    else bytes_le a b
  end.

Definition key_le (x y : list byte * User) : Prop := bytes_le x.1 y.1.

#[export] Instance key_le_dec : RelDecision key_le :=
  λ x y, decide (Is_true (bytes_le x.1 y.1)).

Fixpoint encodeEntries (i : nat) (sv : list (list byte * User)) : list byte :=
  match sv with
  | [] => []
  | (ks, v) :: sv =>
    (if (0 <? i)%nat then bytes "," else [])
    ++ appendString ks ++ bytes ":" ++ structEncoder v
    ++ encodeEntries (S i) sv
  end.

(** The map encoder: [null] for a nil map; else the entries under their
    keys in decimal, sorted as strings.  The source sorts with
    [slices.SortFunc]; the keys are pairwise different, so every sorting
    algorithm produces the same order. *)
Definition mapEncoder (m : option (gmap Z User)) : list byte :=
  match m with
  | None => bytes "null"
  | Some m =>
    let sv := merge_sort key_le
                ((λ kv : Z * User, (strconv.FormatInt kv.1, kv.2))
                   <$> map_to_list m) in
    bytes "{" ++ encodeEntries 0 sv ++ bytes "}"
  end.

(** [json.Marshal] of a [DBUserStructure]; it has no error case at this
    type. *)
Definition Marshal (d : DBUserStructure) : list byte :=
  bytes "{" ++ key "users" ++ mapEncoder (Users d) ++ bytes "}".

(** *** Unmarshal

    [json.Unmarshal] into a zero [DBUserStructure], for input in the
    layout that [Marshal] emits: the fields of an object all present, in
    the order of the declaration, and no insignificant white space.  On
    such input the functions below compute what the source computes.
    Other input is reported as an error here, although the source accepts
    more of it (white space, fields in any order, missing or unknown
    fields, names that differ in case). *)

Fixpoint expect (lit s : list byte) : option (list byte) :=
  match lit, s with
  | [], _ => Some s
  | _ :: _, [] => None
  | c :: lit, c' :: s => if byte_eqb c c' then expect lit s else None
  end.

Fixpoint span_digits (s : list byte) : list byte * list byte :=
  match s with
  | c :: t =>
    if strconv.isDigit c then
      let '(ds, rest) := span_digits t in (c :: ds, rest)
    else ([], s)
  | [] => ([], [])
  end.

(** A number literal without fraction and exponent, stored into an
    [int]: an optional minus sign, then [0] or digits that do not start
    with [0]. *)
Definition literalInt (s : list byte) : option (Z * list byte) :=
  let '(sign, s1) :=
    match s with
    | c :: t => if byte_eqb c x2d then ([x2d], t) else ([], s)
    | [] => ([], [])
    end in
  let '(ds, rest) := span_digits s1 in
  match ds with
  | [] => None
  | d :: ds' =>
    if byte_eqb d x30 && negb (bool_decide (ds' = [])) then None
    else n ← strconv.ParseInt (sign ++ ds); Some (n, rest)
  end.

(** A value stored into a [[]byte]: [null] gives the nil slice, a string
    literal the bytes that its base64 text encodes. *)
Definition literalBytes (s : list byte)
    : option (option (list byte) * list byte) :=
  match expect (bytes "null") s with
  | Some rest => Some (None, rest)
  | None =>
    '(text, rest) ← unquote s;
    p ← base64.Decode text;
    Some (Some p, rest)
  end.

Definition literalBool (s : list byte) : option (bool * list byte) :=
  match expect (bytes "true") s with
  | Some rest => Some (true, rest)
  | None => rest ← expect (bytes "false") s; Some (false, rest)
  end.

(** An object stored into a [User]. *)
Definition objectUser (s : list byte) : option (User * list byte) :=
  s ← expect (bytes "{" ++ key "email") s;
  '(email, s) ← unquote s;
  s ← expect (bytes "," ++ key "id") s;
  '(id, s) ← literalInt s;
  s ← expect (bytes "," ++ key "password") s;
  '(password, s) ← literalBytes s;
  s ← expect (bytes "," ++ key "refreshToken") s;
  '(token, s) ← unquote s;
  s ← expect (bytes "," ++ key "is_chirpy_red") s;
  '(red, s) ← literalBool s;
  s ← expect (bytes "}") s;
  Some (mkUser email id password token red, s).

(** The entries of an object stored into a [map[int]User], from the
    opening quote of a key on: the key is unquoted and parsed with
    [ParseInt], the value is decoded into a fresh [User], and the entry is
    set in the map, so that of two entries with one key the later one
    stays. *)
Fixpoint objectEntries (fuel : nat) (m : gmap Z User) (s : list byte)
    : option (gmap Z User * list byte) :=
  match fuel with
  | O => None
  | S fuel =>
    '(ks, s) ← unquote s;
    k ← strconv.ParseInt ks;
    s ← expect (bytes ":") s;
    '(v, s) ← objectUser s;
    let m := <[k := v]> m in
    match s with
    | c :: s' =>
      if byte_eqb c x2c then objectEntries fuel m s'
      else if byte_eqb c x7d then Some (m, s')
      else None
    | [] => None
    end
  end.

(** A value stored into the map: [null] leaves it nil, an object makes a
    map and fills it. *)
Definition valueMap (s : list byte)
    : option (option (gmap Z User) * list byte) :=
  match expect (bytes "null") s with
  | Some rest => Some (None, rest)
  | None =>
    s ← expect (bytes "{") s;
    match expect (bytes "}") s with
    | Some rest => Some (Some ∅, rest)
    | None => '(m, rest) ← objectEntries (length s) ∅ s; Some (Some m, rest)
    end
  end.

Definition Unmarshal (data : list byte) : option DBUserStructure :=
  s ← expect (bytes "{" ++ key "users") data;
  '(m, s) ← valueMap s;
  s ← expect (bytes "}") s;
  match s with
  | [] => Some (mkDB m)
  | _ :: _ => None
  end.

End json.

(** ** The store (database_user.go) *)

(** The file at [db.path]: its contents, or [None] when it does not
    exist. *)
Definition file : Type := option (list byte).

Inductive error : Type :=
  | ErrNotExist        (* fs.ErrNotExist, from os.ReadFile *)
  | ErrUnmarshal       (* an error of json.Unmarshal *)
  | ErrInvalidID       (* errors.New("invalid ID") *)
  | ErrInvalidUserID.  (* errors.New("invalid user id") *)

(** The outcome of a call: a value with a nil error, an error, or a
    run-time panic. *)
Inductive result (A : Type) : Type :=
  | Ok (a : A)
  | Err (e : error)
  | Panic.
Arguments Ok {A} a.
Arguments Err {A} e.
Arguments Panic {A}.

(** Computations on the file that may fail. *)
Definition M (A : Type) : Type := file → result A * file.

#[export] Instance M_ret : MRet M := λ A a fs, (Ok a, fs).

#[export] Instance M_bind : MBind M := λ A B k m fs,
  match m fs with
  | (Ok a, fs') => k a fs'
  | (Err e, fs') => (Err e, fs')
  | (Panic, fs') => (Panic, fs')
  end.

Definition fail {A} (e : error) : M A := λ fs, (Err e, fs).

Definition panic {A} : M A := λ fs, (Panic, fs).

(** [os.ReadFile(db.path)] *)
Definition ReadFile : M (list byte) := λ fs,
  match fs with
  | Some data => (Ok data, fs)
  | None => (Err ErrNotExist, fs)
  end.

(** [os.WriteFile(db.path, data, 0644)]; the write replaces the contents
    and does not fail. *)
Definition WriteFile (data : list byte) : M unit := λ _, (Ok (), Some data).

(** [m[k] = v]; the assignment panics on a nil map. *)
Definition assign (d : DBUserStructure) (k : Z) (v : User)
    : M DBUserStructure :=
  match Users d with
  | Some m => mret (mkDB (Some (<[k := v]> m)))
  | None => panic
  end.

Definition loadUserDB : M DBUserStructure :=
  file ← ReadFile;
  match json.Unmarshal file with
  | Some database => mret database
  | None => fail ErrUnmarshal
  end.

Definition writeUserDB (dbUserStructure : DBUserStructure) : M unit :=
  WriteFile (json.Marshal dbUserStructure).

Definition ensureUserDB : M unit := λ fs,
  match ReadFile fs with
  | (Err ErrNotExist, _) => writeUserDB (mkDB (Some ∅)) fs
  | _ => (Ok (), fs)
  end.

Definition NewUserDB : M unit := ensureUserDB.

Definition CreateUser (body : list byte) (password : option (list byte))
    : M User :=
  dbStructure ← loadUserDB;
  let nextID := wrap_int (len (Users dbStructure) + 1) in
  dbStructure ←
    assign dbStructure nextID (mkUser body nextID password [] false);
  _ ← writeUserDB dbStructure;
  mret (index (Users dbStructure) nextID).

(** [less] of the call to [sort.Slice] is [users[i].ID < users[j].ID]; a
    slice is sorted by it when no element is less than the one before. *)
Definition ID_le (u v : User) : Prop := ID u ≤ ID v.

#[export] Instance ID_le_dec : RelDecision ID_le := λ u v, decide (ID u ≤ ID v).

(** [range_] is the order in which the [range] loop of this call visits
    the entries: some enumeration of the map.  [sort.Slice] is modelled by
    a merge sort; the two agree whenever the IDs are pairwise different,
    and the order of records with equal IDs is not specified by the
    source. *)
Definition GetUser (range_ : gmap Z User → list (Z * User)) : M (list User) :=
  dbStructure ← loadUserDB;
  let users :=
    foldl (λ users kv, users ++ [kv.2]) [] (range_ (entries (Users dbStructure))) in
  mret (merge_sort ID_le users).

Definition GetUserByID (range_ : gmap Z User → list (Z * User)) (id : Z)
    : M User :=
  users ← GetUser range_;
  if (Z.of_nat (length users) <? id) || (id <=? 0) then fail ErrInvalidID
  else match users !! Z.to_nat (id - 1) with
       | Some u => mret u
       | None => panic
       end.

Definition UpdateUserDB (id : Z) (body : list byte)
    (password : option (list byte)) : M User :=
  dbStructure ← loadUserDB;
  dbStructure ←
    match comma_ok (Users dbStructure) id with
    | Some user =>
      assign dbStructure id
        (mkUser body (ID user) password (RefreshToken user) (IsChirpyRed user))
    | None => mret dbStructure
    end;
  _ ← writeUserDB dbStructure;
  mret (index (Users dbStructure) id).

Definition UpgradeUser (id : Z) : M unit :=
  dbStructure ← loadUserDB;
  dbStructure ←
    match comma_ok (Users dbStructure) id with
    | Some user =>
      assign dbStructure id
        (mkUser (Email user) (ID user) (Password user) (RefreshToken user) true)
    | None => fail ErrInvalidUserID
    end;
  writeUserDB dbStructure.

Definition RevokeToken (id : Z) : M unit :=
  dbStructure ← loadUserDB;
  dbStructure ←
    match comma_ok (Users dbStructure) id with
    | Some user =>
      assign dbStructure id
        (mkUser (Email user) (ID user) (Password user) [] (IsChirpyRed user))
    | None => mret dbStructure
    end;
  writeUserDB dbStructure.

Definition StoreToken (id : Z) (token : list byte) : M unit :=
  dbStructure ← loadUserDB;
  dbStructure ←
    match comma_ok (Users dbStructure) id with
    | Some user =>
      assign dbStructure id
        (mkUser (Email user) (ID user) (Password user) token (IsChirpyRed user))
    | None => mret dbStructure
    end;
  writeUserDB dbStructure.

(** ** Vocabulary of the properties *)

(** The store after [NewUserDB] on a path where no file exists. *)
Definition empty_store : file := (NewUserDB None).2.

(** The document of a store: what [loadUserDB] reads from it. *)
Definition document (fs : file) : result DBUserStructure := (loadUserDB fs).1.

(** The calls that write the file. *)
Inductive call : Type :=
  | Create (body : list byte) (password : option (list byte))
  | Update (id : Z) (body : list byte) (password : option (list byte))
  | Upgrade (id : Z)
  | StoreRefreshToken (id : Z) (token : list byte)
  | RevokeRefreshToken (id : Z).

Definition exec (fs : file) (c : call) : file :=
  match c with
  | Create body password => (CreateUser body password fs).2
  | Update id body password => (UpdateUserDB id body password fs).2
  | Upgrade id => (UpgradeUser id fs).2
  | StoreRefreshToken id token => (StoreToken id token fs).2
  | RevokeRefreshToken id => (RevokeToken id fs).2
  end.

Definition run (cs : list call) (fs : file) : file := foldl exec fs cs.

(** [encodes s c n]: the first [n] bytes of [s] are the UTF-8 encoding of
    the rune [c] (Unicode, table 3-7). *)
Inductive encodes : list byte → Z → nat → Prop :=
  | encodes1 p0 r :
      b2z p0 < 0x80 →
      encodes (p0 :: r) (b2z p0) 1
  | encodes2 p0 b1 r :
      0xC2 <= b2z p0 <= 0xDF → 0x80 <= b2z b1 <= 0xBF →
      encodes (p0 :: b1 :: r) ((b2z p0 - 0xC0) * 64 + (b2z b1 - 0x80)) 2
  | encodes3 p0 b1 b2 r :
      0xE0 <= b2z p0 <= 0xEF →
      (if b2z p0 =? 0xE0 then 0xA0 else 0x80) <= b2z b1
        <= (if b2z p0 =? 0xED then 0x9F else 0xBF) →
      0x80 <= b2z b2 <= 0xBF →
      encodes (p0 :: b1 :: b2 :: r)
        ((b2z p0 - 0xE0) * 4096 + (b2z b1 - 0x80) * 64 + (b2z b2 - 0x80)) 3
  | encodes4 p0 b1 b2 b3 r :
      0xF0 <= b2z p0 <= 0xF4 →
      (if b2z p0 =? 0xF0 then 0x90 else 0x80) <= b2z b1
        <= (if b2z p0 =? 0xF4 then 0x8F else 0xBF) →
      0x80 <= b2z b2 <= 0xBF → 0x80 <= b2z b3 <= 0xBF →
      encodes (p0 :: b1 :: b2 :: b3 :: r)
        ((b2z p0 - 0xF0) * 262144 + (b2z b1 - 0x80) * 4096
         + (b2z b2 - 0x80) * 64 + (b2z b3 - 0x80)) 4.

(** What a string becomes when it is written into the document and read
    back: every byte that does not start a valid UTF-8 encoding is
    replaced by the encoding of U+FFFD. *)
Fixpoint coerce_loop (fuel : nat) (s : list byte) : list byte :=
  match fuel, s with
  | _, [] => []
  | O, _ => []
  | S fuel, _ :: tl =>
    if utf8.invalid_at s then
      utf8.EncodeRune utf8.RuneError ++ coerce_loop fuel tl
    else
      let size := (utf8.DecodeRune s).2 in
      take size s ++ coerce_loop fuel (drop size s)
  end.

Definition coerceString (s : list byte) : list byte :=
  coerce_loop (length s) s.

Definition coerceUser (u : User) : User :=
  mkUser (coerceString (Email u)) (ID u) (Password u)
         (coerceString (RefreshToken u)) (IsChirpyRed u).

Definition coerceDB (d : DBUserStructure) : DBUserStructure :=
  mkDB (fmap (M := gmap Z) coerceUser <$> Users d).

(** The integers of a document are Go [int]s. *)
Definition ints_ok (d : DBUserStructure) : Prop :=
  ∀ k u, entries (Users d) !! k = Some u → int_ok k ∧ int_ok (ID u).

(** The strings of a document are valid UTF-8. *)
Definition strings_valid (d : DBUserStructure) : Prop :=
  ∀ k u, entries (Users d) !! k = Some u →
    utf8.ValidString (Email u) = true ∧
    utf8.ValidString (RefreshToken u) = true.

(** Every record is stored under its ID. *)
Definition keyed_by_ID (d : DBUserStructure) : Prop :=
  ∀ k u, entries (Users d) !! k = Some u → ID u = k.

(** The arguments of a call of [CreateUser], the record that the call
    number [i + 1] on the empty store creates, and a sequence of such
    calls. *)
Definition Args : Type := list byte * option (list byte).

Definition new_user (i : nat) (a : Args) : User :=
  mkUser a.1 (Z.of_nat i + 1) a.2 [] false.

Definition creates (args : list Args) : list call :=
  (λ a, Create a.1 a.2) <$> args.

(** The invariant of the store: its document has a map, and every record
    is stored under its ID. *)
Definition store_inv (fs : file) : Prop :=
  ∃ m, document fs = Ok (mkDB (Some m)) ∧ keyed_by_ID (mkDB (Some m)).

(** ** The calls as functions on the map of the document *)

(** The record that a call assigns in the place of [user], the record
    found under the ID of the call. *)
Definition changed (c : call) (user : User) : User :=
  match c with
  | Create _ _ => user
  | Update _ body password =>
    mkUser body (ID user) password (RefreshToken user) (IsChirpyRed user)
  | Upgrade _ =>
    mkUser (Email user) (ID user) (Password user) (RefreshToken user) true
  | StoreRefreshToken _ token =>
    mkUser (Email user) (ID user) (Password user) token (IsChirpyRed user)
  | RevokeRefreshToken _ =>
    mkUser (Email user) (ID user) (Password user) [] (IsChirpyRed user)
  end.

(** The ID that a call looks up; [CreateUser] looks up none. *)
Definition target (c : call) : option Z :=
  match c with
  | Create _ _ => None
  | Update id _ _ | Upgrade id | StoreRefreshToken id _
  | RevokeRefreshToken id => Some id
  end.

(** The map that is read back from the file after a call on a store
    whose document has the map [m]. *)
Definition step (c : call) (m : gmap Z User) : gmap Z User :=
  match c with
  | Create body password =>
    let nextID := wrap_int (Z.of_nat (size m) + 1) in
    <[nextID := coerceUser (mkUser body nextID password [] false)]> m
  | Update id _ _ | Upgrade id | StoreRefreshToken id _
  | RevokeRefreshToken id =>
    match m !! id with
    | Some user => <[id := coerceUser (changed c user)]> m
    | None => m
    end
  end.

Definition steps (cs : list call) (m : gmap Z User) : gmap Z User :=
  foldl (λ m c, step c m) m cs.

(** The number of calls of [CreateUser] among [cs]. *)
Definition is_create (c : call) : bool :=
  match c with Create _ _ => true | _ => false end.

Definition creates_in (cs : list call) : nat :=
  length (filter (λ c, is_create c = true) cs).

(** The keys of a map are 1 to the number of its entries. *)
Definition dense (m : gmap Z User) : Prop :=
  ∀ k, is_Some (m !! k) ↔ 1 <= k <= Z.of_nat (size m).

(** Whether a call returned a nil error, an error, or panicked. *)
Definition status {A} (r : result A) : result unit :=
  match r with
  | Ok _ => Ok ()
  | Err e => Err e
  | Panic => Panic
  end.

Definition outcome (c : call) (fs : file) : result unit :=
  match c with
  | Create body password => status (CreateUser body password fs).1
  | Update id body password => status (UpdateUserDB id body password fs).1
  | Upgrade id => status (UpgradeUser id fs).1
  | StoreRefreshToken id token => status (StoreToken id token fs).1
  | RevokeRefreshToken id => status (RevokeToken id fs).1
  end.

(** ** Examples *)

(** The store after two users signed up. *)
Definition scenario_args : list Args :=
  [(bytes "a@x.com", Some (bytes "hashA"));
   (bytes "b@x.com", Some (bytes "hashB"))].

Definition scenario_store : file := run (creates scenario_args) empty_store.

Definition scenario_document : DBUserStructure :=
  mkDB (Some (<[2 := mkUser (bytes "b@x.com") 2 (Some (bytes "hashB")) [] false]>
             (<[1 := mkUser (bytes "a@x.com") 1 (Some (bytes "hashA")) [] false]>
              ∅))).

(** JSON text written with apostrophes in the place of its quotes. *)
Definition json_text (s : string) : list byte :=
  (λ b, if byte_eqb b x27 then x22 else b) <$> bytes s.

(** One order in which [range] may visit a map. *)
Definition range_canonical : gmap Z User → list (Z * User) := map_to_list.

(** Another one: the same entries from the last to the first. *)
Definition range_reversed (m : gmap Z User) : list (Z * User) :=
  reverse (map_to_list m).

(** A document with an email that is not valid UTF-8. *)
Definition bad_document : DBUserStructure :=
  mkDB (Some {[ 1 := mkUser [xff] 1 None [] false ]}).

(** The two sign-ups followed by an upgrade of the first user. *)
Definition scenario_calls : list call := creates scenario_args ++ [Upgrade 1].

(** Calls that follow them. *)
Definition later_calls : list call :=
  [Update 1 (bytes "c@x.com") None; Create (bytes "d@x.com") None].

(** The map of the document of the scenario. *)
Definition scenario_map : gmap Z User := entries (Users scenario_document).

(** A store whose only record has the ID 2 under the key 2: a file that
    the calls of the store do not produce. *)
Definition gap_store : file :=
  Some (json.Marshal
          (mkDB (Some {[ 2 := mkUser (bytes "b@x.com") 2 None [] true ]}))).

(** The store after the second user has been given a refresh token, and
    its document. *)
Definition token_store : file :=
  exec scenario_store (StoreRefreshToken 2 (bytes "token")).

Definition token_document : DBUserStructure :=
  mkDB (Some (<[2 := mkUser (bytes "b@x.com") 2 (Some (bytes "hashB"))
                            (bytes "token") false]>
             (<[1 := mkUser (bytes "a@x.com") 1 (Some (bytes "hashA")) []
                            false]>
              ∅))).

(** A file that is not a document. *)
Definition broken_store : file := Some (bytes "{").

(** ** Vocabulary of the proofs *)

(** The text of a string between its quotes, and of a non-negative
    number. *)
Definition body (s : list byte) : list byte :=
  json.appendString_loop (length s) s.

Definition digits (u : Z) : list byte :=
  strconv.formatBits (S (Z.to_nat (Z.log2 u))) u [].

(** Decode the rest of a literal after the piece that produced [out]. *)
Definition continue (out : list byte) (F : nat) (X : list byte)
    : option (list byte * list byte) :=
  '(w, rest) ← json.unquote_loop F X; Some (out ++ w, rest).

(** The text of one entry of the map, the entries under the text of their
    keys, and what decoding one entry does to the map. *)
Definition entry (k : Z) (v : User) : list byte :=
  json.appendString (strconv.FormatInt k) ++ bytes ":" ++ json.structEncoder v.

Definition keyed (kv : Z * User) : list byte * User :=
  (strconv.FormatInt kv.1, kv.2).

Definition store (m : gmap Z User) (kv : Z * User) : gmap Z User :=
  <[kv.1 := coerceUser kv.2]> m.

Definition entry_ok (kv : Z * User) : Prop := int_ok kv.1 ∧ int_ok (ID kv.2).

Definition user_ok (k : Z) (u : User) : Prop :=
  int_ok k ∧ int_ok (ID u) ∧ utf8.ValidString (Email u) = true
  ∧ utf8.ValidString (RefreshToken u) = true.

(** * Properties

    ** Bytes and bit arithmetic *)

Lemma b2z_range (b : byte) : 0 <= b2z b < 256.
Proof.
  unfold b2z. pose proof (Byte.to_N_bounded b). lia.
Qed.

Lemma z2b_b2z (b : byte) : z2b (b2z b) = b.
Proof.
  unfold z2b. rewrite Z.mod_small by apply b2z_range.
  unfold b2z. rewrite N2Z.id, Byte.of_to_N. reflexivity.
Qed.

Lemma b2z_z2b (z : Z) : b2z (z2b z) = z mod 256.
Proof.
  unfold z2b, b2z.
  assert (Hr : 0 <= z mod 256 < 256) by (apply Z.mod_pos_bound; lia).
  destruct (Byte.of_N (Z.to_N (z mod 256))) as [b|] eqn:E; simpl.
  - apply Byte.to_of_N in E. rewrite E. lia.
  - apply Byte.of_N_None_iff in E. lia.
Qed.

Lemma b2z_inj (a b : byte) : b2z a = b2z b → a = b.
Proof. intros H. rewrite <- (z2b_b2z a), <- (z2b_b2z b). congruence. Qed.

Lemma byte_eqb_spec (a b : byte) : byte_eqb a b = bool_decide (a = b).
Proof.
  unfold byte_eqb. case_bool_decide as H.
  - subst. apply Byte.byte_dec_lb. reflexivity.
  - destruct (Byte.eqb a b) eqn:E; [|reflexivity].
    apply Byte.byte_dec_bl in E. contradiction.
Qed.

Lemma byte_eqb_z (a b : byte) : byte_eqb a b = (b2z a =? b2z b).
Proof.
  rewrite byte_eqb_spec. case_bool_decide as H.
  - subst. symmetry. apply Z.eqb_refl.
  - symmetry. apply Z.eqb_neq. intros E. apply H, b2z_inj, E.
Qed.

(** [Z.lor] of a multiple of [2 ^ k] and a number below [2 ^ k]. *)
Lemma lor_add (k hi lo : Z) :
  0 <= k → 0 <= lo < 2 ^ k → Z.lor (hi * 2 ^ k) lo = hi * 2 ^ k + lo.
Proof.
  intros Hk Hlo. symmetry. apply Z.add_nocarry_lor.
  apply Z.bits_inj'. intros n Hn. rewrite Z.land_spec, Z.bits_0.
  destruct (Z.lt_ge_cases n k) as [Hlt|Hge].
  - rewrite Z.mul_pow2_bits_low by lia. reflexivity.
  - destruct (Z.eq_dec lo 0) as [->|Hne].
    + rewrite Z.bits_0. apply andb_false_r.
    + rewrite (Z.bits_above_log2 lo n); [apply andb_false_r|lia|].
      apply Z.log2_lt_pow2; [lia|].
      apply Z.lt_le_trans with (2 ^ k); [lia|].
      apply Z.pow_le_mono_r; lia.
Qed.

Ltac zlia := Z.div_mod_to_equations; lia.

Lemma lor_add' (k hi lo : Z) :
  0 <= k → 0 <= lo < 2 ^ k → hi mod 2 ^ k = 0 → Z.lor hi lo = hi + lo.
Proof.
  intros Hk Hlo Hhi.
  assert (hi = hi / 2 ^ k * 2 ^ k) as ->.
  { pose proof (Z.div_mod hi (2 ^ k)). lia. }
  apply lor_add; assumption.
Qed.

Lemma lor_tx x : 0 <= x < 64 → Z.lor 128 x = 128 + x.
Proof. intros. apply (lor_add' 6); [lia|lia|reflexivity]. Qed.
Lemma lor_t2 x : 0 <= x < 32 → Z.lor 192 x = 192 + x.
Proof. intros. apply (lor_add' 5); [lia|lia|reflexivity]. Qed.
Lemma lor_t3 x : 0 <= x < 16 → Z.lor 224 x = 224 + x.
Proof. intros. apply (lor_add' 4); [lia|lia|reflexivity]. Qed.
Lemma lor_t4 x : 0 <= x < 8 → Z.lor 240 x = 240 + x.
Proof. intros. apply (lor_add' 3); [lia|lia|reflexivity]. Qed.

Lemma land_maskx x : Z.land x 63 = x mod 64.
Proof. apply (Z.land_ones x 6). lia. Qed.
Lemma land_mask2 x : Z.land x 31 = x mod 32.
Proof. apply (Z.land_ones x 5). lia. Qed.
Lemma land_mask3 x : Z.land x 15 = x mod 16.
Proof. apply (Z.land_ones x 4). lia. Qed.
Lemma land_mask4 x : Z.land x 7 = x mod 8.
Proof. apply (Z.land_ones x 3). lia. Qed.

Lemma shiftl_mul x k : 0 <= k → x ≪ k = x * 2 ^ k.
Proof. apply Z.shiftl_mul_pow2. Qed.
Lemma shiftr_div x k : 0 <= k → x ≫ k = x / 2 ^ k.
Proof. apply Z.shiftr_div_pow2. Qed.

(** The rune of a two-, three- and four-byte sequence, in arithmetic. *)
Lemma rune2 a b : 0 <= a < 32 → 0 <= b < 64 →
  Z.lor (a ≪ 6) b = a * 64 + b.
Proof. intros. rewrite shiftl_mul by lia. apply (lor_add 6); lia. Qed.

Lemma rune3 a b c : 0 <= a < 16 → 0 <= b < 64 → 0 <= c < 64 →
  Z.lor (Z.lor (a ≪ 12) (b ≪ 6)) c = a * 4096 + b * 64 + c.
Proof.
  intros. rewrite !shiftl_mul by lia.
  change (2 ^ 12) with 4096. change (2 ^ 6) with 64.
  rewrite (lor_add' 12 (a * 4096)); [|lia|lia|zlia].
  rewrite (lor_add' 6 (a * 4096 + b * 64)); [|lia|lia|zlia]. lia.
Qed.

Lemma rune4 a b c d : 0 <= a < 8 → 0 <= b < 64 → 0 <= c < 64 → 0 <= d < 64 →
  Z.lor (Z.lor (Z.lor (a ≪ 18) (b ≪ 12)) (c ≪ 6)) d
  = a * 262144 + b * 4096 + c * 64 + d.
Proof.
  intros. rewrite !shiftl_mul by lia.
  change (2 ^ 18) with 262144. change (2 ^ 12) with 4096.
  change (2 ^ 6) with 64.
  rewrite (lor_add' 18 (a * 262144)); [|lia|lia|zlia].
  rewrite (lor_add' 12 (a * 262144 + b * 4096)); [|lia|lia|zlia].
  rewrite (lor_add' 6 (a * 262144 + b * 4096 + c * 64)); [|lia|lia|zlia].
  lia.
Qed.

Ltac bool2prop :=
  repeat match goal with
  | H : (_ && _) = true |- _ => apply andb_prop in H; destruct H
  | H : (_ || _) = false |- _ => apply orb_false_elim in H; destruct H
  | H : (_ <? _) = true |- _ => apply Z.ltb_lt in H
  | H : (_ <? _) = false |- _ => apply Z.ltb_ge in H
  | H : (_ <=? _) = true |- _ => apply Z.leb_le in H
  | H : (_ <=? _) = false |- _ => apply Z.leb_gt in H
  | H : (_ =? _) = true |- _ => apply Z.eqb_eq in H
  | H : (_ =? _) = false |- _ => apply Z.eqb_neq in H
  | H : negb _ = true |- _ => apply negb_true_iff in H
  | H : negb _ = false |- _ => apply negb_false_iff in H
  end.

Ltac utf8_consts :=
  unfold utf8.RuneSelf, utf8.RuneError, utf8.MaxRune, utf8.surrogateMin,
    utf8.surrogateMax, utf8.t2, utf8.t3, utf8.t4, utf8.tx, utf8.maskx,
    utf8.mask2, utf8.mask3, utf8.mask4, utf8.rune1Max, utf8.rune2Max,
    utf8.rune3Max, utf8.locb, utf8.hicb in *.

Lemma first_Some p0 sz lo hi :
  utf8.first p0 = Some (sz, lo, hi) →
  (sz = 2%nat ∧ 0xC2 <= p0 <= 0xDF ∧ lo = 0x80 ∧ hi = 0xBF) ∨
  (sz = 3%nat ∧ 0xE0 <= p0 <= 0xEF
   ∧ lo = (if p0 =? 0xE0 then 0xA0 else 0x80)
   ∧ hi = (if p0 =? 0xED then 0x9F else 0xBF)) ∨
  (sz = 4%nat ∧ 0xF0 <= p0 <= 0xF4
   ∧ lo = (if p0 =? 0xF0 then 0x90 else 0x80)
   ∧ hi = (if p0 =? 0xF4 then 0x8F else 0xBF)).
Proof.
  unfold utf8.first. utf8_consts.
  repeat case_match; intros [= <- <- <-]; bool2prop; subst;
    try (left; repeat split; lia);
    try (right; left; repeat split; try lia; repeat case_match; bool2prop; lia);
    try (right; right; repeat split; try lia; repeat case_match; bool2prop; lia).
Qed.

Lemma first_None p0 : utf8.first p0 = None → p0 < 0xC2 ∨ 0xF4 < p0.
Proof.
  unfold utf8.first. repeat case_match; try discriminate; bool2prop; lia.
Qed.

Lemma DecodeRune_encodes s :
  s ≠ [] → utf8.invalid_at s = false →
  encodes s (utf8.DecodeRune s).1 (utf8.DecodeRune s).2.
Proof.
  destruct s as [|p0 p1]; [done|]. intros _.
  unfold utf8.invalid_at, utf8.DecodeRune.
  pose proof (b2z_range p0) as R0.
  destruct (b2z p0 <? utf8.RuneSelf) eqn:E0.
  { intros _. simpl. constructor. utf8_consts. bool2prop. lia. }
  destruct (utf8.first (b2z p0)) as [[[sz lo] hi]|] eqn:Ef; [|done].
  apply first_Some in Ef.
  destruct p1 as [|b1 p2]; [done|].
  pose proof (b2z_range b1) as R1.
  unfold utf8.outside.
  destruct ((b2z b1 <? lo) || (hi <? b2z b1)) eqn:E1; [done|].
  bool2prop.
  destruct Ef as [(-> & Hp & -> & ->)|[(-> & Hp & -> & ->)|(-> & Hp & -> & ->)]];
    simpl; utf8_consts.
  - intros _.
    rewrite land_mask2, land_maskx, rune2 by zlia.
    replace (b2z p0 mod 32 * 64 + b2z b1 mod 64)
      with ((b2z p0 - 192) * 64 + (b2z b1 - 128)) by zlia.
    constructor; lia.
  - destruct p2 as [|b2 p3]; [done|].
    pose proof (b2z_range b2) as R2.
    destruct ((b2z b2 <? 128) || (191 <? b2z b2)) eqn:E2; [done|].
    bool2prop. intros _. simpl.
    assert (128 <= b2z b1 <= 191) by (repeat case_match; lia).
    rewrite land_mask3, !land_maskx, rune3 by zlia.
    replace (b2z p0 mod 16 * 4096 + b2z b1 mod 64 * 64 + b2z b2 mod 64)
      with ((b2z p0 - 224) * 4096 + (b2z b1 - 128) * 64 + (b2z b2 - 128))
      by zlia.
    constructor; lia.
  - destruct p2 as [|b2 p3]; [done|].
    pose proof (b2z_range b2) as R2.
    destruct ((b2z b2 <? 128) || (191 <? b2z b2)) eqn:E2; [done|].
    destruct p3 as [|b3 p4]; [done|].
    pose proof (b2z_range b3) as R3.
    destruct ((b2z b3 <? 128) || (191 <? b2z b3)) eqn:E3; [done|].
    bool2prop. intros _. simpl.
    assert (128 <= b2z b1 <= 191) by (repeat case_match; lia).
    rewrite land_mask4, !land_maskx, rune4 by zlia.
    replace (b2z p0 mod 8 * 262144 + b2z b1 mod 64 * 4096
             + b2z b2 mod 64 * 64 + b2z b3 mod 64)
      with ((b2z p0 - 240) * 262144 + (b2z b1 - 128) * 4096
            + (b2z b2 - 128) * 64 + (b2z b3 - 128)) by zlia.
    constructor; lia.
Qed.

Lemma first_2 p : 0xC2 <= p <= 0xDF → utf8.first p = Some (2%nat, 0x80, 0xBF).
Proof.
  intros. unfold utf8.first. utf8_consts.
  repeat case_match; bool2prop; try lia; reflexivity.
Qed.

Lemma first_3 p : 0xE0 <= p <= 0xEF →
  utf8.first p = Some (3%nat, if p =? 0xE0 then 0xA0 else 0x80,
                              if p =? 0xED then 0x9F else 0xBF).
Proof.
  intros. unfold utf8.first. utf8_consts.
  repeat case_match; bool2prop; try lia; reflexivity.
Qed.

Lemma first_4 p : 0xF0 <= p <= 0xF4 →
  utf8.first p = Some (4%nat, if p =? 0xF0 then 0x90 else 0x80,
                              if p =? 0xF4 then 0x8F else 0xBF).
Proof.
  intros. unfold utf8.first. utf8_consts.
  repeat case_match; bool2prop; try lia; reflexivity.
Qed.

Lemma outside_false lo hi b :
  lo <= b2z b <= hi → utf8.outside lo hi b = false.
Proof.
  intros. unfold utf8.outside.
  apply orb_false_intro; [apply Z.ltb_ge|apply Z.ltb_ge]; lia.
Qed.

Lemma encodes_DecodeRune s c n : encodes s c n → utf8.DecodeRune s = (c, n).
Proof.
  destruct 1 as [p0 r H0|p0 b1 r H0 H1|p0 b1 b2 r H0 H1 H2
                 |p0 b1 b2 b3 r H0 H1 H2 H3];
    unfold utf8.DecodeRune.
  - replace (b2z p0 <? utf8.RuneSelf) with true; [done|].
    symmetry. apply Z.ltb_lt. utf8_consts. lia.
  - replace (b2z p0 <? utf8.RuneSelf) with false
      by (symmetry; apply Z.ltb_ge; utf8_consts; lia).
    rewrite first_2, outside_false by lia. simpl. utf8_consts.
    pose proof (b2z_range p0). pose proof (b2z_range b1).
    rewrite land_mask2, land_maskx, rune2 by zlia.
    f_equal. zlia.
  - replace (b2z p0 <? utf8.RuneSelf) with false
      by (symmetry; apply Z.ltb_ge; utf8_consts; lia).
    rewrite first_3, !outside_false by (utf8_consts; lia). simpl. utf8_consts.
    pose proof (b2z_range p0). pose proof (b2z_range b1).
    pose proof (b2z_range b2).
    rewrite land_mask3, !land_maskx, rune3 by zlia.
    f_equal.
    assert (128 <= b2z b1 <= 191) by (repeat case_match; lia). zlia.
  - replace (b2z p0 <? utf8.RuneSelf) with false
      by (symmetry; apply Z.ltb_ge; utf8_consts; lia).
    rewrite first_4, !outside_false by (utf8_consts; lia). simpl. utf8_consts.
    pose proof (b2z_range p0). pose proof (b2z_range b1).
    pose proof (b2z_range b2). pose proof (b2z_range b3).
    rewrite land_mask4, !land_maskx, rune4 by zlia.
    f_equal.
    assert (128 <= b2z b1 <= 191) by (repeat case_match; lia). zlia.
Qed.

(** The rune of an encoding is a scalar value whose encoding has that
    width. *)
Lemma encodes_range s c n :
  encodes s c n →
  (n = 1%nat ∧ 0 <= c < 0x80) ∨ (n = 2%nat ∧ 0x80 <= c < 0x800) ∨
  (n = 3%nat ∧ 0x800 <= c < 0x10000 ∧ ¬ (0xD800 <= c <= 0xDFFF)) ∨
  (n = 4%nat ∧ 0x10000 <= c <= 0x10FFFF).
Proof.
  destruct 1 as [p0 r H0|p0 b1 r H0 H1|p0 b1 b2 r H0 H1 H2
                 |p0 b1 b2 b3 r H0 H1 H2 H3].
  - pose proof (b2z_range p0). left. lia.
  - right. left. lia.
  - right. right. left. repeat case_match; bool2prop; lia.
  - right. right. right. repeat case_match; bool2prop; lia.
Qed.

Lemma encodes_valid s c n : encodes s c n → utf8.invalid_at s = false.
Proof.
  intros H. unfold utf8.invalid_at. rewrite (encodes_DecodeRune _ _ _ H).
  apply encodes_range in H. utf8_consts.
  destruct (c =? 65533) eqn:E; [|done]. bool2prop.
  destruct n as [|[|n]]; [lia| |done]. lia.
Qed.

Lemma encodes_prefix s c n x : encodes s c n → encodes (take n s ++ x) c n.
Proof. destruct 1; simpl; constructor; assumption. Qed.

Lemma encodes_length s c n : encodes s c n → (0 < n <= length s)%nat.
Proof. destruct 1; simpl; lia. Qed.

Lemma z2b_eq z (b : byte) : z = b2z b → z2b z = b.
Proof. intros ->. apply z2b_b2z. Qed.

Ltac bytes_eq :=
  repeat (apply (f_equal2 cons);
          [first [apply z2b_eq; zlia | apply (f_equal z2b); zlia]|]);
  reflexivity.

Lemma EncodeRune_1 c : 0 <= c < 0x80 → utf8.EncodeRune c = [z2b c].
Proof.
  intros. unfold utf8.EncodeRune. rewrite Z.mod_small by lia.
  utf8_consts. case_match; bool2prop; [done|lia].
Qed.

Lemma EncodeRune_2 c : 0x80 <= c < 0x800 →
  utf8.EncodeRune c = [z2b (192 + c / 64); z2b (128 + c mod 64)].
Proof.
  intros. unfold utf8.EncodeRune. rewrite Z.mod_small by lia.
  utf8_consts. repeat case_match; bool2prop; try lia.
  rewrite shiftr_div, !b2z_z2b, land_maskx by lia.
  change (2 ^ 6) with 64.
  rewrite lor_t2, lor_tx by zlia. bytes_eq.
Qed.

Lemma EncodeRune_3 c :
  0x800 <= c < 0x10000 → ¬ (0xD800 <= c <= 0xDFFF) →
  utf8.EncodeRune c =
    [z2b (224 + c / 4096); z2b (128 + c / 64 mod 64); z2b (128 + c mod 64)].
Proof.
  intros. unfold utf8.EncodeRune. rewrite Z.mod_small by lia.
  utf8_consts. repeat case_match; bool2prop; try lia.
  rewrite !shiftr_div, !b2z_z2b, !land_maskx by lia.
  change (2 ^ 6) with 64. change (2 ^ 12) with 4096.
  rewrite lor_t3, !lor_tx by zlia. bytes_eq.
Qed.

Lemma EncodeRune_4 c : 0x10000 <= c <= 0x10FFFF →
  utf8.EncodeRune c =
    [z2b (240 + c / 262144); z2b (128 + c / 4096 mod 64);
     z2b (128 + c / 64 mod 64); z2b (128 + c mod 64)].
Proof.
  intros. unfold utf8.EncodeRune. rewrite Z.mod_small by lia.
  utf8_consts. repeat case_match; bool2prop; try lia.
  rewrite !shiftr_div, !b2z_z2b, !land_maskx by lia.
  change (2 ^ 6) with 64. change (2 ^ 12) with 4096.
  change (2 ^ 18) with 262144.
  rewrite lor_t4, !lor_tx by zlia. bytes_eq.
Qed.

(** A rune that is not a scalar value is encoded as U+FFFD. *)
Lemma EncodeRune_other c :
  ¬ (0 <= c mod 2 ^ 32 <= 0x10FFFF) ∨ 0xD800 <= c mod 2 ^ 32 <= 0xDFFF →
  utf8.EncodeRune c = [xef; xbf; xbd].
Proof.
  intros. unfold utf8.EncodeRune. utf8_consts.
  pose proof (Z.mod_pos_bound c (2 ^ 32) eq_refl).
  repeat case_match; bool2prop; try lia; reflexivity.
Qed.

(** Encoding the rune of a valid sequence gives the sequence back. *)
Lemma EncodeRune_encodes s c n : encodes s c n → utf8.EncodeRune c = take n s.
Proof.
  destruct 1 as [p0 r H0|p0 b1 r H0 H1|p0 b1 b2 r H0 H1 H2
                 |p0 b1 b2 b3 r H0 H1 H2 H3]; simpl; rewrite ?take_0.
  - pose proof (b2z_range p0). rewrite EncodeRune_1 by lia.
    by rewrite z2b_b2z.
  - rewrite EncodeRune_2 by lia. bytes_eq.
  - assert (128 <= b2z b1 <= 191) by (repeat case_match; lia).
    rewrite EncodeRune_3 by (repeat case_match; bool2prop; lia).
    bytes_eq.
  - assert (128 <= b2z b1 <= 191) by (repeat case_match; lia).
    rewrite EncodeRune_4 by (repeat case_match; bool2prop; lia).
    bytes_eq.
Qed.

Lemma encodes_eq s c c' n : encodes s c' n → c = c' → encodes s c n.
Proof. by intros H ->. Qed.

Lemma z2b_mod x y : x mod 256 = y mod 256 → z2b x = z2b y.
Proof. unfold z2b. by intros ->. Qed.

(** Only [uint32(r)] matters to [EncodeRune]. *)
Lemma EncodeRune_mod c : utf8.EncodeRune c = utf8.EncodeRune (c mod 2 ^ 32).
Proof.
  unfold utf8.EncodeRune. rewrite Z.mod_mod by lia.
  rewrite !shiftr_div by lia.
  change (2 ^ 6) with 64. change (2 ^ 12) with 4096.
  change (2 ^ 18) with 262144. change (2 ^ 32) with 4294967296.
  rewrite (z2b_mod c (c mod 4294967296)) by zlia.
  rewrite (z2b_mod (c / 64) (c mod 4294967296 / 64)) by zlia.
  rewrite (z2b_mod (c / 4096) (c mod 4294967296 / 4096)) by zlia.
  rewrite (z2b_mod (c / 262144) (c mod 4294967296 / 262144)) by zlia.
  reflexivity.
Qed.

(** What [EncodeRune] writes is a valid encoding. *)
Lemma encodes_EncodeRune c r :
  ∃ c', encodes (utf8.EncodeRune c ++ r) c' (length (utf8.EncodeRune c)).
Proof.
  rewrite EncodeRune_mod.
  pose proof (Z.mod_pos_bound c (2 ^ 32) eq_refl) as Hr.
  set (c0 := c mod 2 ^ 32) in *. clearbody c0. clear c. rename c0 into c.
  destruct (decide (c <= 0x10FFFF ∧ ¬ (0xD800 <= c <= 0xDFFF))) as [[Hc Hs]|Hn].
  - exists c.
    destruct (decide (c < 0x80)); [|destruct (decide (c < 0x800));
      [|destruct (decide (c < 0x10000))]].
    + rewrite EncodeRune_1 by lia. simpl.
      eapply encodes_eq; [constructor|]; rewrite b2z_z2b; zlia.
    + rewrite EncodeRune_2 by lia. simpl.
      eapply encodes_eq; [constructor|]; rewrite !b2z_z2b; zlia.
    + rewrite EncodeRune_3 by lia. simpl.
      eapply encodes_eq; [constructor|]; rewrite !b2z_z2b;
        repeat case_match; bool2prop; zlia.
    + rewrite EncodeRune_4 by lia. simpl.
      eapply encodes_eq; [constructor|]; rewrite !b2z_z2b;
        repeat case_match; bool2prop; zlia.
  - rewrite EncodeRune_other by (rewrite Z.mod_small by lia; lia).
    exists 0xFFFD. simpl.
    eapply encodes_eq; [apply encodes3|]; vm_compute; try done;
      split; discriminate.
Qed.

(** ** Strings *)

(** *** The loops over a string do not depend on their bound *)

Lemma DecodeRune_width s :
  s ≠ [] → utf8.invalid_at s = false →
  (0 < (utf8.DecodeRune s).2 <= length s)%nat.
Proof. intros. eapply encodes_length, DecodeRune_encodes; eauto. Qed.

Lemma Valid_loop_fuel f1 f2 s :
  (length s <= f1)%nat → (length s <= f2)%nat →
  utf8.Valid_loop f1 s = utf8.Valid_loop f2 s.
Proof.
  revert f2 s. induction f1 as [|f1 IH]; intros f2 s H1 H2.
  - destruct s; [|simpl in H1; lia]. by destruct f2.
  - destruct s as [|b tl]; [by destruct f2|].
    destruct f2 as [|f2]; [simpl in H2; lia|]. simpl.
    destruct (utf8.invalid_at (b :: tl)) eqn:E; [done|].
    pose proof (DecodeRune_width (b :: tl) ltac:(done) E) as Hw.
    apply IH; rewrite length_drop; simpl in *; lia.
Qed.

Lemma coerce_loop_fuel f1 f2 s :
  (length s <= f1)%nat → (length s <= f2)%nat →
  coerce_loop f1 s = coerce_loop f2 s.
Proof.
  revert f2 s. induction f1 as [|f1 IH]; intros f2 s H1 H2.
  - destruct s; [|simpl in H1; lia]. by destruct f2.
  - destruct s as [|b tl]; [by destruct f2|].
    destruct f2 as [|f2]; [simpl in H2; lia|]. cbn [coerce_loop].
    destruct (utf8.invalid_at (b :: tl)) eqn:E.
    + apply (f_equal (app _)), IH; simpl in *; lia.
    + pose proof (DecodeRune_width (b :: tl) ltac:(done) E) as Hw.
      apply (f_equal (app _)), IH; rewrite length_drop; simpl in *; lia.
Qed.

Lemma appendString_loop_fuel f1 f2 s :
  (length s <= f1)%nat → (length s <= f2)%nat →
  json.appendString_loop f1 s = json.appendString_loop f2 s.
Proof.
  revert f2 s. induction f1 as [|f1 IH]; intros f2 s H1 H2.
  - destruct s; [|simpl in H1; lia]. by destruct f2.
  - destruct s as [|b tl]; [by destruct f2|].
    destruct f2 as [|f2]; [simpl in H2; lia|].
    cbn [json.appendString_loop].
    destruct (b2z b <? utf8.RuneSelf).
    { apply (f_equal (app _)), IH; simpl in *; lia. }
    destruct (utf8.DecodeRune (b :: tl)) as [c size] eqn:Ed.
    destruct ((c =? utf8.RuneError) && (size =? 1)%nat) eqn:E.
    { apply (f_equal (app _)), IH; simpl in *; lia. }
    assert (Hw : (0 < size <= length (b :: tl))%nat).
    { pose proof (DecodeRune_width (b :: tl) ltac:(done)) as Hw.
      unfold utf8.invalid_at in Hw. rewrite Ed in Hw. by apply Hw. }
    destruct ((c =? 8232) || (c =? 8233)); rewrite <- ?app_assoc;
      repeat apply (f_equal (app _)); apply IH; rewrite length_drop;
      simpl in *; lia.
Qed.

(** *** One step of each loop *)

Lemma Valid_nil : utf8.ValidString [] = true.
Proof. reflexivity. Qed.

Lemma Valid_encodes s c n :
  encodes s c n → utf8.ValidString s = utf8.ValidString (drop n s).
Proof.
  intros H. pose proof (encodes_length _ _ _ H) as Hl.
  unfold utf8.ValidString. destruct s as [|b tl]; [simpl in Hl; lia|].
  cbn [length utf8.Valid_loop].
  rewrite (encodes_valid _ _ _ H), (encodes_DecodeRune _ _ _ H). simpl.
  apply Valid_loop_fuel; rewrite ?length_drop; simpl in *; lia.
Qed.

Lemma Valid_invalid s :
  s ≠ [] → utf8.invalid_at s = true → utf8.ValidString s = false.
Proof.
  intros Hs H. unfold utf8.ValidString. destruct s; [done|].
  cbn [length utf8.Valid_loop]. by rewrite H.
Qed.

Lemma coerce_nil : coerceString [] = [].
Proof. reflexivity. Qed.

Lemma coerce_encodes s c n :
  encodes s c n → coerceString s = take n s ++ coerceString (drop n s).
Proof.
  intros H. pose proof (encodes_length _ _ _ H) as Hl.
  unfold coerceString. destruct s as [|b tl]; [simpl in Hl; lia|].
  cbn [length coerce_loop].
  rewrite (encodes_valid _ _ _ H), (encodes_DecodeRune _ _ _ H).
  cbn [snd]. apply (f_equal (app _)), coerce_loop_fuel;
    rewrite ?length_drop; simpl in *; lia.
Qed.

Lemma coerce_invalid b tl :
  utf8.invalid_at (b :: tl) = true →
  coerceString (b :: tl) = utf8.EncodeRune utf8.RuneError ++ coerceString tl.
Proof.
  intros H. unfold coerceString. cbn [length coerce_loop]. by rewrite H.
Qed.

(** A string is valid when the round trip leaves it as it is. *)
Lemma coerce_valid s : utf8.ValidString s = true → coerceString s = s.
Proof.
  induction s as [s IH] using (induction_ltof1 _ (@length byte)).
  unfold ltof in IH. intros Hv.
  destruct s as [|b tl]; [done|].
  destruct (utf8.invalid_at (b :: tl)) eqn:E.
  { rewrite Valid_invalid in Hv; done. }
  pose proof (DecodeRune_encodes (b :: tl) ltac:(done) E) as He.
  pose proof (encodes_length _ _ _ He) as Hl.
  rewrite (coerce_encodes _ _ _ He), IH.
  - apply take_drop.
  - rewrite length_drop. lia.
  - by rewrite <- (Valid_encodes _ _ _ He).
Qed.

Lemma Valid_app_encodes p r c :
  encodes (p ++ r) c (length p) → utf8.ValidString r = true →
  utf8.ValidString (p ++ r) = true.
Proof.
  intros H Hr. rewrite (Valid_encodes _ _ _ H).
  by rewrite drop_app_length.
Qed.

Lemma Valid_EncodeRune c r :
  utf8.ValidString r = true → utf8.ValidString (utf8.EncodeRune c ++ r) = true.
Proof.
  intros. destruct (encodes_EncodeRune c r) as [c' H'].
  eapply Valid_app_encodes; eauto.
Qed.

Lemma Valid_ascii b r :
  b2z b < 0x80 → utf8.ValidString r = true → utf8.ValidString (b :: r) = true.
Proof.
  intros. apply (Valid_app_encodes [b] r (b2z b)); [|done].
  by constructor.
Qed.

(** The round trip produces valid strings. *)
Lemma coerce_is_valid s : utf8.ValidString (coerceString s) = true.
Proof.
  induction s as [s IH] using (induction_ltof1 _ (@length byte)).
  unfold ltof in IH. destruct s as [|b tl]; [done|].
  destruct (utf8.invalid_at (b :: tl)) eqn:E.
  - rewrite coerce_invalid by done. apply Valid_EncodeRune, IH. simpl. lia.
  - pose proof (DecodeRune_encodes (b :: tl) ltac:(done) E) as He.
    pose proof (encodes_length _ _ _ He) as Hl.
    rewrite (coerce_encodes _ _ _ He).
    eapply Valid_app_encodes.
    + rewrite length_take_le by lia. eapply encodes_prefix, He.
    + apply IH. rewrite length_drop. lia.
Qed.

(** *** String literals: [unquote] after [appendString] *)

Lemma body_ascii b tl :
  b2z b < 0x80 →
  body (b :: tl) = (if json.htmlSafeSet b then [b] else json.escape b) ++ body tl.
Proof.
  intros H. unfold body. cbn [length json.appendString_loop].
  replace (b2z b <? utf8.RuneSelf) with true
    by (symmetry; apply Z.ltb_lt; utf8_consts; lia).
  done.
Qed.

Lemma body_invalid b tl :
  0x80 <= b2z b → utf8.invalid_at (b :: tl) = true →
  body (b :: tl) = json.esc_u "fffd" ++ body tl.
Proof.
  intros H Hi. unfold body. cbn [length json.appendString_loop].
  replace (b2z b <? utf8.RuneSelf) with false
    by (symmetry; apply Z.ltb_ge; utf8_consts; lia).
  unfold utf8.invalid_at in Hi.
  destruct (utf8.DecodeRune (b :: tl)) as [c size]. by rewrite Hi.
Qed.

Lemma body_encodes b tl c n :
  0x80 <= b2z b → encodes (b :: tl) c n →
  body (b :: tl) =
    (if (c =? 0x2028) || (c =? 0x2029)
     then json.esc_u "202" ++ [json.hexDigit (Z.land c 0xF)]
     else take n (b :: tl)) ++ body (drop n (b :: tl)).
Proof.
  intros H He. unfold body. cbn [length json.appendString_loop].
  replace (b2z b <? utf8.RuneSelf) with false
    by (symmetry; apply Z.ltb_ge; utf8_consts; lia).
  pose proof (encodes_valid _ _ _ He) as Hv. unfold utf8.invalid_at in Hv.
  pose proof (encodes_length _ _ _ He) as Hl.
  rewrite (encodes_DecodeRune _ _ _ He) in Hv |- *. rewrite Hv.
  destruct ((c =? 8232) || (c =? 8233)); rewrite <- ?app_assoc;
    repeat apply (f_equal (app _)); apply appendString_loop_fuel;
    rewrite ?length_drop; simpl in *; lia.
Qed.

Lemma unquote_step_plain F b X :
  json.htmlSafeSet b = true →
  json.unquote_loop (S F) (b :: X) = continue [b] F X.
Proof.
  intros H. destruct b; try discriminate H; reflexivity.
Qed.

Lemma unquote_step_escape F b X :
  b2z b < 0x80 → json.htmlSafeSet b = false →
  json.unquote_loop (S F) (json.escape b ++ X) = continue [b] F X.
Proof.
  intros H1 H2.
  destruct b; try discriminate H2; try (vm_compute in H1; discriminate H1);
    reflexivity.
Qed.

Lemma unquote_step_fffd F X :
  json.unquote_loop (S F) (json.esc_u "fffd" ++ X)
  = continue (utf8.EncodeRune utf8.RuneError) F X.
Proof. reflexivity. Qed.

Lemma unquote_step_202x F c X :
  c = 0x2028 ∨ c = 0x2029 →
  json.unquote_loop (S F) (json.esc_u "202" ++ [json.hexDigit (Z.land c 0xF)] ++ X)
  = continue (utf8.EncodeRune c) F X.
Proof. intros [->| ->]; reflexivity. Qed.

Lemma unquote_step_raw F b tl c n X :
  0x80 <= b2z b → encodes (b :: tl) c n →
  json.unquote_loop (S F) (take n (b :: tl) ++ X)
  = continue (utf8.EncodeRune c) F X.
Proof.
  intros Hb He. pose proof (encodes_length _ _ _ He) as Hl.
  pose proof (encodes_prefix _ _ _ X He) as Hp.
  destruct n as [|n]; [lia|]. rewrite firstn_cons in Hp |- *.
  cbn [app json.unquote_loop].
  assert (byte_eqb b x22 = false) as ->.
  { rewrite byte_eqb_z. apply Z.eqb_neq. change (b2z x22) with 34. lia. }
  assert (byte_eqb b x5c = false) as ->.
  { rewrite byte_eqb_z. apply Z.eqb_neq. change (b2z x5c) with 92. lia. }
  replace (b2z b <? 32) with false by (symmetry; apply Z.ltb_ge; lia).
  replace (b2z b <? utf8.RuneSelf) with false
    by (symmetry; apply Z.ltb_ge; utf8_consts; lia).
  cbn [app] in Hp. rewrite (encodes_DecodeRune _ _ _ Hp).
  change (b :: take n tl ++ X) with (take (S n) (b :: tl) ++ X).
  rewrite drop_app_length'; [done|].
  rewrite length_take_le; lia.
Qed.

Lemma unquote_loop_body s :
  ∀ X F, (length (body s) < F)%nat →
  json.unquote_loop F (body s ++ x22 :: X) = Some (coerceString s, X).
Proof.
  induction s as [s IH] using (induction_ltof1 _ (@length byte)).
  unfold ltof in IH. intros X F HF.
  destruct F as [|F]; [lia|].
  destruct s as [|b tl]; [reflexivity|].
  destruct (decide (b2z b < 0x80)) as [Ha|Ha].
  - assert (He : encodes (b :: tl) (b2z b) 1) by by constructor.
    rewrite body_ascii in HF |- * by done.
    rewrite (coerce_encodes _ _ _ He). cbn [take drop].
    rewrite <- app_assoc. rewrite length_app in HF.
    destruct (json.htmlSafeSet b) eqn:Es.
    + cbn [app]. rewrite unquote_step_plain by done. unfold continue.
      rewrite IH; [done|simpl; lia|simpl in HF; lia].
    + rewrite unquote_step_escape by done. unfold continue.
      rewrite IH; [done|simpl; lia|].
      assert (0 < length (json.escape b))%nat; [|lia].
      unfold json.escape. repeat case_match; simpl; lia.
  - destruct (utf8.invalid_at (b :: tl)) eqn:Ei.
    + rewrite body_invalid in HF |- * by (done || lia).
      rewrite coerce_invalid by done. rewrite <- app_assoc.
      rewrite unquote_step_fffd. unfold continue.
      rewrite length_app in HF. simpl in HF.
      rewrite IH; [done|simpl; lia|lia].
    + pose proof (DecodeRune_encodes (b :: tl) ltac:(done) Ei) as He.
      destruct (utf8.DecodeRune (b :: tl)) as [c n]. cbn [fst snd] in He.
      pose proof (encodes_length _ _ _ He) as Hl.
      rewrite (body_encodes _ _ c n) in HF |- * by (done || lia).
      rewrite (coerce_encodes _ _ _ He).
      rewrite <- app_assoc. rewrite length_app in HF.
      destruct ((c =? 8232) || (c =? 8233)) eqn:E2.
      * rewrite <- app_assoc. rewrite unquote_step_202x.
        2:{ apply orb_prop in E2. destruct E2; bool2prop; auto. }
        unfold continue. rewrite (EncodeRune_encodes _ _ _ He).
        rewrite IH; [done|rewrite length_drop; lia|].
        rewrite length_app in HF. simpl in HF. lia.
      * rewrite (unquote_step_raw _ _ _ c) by (done || lia).
        unfold continue. rewrite (EncodeRune_encodes _ _ _ He).
        rewrite IH; [done|rewrite length_drop; lia|].
        rewrite length_take_le in HF by lia. lia.
Qed.

Lemma unquote_appendString s X :
  json.unquote (json.appendString s ++ X) = Some (coerceString s, X).
Proof.
  unfold json.appendString, json.unquote. cbn [app].
  change (byte_eqb x22 x22) with true. cbv iota.
  rewrite <- app_assoc. apply unquote_loop_body.
  rewrite length_app. simpl. unfold body. lia.
Qed.

(** *** Every string literal decodes to valid UTF-8 *)

Lemma continue_valid out F X w rest :
  (∀ w', utf8.ValidString w' = true → utf8.ValidString (out ++ w') = true) →
  (∀ w' rest', json.unquote_loop F X = Some (w', rest') →
               utf8.ValidString w' = true) →
  continue out F X = Some (w, rest) → utf8.ValidString w = true.
Proof.
  intros Hout IH. unfold continue.
  destruct (json.unquote_loop F X) as [[w' rest']|]; [|done].
  intros [= <- <-]. eapply Hout, IH. reflexivity.
Qed.

Lemma unescape_ascii e b : json.unescape e = Some b → b2z b < 0x80.
Proof.
  unfold json.unescape.
  repeat case_match; intros [= <-]; try done.
  destruct e; try discriminate; done.
Qed.

Lemma unquote_loop_valid F : ∀ s w rest,
  json.unquote_loop F s = Some (w, rest) → utf8.ValidString w = true.
Proof.
  induction F as [|F IH]; intros s w rest; [done|].
  destruct s as [|c tl]; [done|]. cbn [json.unquote_loop].
  fold (continue (utf8.EncodeRune
          (utf16.DecodeRune (json.getu4 (c :: tl))
             (json.getu4 (drop 6 (c :: tl))))) F (drop 6 (drop 6 (c :: tl)))).
  fold (continue (utf8.EncodeRune utf16.replacementChar) F (drop 6 (c :: tl))).
  fold (continue (utf8.EncodeRune (json.getu4 (c :: tl))) F (drop 6 (c :: tl))).
  fold (continue [c] F tl).
  destruct (byte_eqb c x22); [by intros [= <- <-]|].
  destruct (byte_eqb c x5c).
  { destruct tl as [|e tl']; [done|].
    destruct (byte_eqb e x75).
    - destruct (json.getu4 (c :: e :: tl') <? 0); [done|].
      repeat case_match; apply continue_valid; eauto using Valid_EncodeRune.
    - destruct (json.unescape e) as [b|] eqn:Ee; [|done].
      change (continue [b] F tl' = Some (w, rest) → utf8.ValidString w = true).
      apply continue_valid; eauto. intros. apply Valid_ascii; [|done].
      eapply unescape_ascii, Ee. }
  destruct (b2z c <? 32); [done|].
  destruct (b2z c <? utf8.RuneSelf) eqn:Ec.
  { apply continue_valid; eauto. intros. apply Valid_ascii; [|done].
    bool2prop. utf8_consts. lia. }
  destruct (utf8.DecodeRune (c :: tl)) as [rr size].
  fold (continue (utf8.EncodeRune rr) F (drop size (c :: tl))).
  apply continue_valid; eauto using Valid_EncodeRune.
Qed.

Lemma unquote_valid s w rest :
  json.unquote s = Some (w, rest) → utf8.ValidString w = true.
Proof.
  unfold json.unquote. destruct s as [|c tl]; [done|].
  destruct (byte_eqb c x22); [|done]. apply unquote_loop_valid.
Qed.

(** *** ASCII text *)

Lemma Valid_all_ascii s :
  Forall (λ b, b2z b < 0x80) s → utf8.ValidString s = true.
Proof.
  induction 1 as [|b s Hb _ IH]; [done|]. by apply Valid_ascii.
Qed.

Lemma body_safe s :
  Forall (λ b, json.htmlSafeSet b = true) s → body s = s.
Proof.
  induction 1 as [|b s Hb _ IH]; [done|].
  rewrite body_ascii, Hb, IH; [done|].
  destruct b; try discriminate Hb; done.
Qed.

Lemma safe_ascii s :
  Forall (λ b, json.htmlSafeSet b = true) s → Forall (λ b, b2z b < 0x80) s.
Proof.
  intros H. eapply Forall_impl; [exact H|].
  intros b Hb. destruct b; try discriminate Hb; done.
Qed.

(** Text of safe characters between quotes is a literal of itself. *)
Lemma unquote_safe s X :
  Forall (λ b, json.htmlSafeSet b = true) s →
  json.unquote (x22 :: s ++ x22 :: X) = Some (s, X).
Proof.
  intros Hs. pose proof (unquote_appendString s X) as H.
  unfold json.appendString in H. fold (body s) in H.
  rewrite body_safe in H by done.
  rewrite coerce_valid in H by by apply Valid_all_ascii, safe_ascii.
  by rewrite <- app_comm_cons, <- app_assoc in H.
Qed.

(** ** strconv *)

Lemma b2z_digit d : 0 <= d < 10 → b2z (strconv.digit d) = 0x30 + d.
Proof. intros. unfold strconv.digit. rewrite b2z_z2b. zlia. Qed.

Lemma isDigit_digit d : 0 <= d < 10 → strconv.isDigit (strconv.digit d) = true.
Proof.
  intros. unfold strconv.isDigit. rewrite b2z_digit by done.
  apply andb_true_intro. split; apply Z.leb_le; lia.
Qed.

Lemma formatBits_app fuel : ∀ u a,
  strconv.formatBits fuel u a = strconv.formatBits fuel u [] ++ a.
Proof.
  induction fuel as [|fuel IH]; intros u a; [done|]. simpl.
  destruct (u <? 10); [done|].
  rewrite IH, (IH _ [_]), <- app_assoc. done.
Qed.

Lemma formatBits_digits fuel : ∀ u,
  0 <= u → Forall (λ c, strconv.isDigit c = true) (strconv.formatBits fuel u []).
Proof.
  induction fuel as [|fuel IH]; intros u Hu; [constructor|]. simpl.
  destruct (u <? 10) eqn:E; bool2prop.
  - repeat constructor. apply isDigit_digit. lia.
  - rewrite formatBits_app. apply Forall_app. split.
    + apply IH. zlia.
    + repeat constructor. apply isDigit_digit. zlia.
Qed.

Lemma parseDigits_formatBits fuel : ∀ u tl,
  0 <= u < 2 ^ Z.of_nat fuel →
  strconv.parseDigits 0 (strconv.formatBits fuel u [] ++ tl)
  = strconv.parseDigits u tl.
Proof.
  induction fuel as [|fuel IH]; intros u tl Hu.
  - simpl in *. by replace u with 0 by lia.
  - rewrite Nat2Z.inj_succ, Z.pow_succ_r in Hu by lia. simpl.
    destruct (u <? 10) eqn:E; bool2prop.
    + simpl. rewrite isDigit_digit, b2z_digit by lia. f_equal. lia.
    + rewrite formatBits_app, <- app_assoc, IH by zlia. simpl.
      rewrite isDigit_digit, b2z_digit by zlia. f_equal. zlia.
Qed.

(** The first digit is not [0], except in the text of zero itself. *)
Lemma formatBits_head fuel : ∀ u,
  0 <= u < 2 ^ Z.of_nat fuel → (0 < fuel)%nat →
  ∃ d ds, strconv.formatBits fuel u [] = d :: ds ∧
          (byte_eqb d x30 = true → ds = []).
Proof.
  induction fuel as [|fuel IH]; intros u Hu Hf; [lia|].
  rewrite Nat2Z.inj_succ, Z.pow_succ_r in Hu by lia. simpl.
  destruct (u <? 10) eqn:E; bool2prop; [by eauto|].
  rewrite formatBits_app.
  destruct fuel as [|fuel]; [simpl in Hu; lia|].
  destruct (IH (u / 10)) as (d & ds & Hd & Hz); [zlia|lia|].
  rewrite Hd. exists d, (ds ++ [strconv.digit (u mod 10)]). split; [done|].
  intros Hd0. exfalso. specialize (Hz Hd0). subst ds.
  rewrite byte_eqb_spec in Hd0. case_bool_decide; [subst d|done].
  cbn [strconv.formatBits] in Hd.
  destruct (u / 10 <? 10) eqn:E2; bool2prop.
  - injection Hd as Hd. apply (f_equal b2z) in Hd.
    rewrite b2z_digit in Hd by zlia. change (b2z x30) with 48 in Hd. zlia.
  - rewrite formatBits_app in Hd.
    apply (f_equal length) in Hd. rewrite length_app in Hd. simpl in Hd.
    destruct fuel; simpl in *; [lia|].
    destruct (u / 10 / 10 <? 10); simpl in Hd; [lia|].
    rewrite formatBits_app, length_app in Hd. simpl in Hd. lia.
Qed.

Lemma digits_fuel u : 0 <= u → 0 <= u < 2 ^ Z.of_nat (S (Z.to_nat (Z.log2 u))).
Proof.
  intros Hu. split; [done|].
  rewrite Nat2Z.inj_succ, Z2Nat.id by apply Z.log2_nonneg.
  destruct (decide (u = 0)) as [->|]; [done|].
  apply Z.log2_spec. lia.
Qed.

Lemma FormatInt_eq i :
  strconv.FormatInt i = if i <? 0 then x2d :: digits (- i) else digits i.
Proof.
  unfold strconv.FormatInt, digits.
  destruct (i <? 0) eqn:E; bool2prop.
  - by rewrite Z.abs_neq by lia.
  - by rewrite Z.abs_eq by lia.
Qed.

Lemma digits_head u : 0 <= u →
  ∃ d ds, digits u = d :: ds ∧ strconv.isDigit d = true
          ∧ Forall (λ c, strconv.isDigit c = true) ds
          ∧ (byte_eqb d x30 = true → ds = []).
Proof.
  intros Hu.
  destruct (formatBits_head _ u (digits_fuel u Hu)) as (d & ds & Hd & Hz); [lia|].
  pose proof (formatBits_digits (S (Z.to_nat (Z.log2 u))) u Hu) as Hall.
  fold (digits u) in Hd, Hall. rewrite Hd in Hall.
  apply Forall_cons in Hall as [? ?]. eauto 10.
Qed.

Lemma ParseUint_digits u : 0 <= u → strconv.ParseUint (digits u) = Some u.
Proof.
  intros Hu. unfold strconv.ParseUint.
  destruct (digits_head u Hu) as (d & ds & Hd & _). rewrite Hd, <- Hd.
  rewrite <- (app_nil_r (digits u)).
  unfold digits. by rewrite parseDigits_formatBits by by apply digits_fuel.
Qed.

Lemma isDigit_not_sign d :
  strconv.isDigit d = true → byte_eqb d x2b = false ∧ byte_eqb d x2d = false.
Proof. destruct d; try discriminate; done. Qed.

Lemma ParseInt_FormatInt i :
  int_ok i → strconv.ParseInt (strconv.FormatInt i) = Some i.
Proof.
  intros [Hlo Hhi]. rewrite FormatInt_eq. unfold strconv.ParseInt.
  change (1 ≪ 63) with (2 ^ 63).
  destruct (i <? 0) eqn:E; bool2prop.
  - change (byte_eqb x2d x2d) with true. change (byte_eqb x2d x2b) with false.
    cbn [orb]. rewrite ParseUint_digits by lia. cbn.
    replace (2 ^ 63 <? - i) with false by (symmetry; apply Z.ltb_ge; lia).
    f_equal. lia.
  - destruct (digits_head i E) as (d & ds & Hd & Hdig & _).
    rewrite Hd. destruct (isDigit_not_sign d Hdig) as [-> ->]. cbn [orb].
    rewrite <- Hd, ParseUint_digits by lia. cbn.
    replace (2 ^ 63 <=? i) with false by (symmetry; apply Z.leb_gt; lia).
    done.
Qed.

Lemma FormatInt_inj i j :
  int_ok i → int_ok j → strconv.FormatInt i = strconv.FormatInt j → i = j.
Proof.
  intros Hi Hj H. apply (f_equal strconv.ParseInt) in H.
  rewrite !ParseInt_FormatInt in H by done. congruence.
Qed.

Lemma FormatInt_ascii i : Forall (λ b, b2z b < 0x80) (strconv.FormatInt i).
Proof.
  assert (Hd : ∀ s, Forall (λ c, strconv.isDigit c = true) s →
                    Forall (λ b, b2z b < 0x80) s).
  { intros s Hs. eapply Forall_impl; [exact Hs|].
    intros b Hb. destruct b; try discriminate Hb; done. }
  rewrite FormatInt_eq. unfold digits.
  destruct (i <? 0) eqn:E; bool2prop.
  - constructor; [done|]. apply Hd, formatBits_digits. lia.
  - apply Hd, formatBits_digits. lia.
Qed.

(** *** Number literals *)

Lemma span_digits_app ds rest :
  Forall (λ c, strconv.isDigit c = true) ds →
  (∀ c tl, rest = c :: tl → strconv.isDigit c = false) →
  json.span_digits (ds ++ rest) = (ds, rest).
Proof.
  intros Hds Hrest.
  induction Hds as [|d ds Hd _ IH]; cbn [app json.span_digits].
  - destruct rest as [|c tl]; [done|].
    cbn [json.span_digits]. by rewrite (Hrest c tl).
  - by rewrite Hd, IH.
Qed.

Lemma literalInt_FormatInt i rest :
  int_ok i →
  (∀ c tl, rest = c :: tl → strconv.isDigit c = false) →
  json.literalInt (strconv.FormatInt i ++ rest) = Some (i, rest).
Proof.
  intros Hi Hrest. pose proof (ParseInt_FormatInt i Hi) as Hp.
  rewrite FormatInt_eq in Hp |- *. unfold json.literalInt.
  destruct (i <? 0) eqn:E; bool2prop.
  - destruct (digits_head (- i) ltac:(lia)) as (d & ds & Hd & Hdig & Hds & Hz).
    cbn [app]. change (byte_eqb x2d x2d) with true. cbv iota.
    rewrite span_digits_app; [|rewrite Hd; by constructor|done].
    rewrite Hd in Hp |- *.
    destruct (byte_eqb d x30) eqn:E0.
    + rewrite (Hz eq_refl) in Hp |- *. cbn [andb negb bool_decide].
      rewrite bool_decide_eq_true_2 by done. cbn [negb andb app].
      by rewrite Hp.
    + cbn [andb app]. by rewrite Hp.
  - destruct (digits_head i ltac:(lia)) as (d & ds & Hd & Hdig & Hds & Hz).
    rewrite Hd in Hp |- *. cbn [app].
    destruct (isDigit_not_sign d Hdig) as [_ ->].
    change (d :: ds ++ rest) with ((d :: ds) ++ rest).
    rewrite span_digits_app; [|by constructor|done].
    destruct (byte_eqb d x30) eqn:E0.
    + rewrite (Hz eq_refl) in Hp |- *.
      rewrite bool_decide_eq_true_2 by done. cbn [negb andb app].
      by rewrite Hp.
    + cbn [andb app]. by rewrite Hp.
Qed.

(** What [ParseInt] returns is an [int]. *)
Lemma ParseInt_int_ok s i : strconv.ParseInt s = Some i → int_ok i.
Proof.
  unfold strconv.ParseInt. destruct s as [|c s']; [done|].
  match goal with |- context [strconv.ParseUint ?x] => set (s := x) end.
  assert (Hnn : ∀ (t : list byte) (acc v : Z),
            0 <= acc → strconv.parseDigits acc t = Some v → 0 <= v).
  { induction t as [|x t IH]; intros acc v Ha; simpl.
    - intros [= <-]. done.
    - destruct (strconv.isDigit x) eqn:Ex; [|done].
      apply IH. unfold strconv.isDigit in Ex. bool2prop. lia. }
  destruct (strconv.ParseUint s) as [un|] eqn:Eu; [|done]. cbn.
  assert (0 <= un).
  { unfold strconv.ParseUint in Eu. destruct s; [done|]. eapply Hnn; [|exact Eu]. lia. }
  change (1 ≪ 63) with (2 ^ 63). unfold int_ok.
  repeat case_match; try done; intros [= <-]; bool2prop; lia.
Qed.

Lemma literalInt_int_ok s i rest : json.literalInt s = Some (i, rest) → int_ok i.
Proof.
  unfold json.literalInt.
  repeat case_match; try done; subst;
    (destruct (strconv.ParseInt _) eqn:E; [|done]); cbn; intros [= <- <-];
    eapply ParseInt_int_ok, E.
Qed.

(** ** base64 *)

Lemma below_64 (P : Z → Prop) :
  (∀ i : nat, (i < 64)%nat → P (Z.of_nat i)) → ∀ v, 0 <= v < 64 → P v.
Proof.
  intros H v Hv. rewrite <- (Z2Nat.id v) by lia. apply H. lia.
Qed.

Lemma enc_spec v :
  0 <= v < 64 →
  base64.decodeMap (base64.enc v) = Some v
  ∧ byte_eqb (base64.enc v) base64.StdPadding = false
  ∧ json.htmlSafeSet (base64.enc v) = true.
Proof.
  revert v. apply below_64. intros i Hi.
  do 64 (destruct i as [|i]; [vm_compute; done|]). lia.
Qed.

Lemma sextet x k : 0 <= Z.land (x ≫ k) 0x3F < 64.
Proof. rewrite land_maskx. zlia. Qed.

(** The 24 bits of a quantum, put together from its six-bit values. *)
Lemma quantum d0 d1 d2 d3 :
  0 <= d0 < 64 → 0 <= d1 < 64 → 0 <= d2 < 64 → 0 <= d3 < 64 →
  Z.lor (Z.lor (Z.lor (d0 ≪ 18) (d1 ≪ 12)) (d2 ≪ 6)) d3
  = d0 * 262144 + d1 * 4096 + d2 * 64 + d3.
Proof.
  intros. rewrite !shiftl_mul by lia.
  change (2 ^ 18) with 262144. change (2 ^ 12) with 4096.
  change (2 ^ 6) with 64.
  rewrite (lor_add' 18 (d0 * 262144)); [|lia|lia|zlia].
  rewrite (lor_add' 12 (d0 * 262144 + d1 * 4096)); [|lia|lia|zlia].
  rewrite (lor_add' 6 (d0 * 262144 + d1 * 4096 + d2 * 64)); [|lia|lia|zlia].
  lia.
Qed.

Lemma group s0 s1 s2 :
  0 <= s0 < 256 → 0 <= s1 < 256 → 0 <= s2 < 256 →
  Z.lor (Z.lor (s0 ≪ 16) (s1 ≪ 8)) s2 = s0 * 65536 + s1 * 256 + s2.
Proof.
  intros. rewrite !shiftl_mul by lia.
  change (2 ^ 16) with 65536. change (2 ^ 8) with 256.
  rewrite (lor_add' 16 (s0 * 65536)); [|lia|lia|zlia].
  rewrite (lor_add' 8 (s0 * 65536 + s1 * 256)); [|lia|lia|zlia].
  lia.
Qed.

Lemma z2b_eq_mod z (b : byte) : z mod 256 = b2z b → z2b z = b.
Proof. intros H. rewrite <- (z2b_b2z b). apply z2b_mod. rewrite H. zlia. Qed.

Ltac bytes_eq_mod :=
  repeat (apply (f_equal2 cons); [apply z2b_eq_mod; zlia|]); reflexivity.

(** Six-bit values of 24 bits, put together again. *)
Lemma sextets val :
  0 <= val < 2 ^ 24 →
  (val / 262144) mod 64 * 262144 + (val / 4096) mod 64 * 4096
  + (val / 64) mod 64 * 64 + val mod 64 = val.
Proof. intros. zlia. Qed.

Ltac enc_facts v :=
  let H := fresh in
  pose proof (enc_spec v) as H;
  destruct H as (? & ? & ?); [apply sextet|].

Lemma Decode_Encode3 s0 s1 s2 src out :
  base64.Decode (base64.Encode src) = Some out →
  base64.Decode (base64.Encode (s0 :: s1 :: s2 :: src))
  = Some (s0 :: s1 :: s2 :: out).
Proof.
  intros IH. cbn [base64.Encode app].
  pose proof (b2z_range s0). pose proof (b2z_range s1).
  pose proof (b2z_range s2).
  set (val := Z.lor (Z.lor (b2z s0 ≪ 16) (b2z s1 ≪ 8)) (b2z s2)).
  assert (Hval : val = b2z s0 * 65536 + b2z s1 * 256 + b2z s2)
    by by apply group.
  cbn [base64.Decode].
  enc_facts (Z.land (val ≫ 18) 0x3F). enc_facts (Z.land (val ≫ 12) 0x3F).
  enc_facts (Z.land (val ≫ 6) 0x3F).
  pose proof (enc_spec (Z.land val 0x3F)) as (? & ? & ?);
    [rewrite land_maskx; zlia|].
  repeat match goal with H : base64.decodeMap _ = _ |- _ => rewrite H end.
  repeat match goal with H : byte_eqb _ _ = _ |- _ => rewrite H end.
  cbn [mbind option_bind]. rewrite IH. cbn [mbind option_bind].
  rewrite quantum by (apply sextet || (rewrite land_maskx; zlia)).
  rewrite !land_maskx, !shiftr_div by lia.
  change (2 ^ 18) with 262144. change (2 ^ 12) with 4096.
  change (2 ^ 6) with 64. change (2 ^ 16) with 65536. change (2 ^ 8) with 256.
  rewrite sextets by lia.
  rewrite Hval. f_equal. cbn [app]. bytes_eq_mod.
Qed.

Lemma Decode_Encode2 s0 s1 :
  base64.Decode (base64.Encode [s0; s1]) = Some [s0; s1].
Proof.
  cbn [base64.Encode].
  pose proof (b2z_range s0). pose proof (b2z_range s1).
  set (val := Z.lor (b2z s0 ≪ 16) (b2z s1 ≪ 8)).
  assert (Hval : val = b2z s0 * 65536 + b2z s1 * 256).
  { subst val. rewrite !shiftl_mul by lia.
    change (2 ^ 16) with 65536. change (2 ^ 8) with 256.
    rewrite (lor_add' 16 (b2z s0 * 65536)); [|lia|lia|zlia]. done. }
  cbn [base64.Decode].
  enc_facts (Z.land (val ≫ 18) 0x3F). enc_facts (Z.land (val ≫ 12) 0x3F).
  enc_facts (Z.land (val ≫ 6) 0x3F).
  repeat match goal with H : base64.decodeMap _ = _ |- _ => rewrite H end.
  repeat match goal with H : byte_eqb _ _ = _ |- _ => rewrite H end.
  cbn [mbind option_bind].
  change (byte_eqb base64.StdPadding base64.StdPadding) with true. cbv iota.
  pose proof (quantum (Z.land (val ≫ 18) 63) (Z.land (val ≫ 12) 63)
                (Z.land (val ≫ 6) 63) 0) as Hq.
  rewrite Z.lor_0_r in Hq. rewrite Hq by (apply sextet || lia).
  rewrite !land_maskx, !shiftr_div by lia.
  change (2 ^ 18) with 262144. change (2 ^ 12) with 4096.
  change (2 ^ 6) with 64. change (2 ^ 16) with 65536. change (2 ^ 8) with 256.
  rewrite Z.add_0_r.
  replace ((val / 262144) mod 64 * 262144 + (val / 4096) mod 64 * 4096
           + (val / 64) mod 64 * 64) with val by (rewrite Hval; zlia).
  rewrite Hval. f_equal. bytes_eq_mod.
Qed.

Lemma Decode_Encode1 s0 : base64.Decode (base64.Encode [s0]) = Some [s0].
Proof.
  cbn [base64.Encode].
  pose proof (b2z_range s0).
  set (val := b2z s0 ≪ 16).
  assert (Hval : val = b2z s0 * 65536).
  { subst val. by rewrite !shiftl_mul by lia. }
  cbn [base64.Decode].
  enc_facts (Z.land (val ≫ 18) 0x3F). enc_facts (Z.land (val ≫ 12) 0x3F).
  repeat match goal with H : base64.decodeMap _ = _ |- _ => rewrite H end.
  cbn [mbind option_bind].
  change (byte_eqb base64.StdPadding base64.StdPadding) with true. cbv iota.
  pose proof (quantum (Z.land (val ≫ 18) 63) (Z.land (val ≫ 12) 63) 0 0) as Hq.
  rewrite Z.shiftl_0_l, !Z.lor_0_r in Hq. rewrite Hq by (apply sextet || lia).
  rewrite !land_maskx, !shiftr_div by lia.
  change (2 ^ 18) with 262144. change (2 ^ 12) with 4096.
  change (2 ^ 16) with 65536.
  rewrite Z.mul_0_l, !Z.add_0_r.
  replace ((val / 262144) mod 64 * 262144 + (val / 4096) mod 64 * 4096)
    with val by (rewrite Hval; zlia).
  rewrite Hval. f_equal. bytes_eq_mod.
Qed.

Lemma list_ind3 {A} (P : list A → Prop) :
  P [] → (∀ a, P [a]) → (∀ a b, P [a; b]) →
  (∀ a b c l, P l → P (a :: b :: c :: l)) → ∀ l, P l.
Proof.
  intros H0 H1 H2 H3.
  fix IH 1. intros [|a [|b [|c l]]]; [exact H0|apply H1|apply H2|apply H3, IH].
Qed.

Lemma Decode_Encode p : base64.Decode (base64.Encode p) = Some p.
Proof.
  induction p as [|a|a b|a b c l IH] using list_ind3.
  - reflexivity.
  - apply Decode_Encode1.
  - apply Decode_Encode2.
  - by apply Decode_Encode3.
Qed.

Lemma Encode_safe p : Forall (λ b, json.htmlSafeSet b = true) (base64.Encode p).
Proof.
  induction p as [|a|a b|a b c l IH] using list_ind3; cbn [base64.Encode].
  - constructor.
  - repeat constructor; apply enc_spec, sextet.
  - repeat constructor; apply enc_spec, sextet.
  - apply Forall_app. split; [|done].
    repeat constructor; apply enc_spec; apply sextet || (rewrite land_maskx; zlia).
Qed.

(** ** json: [Unmarshal] after [Marshal] *)

Lemma byte_eqb_refl c : byte_eqb c c = true.
Proof. rewrite byte_eqb_spec. by apply bool_decide_eq_true_2. Qed.

Lemma expect_app lit s : json.expect lit (lit ++ s) = Some s.
Proof.
  induction lit as [|c lit IH]; simpl; [by destruct s|].
  by rewrite byte_eqb_refl.
Qed.

Lemma expect_app2 a b s : json.expect (a ++ b) (a ++ b ++ s) = Some s.
Proof. rewrite app_assoc. apply expect_app. Qed.

Lemma expect_Some lit s rest : json.expect lit s = Some rest → s = lit ++ rest.
Proof.
  revert s. induction lit as [|c lit IH]; intros s; simpl.
  - destruct s; by intros [= ->].
  - destruct s as [|c' s]; [done|].
    rewrite byte_eqb_spec. case_bool_decide; [|done]. subst c'.
    intros H. by rewrite (IH _ H).
Qed.

Lemma literalBytes_encodeByteSlice p rest :
  json.literalBytes (json.encodeByteSlice p ++ rest) = Some (p, rest).
Proof.
  unfold json.literalBytes, json.encodeByteSlice. destruct p as [p|].
  - change (json.expect (bytes "null") ((x22 :: base64.Encode p ++ [x22]) ++ rest))
      with (@None (list byte)).
    rewrite <- app_comm_cons, <- app_assoc. cbn [app].
    rewrite unquote_safe by apply Encode_safe. cbn.
    by rewrite Decode_Encode.
  - by rewrite expect_app.
Qed.

Lemma literalBool_boolEncoder b rest :
  json.literalBool (json.boolEncoder b ++ rest) = Some (b, rest).
Proof. by destruct b. Qed.

Lemma objectUser_structEncoder u rest :
  int_ok (ID u) →
  json.objectUser (json.structEncoder u ++ rest) = Some (coerceUser u, rest).
Proof.
  intros Hid. unfold json.objectUser, json.structEncoder.
  rewrite <- !app_assoc.
  rewrite expect_app2. cbn [mbind option_bind].
  rewrite unquote_appendString. cbn [mbind option_bind].
  rewrite expect_app2. cbn [mbind option_bind].
  rewrite literalInt_FormatInt; [|done|by intros c tl [= <- _]].
  cbn [mbind option_bind].
  rewrite expect_app2. cbn [mbind option_bind].
  rewrite literalBytes_encodeByteSlice. cbn [mbind option_bind].
  rewrite expect_app2. cbn [mbind option_bind].
  rewrite unquote_appendString. cbn [mbind option_bind].
  rewrite expect_app2. cbn [mbind option_bind].
  rewrite literalBool_boolEncoder. cbn [mbind option_bind].
  rewrite expect_app. done.
Qed.

(** What [objectUser] decodes has its ID in range and valid strings. *)
Lemma objectUser_ok s u rest :
  json.objectUser s = Some (u, rest) →
  int_ok (ID u) ∧ utf8.ValidString (Email u) = true
  ∧ utf8.ValidString (RefreshToken u) = true.
Proof.
  unfold json.objectUser. intros H.
  apply bind_Some in H as (s1 & _ & H).
  apply bind_Some in H as ([email s2] & Hemail & H).
  apply bind_Some in H as (s3 & _ & H).
  apply bind_Some in H as ([id s4] & Hid & H).
  apply bind_Some in H as (s5 & _ & H).
  apply bind_Some in H as ([password s6] & _ & H).
  apply bind_Some in H as (s7 & _ & H).
  apply bind_Some in H as ([token s8] & Htoken & H).
  apply bind_Some in H as (s9 & _ & H).
  apply bind_Some in H as ([red s10] & _ & H).
  apply bind_Some in H as (s11 & _ & H).
  injection H as <- <-. cbn [ID Email RefreshToken].
  split_and!; [eapply literalInt_int_ok|eapply unquote_valid..]; eassumption.
Qed.

(** *** The entries of the map *)

Lemma encodeEntries_pos i sv :
  (0 < i)%nat → json.encodeEntries i sv = json.encodeEntries 1 sv.
Proof.
  revert i. induction sv as [|[ks v] sv IH]; intros i Hi; [done|].
  cbn [json.encodeEntries].
  replace (0 <? i)%nat with true by (symmetry; apply Nat.ltb_lt; lia).
  replace (0 <? 1)%nat with true by done.
  by rewrite (IH (S i)), (IH 2%nat) by lia.
Qed.

Lemma encodeEntries_cons i k v l :
  json.encodeEntries i (keyed <$> (k, v) :: l)
  = (if (0 <? i)%nat then bytes "," else []) ++ entry k v
    ++ json.encodeEntries 1 (keyed <$> l).
Proof.
  cbn [fmap list_fmap json.encodeEntries keyed fst snd]. unfold entry.
  rewrite (encodeEntries_pos (S i)) by lia. by rewrite <- !app_assoc.
Qed.

Lemma encodeEntries_length i sv :
  (length sv <= length (json.encodeEntries i sv))%nat.
Proof.
  revert i. induction sv as [|[ks v] sv IH]; intros i; [done|].
  cbn [json.encodeEntries]. rewrite !length_app.
  specialize (IH (S i)). unfold json.appendString. simpl. lia.
Qed.

Lemma unquote_FormatInt k X :
  json.unquote (json.appendString (strconv.FormatInt k) ++ X)
  = Some (strconv.FormatInt k, X).
Proof.
  rewrite unquote_appendString, coerce_valid; [done|].
  apply Valid_all_ascii, FormatInt_ascii.
Qed.

Lemma objectEntries_encodeEntries l : ∀ k v m fuel rest,
  entry_ok (k, v) → Forall entry_ok l → (length l < fuel)%nat →
  json.objectEntries fuel m
    (entry k v ++ json.encodeEntries 1 (keyed <$> l) ++ bytes "}" ++ rest)
  = Some (foldl store (store m (k, v)) l, rest).
Proof.
  induction l as [|[k' v'] l IH]; intros k v m fuel rest [Hk Hv] Hl Hf;
    (destruct fuel as [|fuel]; [simpl in Hf; lia|]);
    cbn [json.objectEntries]; unfold entry; rewrite <- !app_assoc;
    rewrite unquote_FormatInt; cbn [mbind option_bind];
    rewrite ParseInt_FormatInt by done; cbn [mbind option_bind];
    rewrite expect_app; cbn [mbind option_bind];
    rewrite objectUser_structEncoder by done; cbn [mbind option_bind].
  - done.
  - apply Forall_cons in Hl as [Hkv Hl].
    rewrite encodeEntries_cons. cbn [Nat.ltb Nat.leb].
    change (bytes ",") with [x2c]. cbn [app].
    change (byte_eqb x2c x2c) with true. cbv iota.
    rewrite <- app_assoc.
    rewrite IH; [done|done|done|simpl in Hf; lia].
Qed.

Lemma fmap_Permutation_inv {A B} (f : A → B) (l : list A) (k : list B) :
  f <$> l ≡ₚ k → ∃ l', k = f <$> l' ∧ l ≡ₚ l'.
Proof.
  intros H. symmetry in H.
  change (f <$> l) with (map f l) in H.
  apply Permutation_map_inv in H as (l' & -> & H). eauto.
Qed.

Lemma foldl_store (l : list (Z * User)) :
  foldl store ∅ l = list_to_map (reverse (prod_map id coerceUser <$> l)).
Proof.
  induction l as [|x l IH] using rev_ind; [done|].
  rewrite foldl_app, fmap_app, reverse_app. cbn. by rewrite IH.
Qed.

Lemma foldl_store_map (m : gmap Z User) (l : list (Z * User)) :
  map_to_list m ≡ₚ l → foldl store ∅ l = coerceUser <$> m.
Proof.
  intros H. rewrite foldl_store.
  rewrite <- (list_to_map_to_list (coerceUser <$> m)).
  assert (Hp : reverse (prod_map id coerceUser <$> l)
               ≡ₚ map_to_list (coerceUser <$> m)).
  { rewrite reverse_Permutation, map_to_list_fmap. by rewrite H. }
  apply list_to_map_proper; [|done].
  rewrite Hp. apply NoDup_fst_map_to_list.
Qed.

Lemma ints_ok_entries (m : gmap Z User) (l : list (Z * User)) :
  ints_ok (mkDB (Some m)) → map_to_list m ≡ₚ l → Forall entry_ok l.
Proof.
  intros Hm Hp. apply Forall_forall. intros [k u] Hin.
  rewrite <- Hp in Hin. apply elem_of_map_to_list in Hin.
  apply (Hm k u Hin).
Qed.

Lemma valueMap_mapEncoder m rest :
  ints_ok (mkDB m) →
  json.valueMap (json.mapEncoder m ++ bytes "}" ++ rest)
  = Some (fmap (M := gmap Z) coerceUser <$> m, bytes "}" ++ rest).
Proof.
  intros Hm. unfold json.valueMap, json.mapEncoder.
  destruct m as [m|]; [|by rewrite expect_app].
  cbv zeta. set (sv := merge_sort _ _).
  assert (∃ l, sv = keyed <$> l ∧ map_to_list m ≡ₚ l) as (l & Hl & Hp).
  { apply fmap_Permutation_inv. subst sv.
    rewrite merge_sort_Permutation. reflexivity. }
  rewrite Hl. clear sv Hl. pose proof (ints_ok_entries m l Hm Hp) as Hok.
  change (json.expect (bytes "null") ((bytes "{" ++ ?x) ++ ?y))
    with (@None (list byte)).
  rewrite <- !app_assoc, expect_app. cbn [mbind option_bind].
  destruct l as [|[k v] l].
  - apply Permutation_nil_r, map_to_list_empty_iff in Hp. subst m.
    cbn [fmap list_fmap json.encodeEntries app].
    rewrite expect_app.
    change (Some (Some (∅ : gmap Z User), bytes "}" ++ rest)
            = Some (Some (coerceUser <$> (∅ : gmap Z User)), bytes "}" ++ rest)).
    by rewrite fmap_empty.
  - apply Forall_cons in Hok as [Hkv Hok].
    rewrite encodeEntries_cons. cbn [Nat.ltb Nat.leb app].
    rewrite <- !app_assoc.
    change (json.expect (bytes "}") (entry k v ++ ?x)) with (@None (list byte)).
    rewrite objectEntries_encodeEntries; [|done|done|].
    + change (foldl store (store ∅ (k, v)) l) with (foldl store ∅ ((k, v) :: l)).
      by rewrite (foldl_store_map m).
    + pose proof (encodeEntries_length 1 (keyed <$> l)) as H.
      rewrite length_fmap in H.
      unfold entry, json.appendString. rewrite !length_app.
      cbn [length app]. lia.
Qed.

Lemma Unmarshal_Marshal d :
  ints_ok d → json.Unmarshal (json.Marshal d) = Some (coerceDB d).
Proof.
  intros Hd. unfold json.Unmarshal, json.Marshal. destruct d as [m].
  cbn [Users]. rewrite expect_app2. cbn [mbind option_bind].
  rewrite <- (app_nil_r (bytes "}")).
  rewrite valueMap_mapEncoder by done. cbn [mbind option_bind].
  rewrite expect_app. done.
Qed.

(** *** What [Unmarshal] returns *)

Lemma objectEntries_ok fuel : ∀ m s m' rest,
  map_Forall user_ok m →
  json.objectEntries fuel m s = Some (m', rest) → map_Forall user_ok m'.
Proof.
  induction fuel as [|fuel IH]; intros m s m' rest Hm; [done|].
  cbn [json.objectEntries]. intros H.
  apply bind_Some in H as ([ks s1] & _ & H).
  apply bind_Some in H as (k & Hk & H).
  apply bind_Some in H as (s2 & _ & H).
  apply bind_Some in H as ([v s3] & Hv & H).
  assert (Hm' : map_Forall user_ok (<[k := v]> m)).
  { apply map_Forall_insert_2; [|done].
    split; [eapply ParseInt_int_ok, Hk|eapply objectUser_ok, Hv]. }
  destruct s3 as [|c s']; [done|].
  destruct (byte_eqb c x2c); [by eapply IH|].
  destruct (byte_eqb c x7d); [|done]. by injection H as <- <-.
Qed.

Lemma Unmarshal_ok data d :
  json.Unmarshal data = Some d → ints_ok d ∧ strings_valid d.
Proof.
  unfold json.Unmarshal. intros H.
  apply bind_Some in H as (s1 & _ & H).
  apply bind_Some in H as ([m s2] & Hm & H).
  apply bind_Some in H as (s3 & _ & H).
  destruct s3; [|done]. injection H as <-.
  assert (Hall : map_Forall user_ok (entries m)).
  { unfold json.valueMap in Hm.
    destruct (json.expect (bytes "null") s1).
    { injection Hm as <- <-. apply map_Forall_empty. }
    apply bind_Some in Hm as (s4 & _ & Hm).
    destruct (json.expect (bytes "}") s4).
    { injection Hm as <- <-. intros k u Hku.
      change (entries (Some ∅)) with (∅ : gmap Z User) in Hku.
      by rewrite lookup_empty in Hku. }
    apply bind_Some in Hm as ([m' s5] & Hm' & Hm). injection Hm as <- <-.
    eapply objectEntries_ok, Hm'. apply map_Forall_empty. }
  split; intros k u Hku; destruct (Hall k u Hku) as (? & ? & ? & ?); done.
Qed.

Lemma coerceUser_valid u :
  utf8.ValidString (Email u) = true → utf8.ValidString (RefreshToken u) = true →
  coerceUser u = u.
Proof.
  intros He Ht. destruct u as [e i p t r]. unfold coerceUser.
  cbn [Email ID Password RefreshToken IsChirpyRed] in *.
  by rewrite !coerce_valid.
Qed.

Lemma coerceDB_valid d : strings_valid d → coerceDB d = d.
Proof.
  destruct d as [[m|]]; [|done]. intros Hd. unfold coerceDB. cbn. do 2 f_equal.
  apply map_eq. intros k. rewrite lookup_fmap.
  destruct (m !! k) as [u|] eqn:E; [|done]. cbn. f_equal.
  destruct (Hd k u E). by apply coerceUser_valid.
Qed.

Lemma entries_coerceDB d :
  entries (Users (coerceDB d)) = coerceUser <$> entries (Users d).
Proof. destruct d as [[m|]]; [done|]. cbn. by rewrite fmap_empty. Qed.

(** A document can be written and read back when its integers are Go
    [int]s; documents that were read are of that kind, and their strings
    are valid. *)
Lemma Unmarshal_Marshal_valid d :
  ints_ok d → strings_valid d → json.Unmarshal (json.Marshal d) = Some d.
Proof. intros. by rewrite Unmarshal_Marshal, coerceDB_valid. Qed.

(** ** The store *)

Ltac unfold_M :=
  unfold loadUserDB, writeUserDB, ReadFile, WriteFile, assign, fail, panic,
    mbind, M_bind, mret, M_ret in *.

Lemma document_Some fs d :
  document fs = Ok d ↔ ∃ data, fs = Some data ∧ json.Unmarshal data = Some d.
Proof.
  unfold document. unfold_M. split.
  - destruct fs as [data|]; [|done].
    destruct (json.Unmarshal data) as [d'|] eqn:E; [|done].
    intros [= <-]. eauto.
  - intros (data & -> & H). by rewrite H.
Qed.

Lemma loadUserDB_document fs d : document fs = Ok d → loadUserDB fs = (Ok d, fs).
Proof.
  intros (data & -> & H)%document_Some.
  unfold_M. by rewrite H.
Qed.

Lemma document_ok fs d : document fs = Ok d → ints_ok d ∧ strings_valid d.
Proof. intros (data & -> & H)%document_Some. eapply Unmarshal_ok, H. Qed.

Lemma document_Marshal d :
  ints_ok d → document (Some (json.Marshal d)) = Ok (coerceDB d).
Proof.
  intros H. apply document_Some. eexists. split; [done|].
  by apply Unmarshal_Marshal.
Qed.

(** Writing back a document that was read leaves the document as it was. *)
Lemma document_rewrite fs d :
  document fs = Ok d → document (Some (json.Marshal d)) = Ok d.
Proof.
  intros [Hi Hs]%document_ok. by rewrite document_Marshal, coerceDB_valid.
Qed.

Lemma comma_ok_Some m id u :
  comma_ok m id = Some u → ∃ m', m = Some m' ∧ m' !! id = Some u.
Proof. destruct m as [m'|]; [|done]. cbn. eauto. Qed.

Lemma comma_ok_entries m id : comma_ok m id = entries m !! id.
Proof. destruct m; [done|]. cbn. by rewrite lookup_empty. Qed.

Lemma int_ok_wrap_int z : int_ok (wrap_int z).
Proof. unfold int_ok, wrap_int. zlia. Qed.

Lemma wrap_int_small z : int_ok z → wrap_int z = z.
Proof. unfold int_ok, wrap_int. intros. zlia. Qed.

Lemma ints_ok_insert m k u :
  ints_ok (mkDB (Some m)) → int_ok k → int_ok (ID u) →
  ints_ok (mkDB (Some (<[k := u]> m))).
Proof.
  intros Hm Hk Hu k' u'. cbn. rewrite lookup_insert.
  case_decide; [intros [= <-]; by subst|]. apply (Hm k' u').
Qed.

Lemma strings_valid_insert m k u :
  strings_valid (mkDB (Some m)) →
  utf8.ValidString (Email u) = true → utf8.ValidString (RefreshToken u) = true →
  strings_valid (mkDB (Some (<[k := u]> m))).
Proof.
  intros Hm He Ht k' u'. cbn. rewrite lookup_insert.
  case_decide; [intros [= <-]; by subst|]. apply (Hm k' u').
Qed.

Lemma keyed_insert m k u :
  keyed_by_ID (mkDB (Some m)) → ID u = k →
  keyed_by_ID (mkDB (Some (<[k := u]> m))).
Proof.
  intros Hm Hu k' u'. cbn. rewrite lookup_insert.
  case_decide; [intros [= <-]; by subst|]. apply (Hm k' u').
Qed.

Lemma keyed_coerceDB d : keyed_by_ID d → keyed_by_ID (coerceDB d).
Proof.
  intros Hd k u. rewrite entries_coerceDB, lookup_fmap.
  destruct (entries (Users d) !! k) as [u'|] eqn:E; [|done].
  intros [= <-]. apply (Hd k u' E).
Qed.

(** The document after a record was set that differs from a valid one in
    its email only. *)
Lemma coerceDB_insert m k u :
  strings_valid (mkDB (Some m)) →
  coerceDB (mkDB (Some (<[k := u]> m)))
  = mkDB (Some (<[k := coerceUser u]> m)).
Proof.
  intros Hm. unfold coerceDB. cbn [Users fmap option_fmap option_map].
  do 2 f_equal. rewrite fmap_insert. f_equal.
  change (coerceUser <$> m) with (entries (Users (coerceDB (mkDB (Some m))))).
  by rewrite coerceDB_valid.
Qed.

(** *** One call on a store whose document is known *)

Lemma foldl_snoc {A B} (f : A → B) (l : list A) (acc : list B) :
  foldl (λ users kv, users ++ [f kv]) acc l = acc ++ (f <$> l).
Proof.
  revert acc. induction l as [|x l IH]; intros acc; cbn.
  - by rewrite app_nil_r.
  - by rewrite IH, <- app_assoc.
Qed.

Section known_document.

Context (fs : file) (d : DBUserStructure) (Hd : document fs = Ok d).

(** Run the first step of a call, [loadUserDB], on the known document. *)
Ltac load_known :=
  unfold mbind at 1, M_bind; rewrite (loadUserDB_document _ _ Hd).

Lemma CreateUser_run m body password :
  Users d = Some m →
  let nextID := wrap_int (len (Some m) + 1) in
  let u := mkUser body nextID password [] false in
  CreateUser body password fs
  = (Ok u, Some (json.Marshal (mkDB (Some (<[nextID := u]> m))))).
Proof.
  intros Hm. unfold CreateUser. load_known.
  unfold_M. rewrite Hm. cbn [Users].
  unfold index, comma_ok. cbn [mbind option_bind].
  by rewrite lookup_insert_eq.
Qed.

Lemma CreateUser_nil body password :
  Users d = None → CreateUser body password fs = (Panic, fs).
Proof.
  intros Hm. unfold CreateUser. load_known. unfold_M. by rewrite Hm.
Qed.

Lemma UpdateUserDB_present m id user body password :
  Users d = Some m → m !! id = Some user →
  let u := mkUser body (ID user) password (RefreshToken user)
                  (IsChirpyRed user) in
  UpdateUserDB id body password fs
  = (Ok u, Some (json.Marshal (mkDB (Some (<[id := u]> m))))).
Proof.
  intros Hm Hu. unfold UpdateUserDB. load_known.
  unfold comma_ok. rewrite Hm. cbn [mbind option_bind]. rewrite Hu.
  unfold_M. rewrite Hm. cbn [Users].
  unfold index, comma_ok. cbn [mbind option_bind].
  by rewrite lookup_insert_eq.
Qed.

Lemma UpdateUserDB_absent id body password :
  comma_ok (Users d) id = None →
  UpdateUserDB id body password fs = (Ok User_zero, Some (json.Marshal d)).
Proof.
  intros Hu. unfold UpdateUserDB. load_known.
  rewrite Hu. unfold_M. unfold index. by rewrite Hu.
Qed.

Lemma UpgradeUser_present m id user :
  Users d = Some m → m !! id = Some user →
  let u := mkUser (Email user) (ID user) (Password user)
                  (RefreshToken user) true in
  UpgradeUser id fs
  = (Ok (), Some (json.Marshal (mkDB (Some (<[id := u]> m))))).
Proof.
  intros Hm Hu. unfold UpgradeUser. load_known.
  unfold comma_ok. rewrite Hm. cbn [mbind option_bind]. rewrite Hu.
  unfold_M. by rewrite Hm.
Qed.

Lemma UpgradeUser_absent id :
  comma_ok (Users d) id = None →
  UpgradeUser id fs = (Err ErrInvalidUserID, fs).
Proof.
  intros Hu. unfold UpgradeUser. load_known. rewrite Hu. by unfold_M.
Qed.

Lemma StoreToken_present m id user token :
  Users d = Some m → m !! id = Some user →
  let u := mkUser (Email user) (ID user) (Password user) token
                  (IsChirpyRed user) in
  StoreToken id token fs
  = (Ok (), Some (json.Marshal (mkDB (Some (<[id := u]> m))))).
Proof.
  intros Hm Hu. unfold StoreToken. load_known.
  unfold comma_ok. rewrite Hm. cbn [mbind option_bind]. rewrite Hu.
  unfold_M. by rewrite Hm.
Qed.

Lemma StoreToken_absent id token :
  comma_ok (Users d) id = None →
  StoreToken id token fs = (Ok (), Some (json.Marshal d)).
Proof.
  intros Hu. unfold StoreToken. load_known. rewrite Hu. by unfold_M.
Qed.

Lemma RevokeToken_present m id user :
  Users d = Some m → m !! id = Some user →
  let u := mkUser (Email user) (ID user) (Password user) []
                  (IsChirpyRed user) in
  RevokeToken id fs
  = (Ok (), Some (json.Marshal (mkDB (Some (<[id := u]> m))))).
Proof.
  intros Hm Hu. unfold RevokeToken. load_known.
  unfold comma_ok. rewrite Hm. cbn [mbind option_bind]. rewrite Hu.
  unfold_M. by rewrite Hm.
Qed.

Lemma RevokeToken_absent id :
  comma_ok (Users d) id = None →
  RevokeToken id fs = (Ok (), Some (json.Marshal d)).
Proof.
  intros Hu. unfold RevokeToken. load_known. rewrite Hu. by unfold_M.
Qed.

Lemma GetUser_run range_ :
  GetUser range_ fs
  = (Ok (merge_sort ID_le (range_ (entries (Users d))).*2), fs).
Proof.
  unfold GetUser. load_known.
  unfold mret, M_ret. by rewrite (foldl_snoc snd).
Qed.

End known_document.

(** A store without a document: the call fails before it writes. *)
Lemma CreateUser_fails fs body password :
  (∀ d, document fs ≠ Ok d) →
  ∃ e, CreateUser body password fs = (Err e, fs).
Proof.
  intros Hd. unfold CreateUser, document in *. unfold_M.
  destruct fs as [data|]; [|by eauto].
  destruct (json.Unmarshal data) as [d|]; [|by eauto].
  by destruct (Hd d).
Qed.

Lemma empty_store_eq : empty_store = Some (json.Marshal (mkDB (Some ∅))).
Proof. reflexivity. Qed.

Lemma document_empty_store : document empty_store = Ok (mkDB (Some ∅)).
Proof. reflexivity. Qed.

(** *** Listing *)

#[local] Instance ID_le_total : Total ID_le.
Proof. intros u v. unfold ID_le. lia. Qed.

#[local] Instance ID_le_trans : Transitive ID_le.
Proof. intros u v w. unfold ID_le. lia. Qed.

Lemma GetUserByID_run fs range_ id users :
  GetUser range_ fs = (Ok users, fs) →
  GetUserByID range_ id fs =
    if (Z.of_nat (length users) <? id) || (id <=? 0)
    then (Err ErrInvalidID, fs)
    else match users !! Z.to_nat (id - 1) with
         | Some u => (Ok u, fs)
         | None => (Panic, fs)
         end.
Proof.
  intros H. unfold GetUserByID. unfold mbind, M_bind. rewrite H.
  destruct ((Z.of_nat (length users) <? id) || (id <=? 0)); [done|].
  by destruct (users !! Z.to_nat (id - 1)).
Qed.

Lemma elem_of_values (m : gmap Z User) (l : list User) (u : User) :
  l ≡ₚ (map_to_list m).*2 → u ∈ l → ∃ k, m !! k = Some u.
Proof.
  intros Hl Hu. rewrite Hl in Hu.
  apply list_elem_of_fmap in Hu as ([k u'] & -> & Hin).
  exists k. by apply elem_of_map_to_list.
Qed.

(** C6. [GetUser] returns the records of the document, each once, in
    ascending order of their IDs, in whatever order the [range] loop
    visits the map.  The sequence of IDs that it returns is the same for
    every such order, and so is the sequence of records when every record
    is stored under its ID. *)
Theorem GetUser_sorted fs d range_ :
  document fs = Ok d →
  (∀ m, range_ m ≡ₚ map_to_list m) →
  ∃ users,
    GetUser range_ fs = (Ok users, fs)
    ∧ Sorted ID_le users
    ∧ users ≡ₚ (map_to_list (entries (Users d))).*2
    ∧ ∀ range', (∀ m, range' m ≡ₚ map_to_list m) →
        ∃ users', GetUser range' fs = (Ok users', fs)
                  ∧ ID <$> users' = ID <$> users
                  ∧ (keyed_by_ID d → users' = users).
Proof.
  intros Hd Hr. eexists. split; [by apply GetUser_run|].
  split; [apply Sorted_merge_sort, _|].
  split; [by rewrite merge_sort_Permutation, Hr|].
  intros range' Hr'. eexists. split; [by apply GetUser_run|].
  set (m := entries (Users d)).
  assert (Hp : merge_sort ID_le (range_ m).*2 ≡ₚ (map_to_list m).*2)
    by by rewrite merge_sort_Permutation, Hr.
  assert (Hp' : merge_sort ID_le (range' m).*2 ≡ₚ (map_to_list m).*2)
    by by rewrite merge_sort_Permutation, Hr'.
  split.
  - apply (Sorted_unique Z.le).
    + apply (Sorted_fmap _ ID_le); [done|]. apply Sorted_merge_sort, _.
    + apply (Sorted_fmap _ ID_le); [done|]. apply Sorted_merge_sort, _.
    + by rewrite Hp, Hp'.
  - intros Hk. apply (Sorted_unique_strong ID_le).
    + intros x1 x2 H1 H2 H12 H21.
      destruct (elem_of_values m _ x1 Hp' H1) as [k1 Hk1].
      destruct (elem_of_values m _ x2 Hp H2) as [k2 Hk2].
      pose proof (Hk k1 x1 Hk1). pose proof (Hk k2 x2 Hk2).
      unfold ID_le in *. assert (k1 = k2) as -> by lia. congruence.
    + apply Sorted_merge_sort, _.
    + apply Sorted_merge_sort, _.
    + by rewrite Hp, Hp'.
Qed.

(** C2. On a store whose document holds N records, [GetUser] returns
    these N records in ascending order of their IDs, and [GetUserByID id]
    returns, for every [id] with [1 <= id <= N], the record at position
    [id - 1] of that sequence, and fails with the error "invalid ID" for
    every [id <= 0] and every [id > N]. *)
Theorem GetUserByID_position fs d range_ :
  document fs = Ok d →
  (∀ m, range_ m ≡ₚ map_to_list m) →
  let N := Z.of_nat (size (entries (Users d))) in
  ∃ users,
    GetUser range_ fs = (Ok users, fs)
    ∧ Sorted ID_le users
    ∧ users ≡ₚ (map_to_list (entries (Users d))).*2
    ∧ Z.of_nat (length users) = N
    ∧ (∀ id, 1 <= id <= N →
         ∃ u, users !! Z.to_nat (id - 1) = Some u
              ∧ GetUserByID range_ id fs = (Ok u, fs))
    ∧ (∀ id, id <= 0 ∨ N < id →
         GetUserByID range_ id fs = (Err ErrInvalidID, fs)).
Proof.
  intros Hd Hr N. pose proof (GetUser_run fs d Hd range_) as Hg.
  eexists. split; [exact Hg|].
  split; [apply Sorted_merge_sort, _|].
  split; [by rewrite merge_sort_Permutation, Hr|].
  set (users := merge_sort ID_le _) in *.
  assert (Hlen : Z.of_nat (length users) = N).
  { subst users N. rewrite merge_sort_Permutation, length_fmap, Hr.
    by rewrite length_map_to_list. }
  split; [done|]. split.
  - intros id Hid. rewrite (GetUserByID_run _ _ _ _ Hg), Hlen.
    destruct (lookup_lt_is_Some_2 users (Z.to_nat (id - 1))) as [u Hu]; [lia|].
    exists u. split; [done|]. rewrite Hu.
    replace (N <? id) with false by (symmetry; apply Z.ltb_ge; lia).
    replace (id <=? 0) with false by (symmetry; apply Z.leb_gt; lia).
    done.
  - intros id Hid. rewrite (GetUserByID_run _ _ _ _ Hg), Hlen.
    destruct (N <? id) eqn:E1; [done|]. destruct (id <=? 0) eqn:E2; [done|].
    bool2prop. lia.
Qed.

(** C3. For an ID that is absent from the document, [UpdateUserDB],
    [StoreToken] and [RevokeToken] report no error and write the file
    again with the document that they read, so that the document of the
    store is unchanged; [UpdateUserDB] returns the zero [User]. *)
Theorem absent_id_noop fs d id body password token :
  document fs = Ok d →
  comma_ok (Users d) id = None →
  UpdateUserDB id body password fs = (Ok User_zero, Some (json.Marshal d))
  ∧ StoreToken id token fs = (Ok (), Some (json.Marshal d))
  ∧ RevokeToken id fs = (Ok (), Some (json.Marshal d))
  ∧ document (Some (json.Marshal d)) = Ok d.
Proof.
  intros Hd Hid. split_and!.
  - by apply UpdateUserDB_absent.
  - by apply StoreToken_absent.
  - by apply RevokeToken_absent.
  - by eapply document_rewrite.
Qed.

(** C4. For an ID that is present in the document, [UpdateUserDB id e p]
    sets the email of that record to [e] and its password to [p], keeps
    its ID, refresh token and upgrade flag, leaves every other record as
    it is, writes the document and returns the record it has set.  In the
    document read back from the file the email is [e] coerced to valid
    UTF-8, which is [e] itself when [e] is valid. *)
Theorem UpdateUserDB_frame fs d id user e p :
  document fs = Ok d →
  comma_ok (Users d) id = Some user →
  ∃ m u fs',
    Users d = Some m
    ∧ UpdateUserDB id e p fs = (Ok u, fs')
    ∧ fs' = Some (json.Marshal (mkDB (Some (<[id := u]> m))))
    ∧ Email u = e ∧ Password u = p
    ∧ ID u = ID user ∧ RefreshToken u = RefreshToken user
    ∧ IsChirpyRed u = IsChirpyRed user
    ∧ (∀ j, j ≠ id → <[id := u]> m !! j = m !! j)
    ∧ document fs' = Ok (mkDB (Some (<[id := coerceUser u]> m)))
    ∧ (utf8.ValidString e = true → coerceUser u = u).
Proof.
  intros Hd (m & Hm & Hu)%comma_ok_Some.
  destruct (document_ok _ _ Hd) as [Hi Hs]. destruct d as [um].
  cbn [Users] in Hm. subst um.
  destruct (Hi id user Hu) as [Hid Huid], (Hs id user Hu) as [_ Htok].
  eexists m, _, _. split; [done|].
  split; [by eapply UpdateUserDB_present|].
  split_and!; try done.
  - intros j Hj. by apply lookup_insert_ne.
  - rewrite document_Marshal by by apply ints_ok_insert.
    by rewrite coerceDB_insert.
  - intros He. by apply coerceUser_valid.
Qed.

(** C5. [UpgradeUser id] on an ID that is present sets the upgrade flag
    of that record and nothing else, and a second call leaves the file as
    the first one wrote it; on an ID that is absent it fails with the
    error "invalid user id" and does not touch the file. *)
Theorem UpgradeUser_idempotent fs d id :
  document fs = Ok d →
  (∀ user, comma_ok (Users d) id = Some user →
     let u := mkUser (Email user) (ID user) (Password user)
                     (RefreshToken user) true in
     ∃ m fs',
       Users d = Some m
       ∧ UpgradeUser id fs = (Ok (), fs')
       ∧ document fs' = Ok (mkDB (Some (<[id := u]> m)))
       ∧ UpgradeUser id fs' = (Ok (), fs'))
  ∧ (comma_ok (Users d) id = None →
     UpgradeUser id fs = (Err ErrInvalidUserID, fs)).
Proof.
  intros Hd. split; [|by apply UpgradeUser_absent].
  intros user (m & Hm & Hu)%comma_ok_Some u.
  destruct (document_ok _ _ Hd) as [Hi Hs]. destruct d as [um].
  cbn [Users] in Hm. subst um.
  destruct (Hi id user Hu) as [Hid Huid], (Hs id user Hu) as [Hem Htok].
  assert (Hd' : document (Some (json.Marshal (mkDB (Some (<[id := u]> m)))))
                = Ok (mkDB (Some (<[id := u]> m)))).
  { rewrite document_Marshal by by apply ints_ok_insert.
    rewrite coerceDB_insert by done. by rewrite coerceUser_valid. }
  exists m, (Some (json.Marshal (mkDB (Some (<[id := u]> m))))).
  split; [done|].
  split; [by eapply UpgradeUser_present|]. split; [done|].
  rewrite (UpgradeUser_present _ _ Hd' (<[id := u]> m) id u eq_refl)
    by apply lookup_insert_eq.
  by rewrite insert_insert_eq.
Qed.

(** C10. The record that [CreateUser] creates and returns has the empty
    refresh token and the upgrade flag unset, next to the email and the
    password of the call, and so has the record found under its ID in the
    document afterwards; and [CreateUser] succeeds on every store with a
    map in its document, whatever emails the document holds. *)
Theorem CreateUser_fresh_fields fs body password :
  (∀ u fs', CreateUser body password fs = (Ok u, fs') →
     RefreshToken u = [] ∧ IsChirpyRed u = false
     ∧ Email u = body ∧ Password u = password
     ∧ ∃ d' u', document fs' = Ok d'
                ∧ comma_ok (Users d') (ID u) = Some u'
                ∧ RefreshToken u' = [] ∧ IsChirpyRed u' = false)
  ∧ (∀ d m, document fs = Ok d → Users d = Some m →
       ∃ u fs', CreateUser body password fs = (Ok u, fs')).
Proof.
  split.
  - intros u fs' H.
    destruct (document fs) as [d|e|] eqn:Hd.
    + destruct (Users d) as [m|] eqn:Hm.
      * rewrite (CreateUser_run _ _ Hd _ _ _ Hm) in H. injection H as <- <-.
        split_and!; try done.
        destruct (document_ok _ _ Hd) as [Hi Hs]. destruct d as [um].
        cbn [Users] in Hm. subst um.
        eexists _, _. split.
        { apply document_Marshal, ints_ok_insert;
            [done|apply int_ok_wrap_int..]. }
        cbn [ID]. rewrite comma_ok_entries, entries_coerceDB.
        unfold entries. cbn [Users from_option id].
        rewrite lookup_fmap, lookup_insert_eq. done.
      * by rewrite (CreateUser_nil _ _ Hd _ _ Hm) in H.
    + destruct (CreateUser_fails fs body password) as [e' He'].
      { intros d'. by rewrite Hd. }
      by rewrite He' in H.
    + destruct (CreateUser_fails fs body password) as [e' He'].
      { intros d'. by rewrite Hd. }
      by rewrite He' in H.
  - intros d m Hd Hm. rewrite (CreateUser_run _ _ Hd _ _ _ Hm). eauto.
Qed.

(** *** Round trip *)

Lemma coerce_fixed_valid s : coerceString s = s → utf8.ValidString s = true.
Proof. intros H. rewrite <- H. apply coerce_is_valid. Qed.

Lemma coerceDB_fixed d : coerceDB d = d → strings_valid d.
Proof.
  intros H k u Hu. rewrite <- H, entries_coerceDB, lookup_fmap in Hu.
  destruct (entries (Users d) !! k) as [u'|]; [|done].
  injection Hu as <-. split; apply coerce_is_valid.
Qed.

(** C7, as amended.  A document whose emails and refresh tokens are valid
    UTF-8 is read back from the file as it was written: emails, IDs,
    passwords, refresh tokens, flags and keys.  In general the document
    read back is the one written with these strings coerced to valid
    UTF-8, and it is the one written only if they were valid. *)
Theorem write_load_roundtrip d fs :
  ints_ok d →
  (strings_valid d → document (writeUserDB d fs).2 = Ok d)
  ∧ document (writeUserDB d fs).2 = Ok (coerceDB d)
  ∧ (document (writeUserDB d fs).2 = Ok d → strings_valid d).
Proof.
  intros Hi. change (writeUserDB d fs).2 with (Some (json.Marshal d)).
  rewrite document_Marshal by done. split_and!.
  - intros Hs. by rewrite coerceDB_valid.
  - done.
  - intros [= H]. by apply coerceDB_fixed.
Qed.

(** C7 as stated fails: the email [\xff] is read back as U+FFFD. *)
Lemma roundtrip_loses_invalid_utf8 :
  document (writeUserDB bad_document None).2
  = Ok (mkDB (Some {[ 1 := mkUser [xef; xbf; xbd] 1 None [] false ]}))
  ∧ document (writeUserDB bad_document None).2 ≠ Ok bad_document.
Proof.
  split; [vm_compute; reflexivity|]. vm_compute. intros [=].
Qed.

(** *** Sequences of calls *)

Lemma len_Some m : len (Some m) = Z.of_nat (size m).
Proof. reflexivity. Qed.

Lemma run_snoc cs c fs : run (cs ++ [c]) fs = exec (run cs fs) c.
Proof. unfold run. by rewrite foldl_app. Qed.

(** The store after the calls of [args], made on the empty store. *)
Lemma creates_state (args : list Args) :
  Z.of_nat (length args) < 2 ^ 63 →
  ∃ m, document (run (creates args) empty_store) = Ok (mkDB (Some m))
       ∧ size m = length args
       ∧ (∀ k, is_Some (m !! k) ↔ 1 <= k <= Z.of_nat (length args))
       ∧ (∀ i a, args !! i = Some a →
            m !! (Z.of_nat i + 1) = Some (coerceUser (new_user i a))).
Proof.
  induction args as [|a args IH] using rev_ind; intros Hn.
  - exists ∅. split; [done|]. split; [done|]. split.
    + intros k. rewrite lookup_empty. split; [by intros []|simpl; lia].
    + by intros i a.
  - rewrite length_app in Hn |- *. cbn [length] in Hn |- *.
    destruct IH as (m & Hd & Hsz & Hdom & Hlk); [lia|].
    unfold creates. rewrite fmap_app. cbn [fmap list_fmap]. rewrite run_snoc.
    fold (creates args). cbn [exec].
    rewrite (CreateUser_run _ _ Hd m _ _ eq_refl). cbn [snd].
    rewrite len_Some, Hsz.
    set (n := Z.of_nat (length args) + 1).
    rewrite (wrap_int_small n) by (unfold int_ok; lia).
    destruct (document_ok _ _ Hd) as [Hi Hs].
    assert (Hnew : m !! n = None).
    { apply eq_None_not_Some. rewrite Hdom. lia. }
    exists (<[n := coerceUser (new_user (length args) a)]> m).
    split.
    { rewrite document_Marshal by (apply ints_ok_insert; unfold int_ok; cbn; lia || done).
      by rewrite coerceDB_insert. }
    split; [rewrite map_size_insert_None by done; lia|]. split.
    + intros k. rewrite lookup_insert. case_decide.
      * subst k. split; [lia|by eauto].
      * rewrite Hdom. lia.
    + intros i b Hib. apply lookup_app_Some in Hib as [Hib|[Hge Hib]].
      * pose proof (lookup_lt_Some _ _ _ Hib).
        rewrite lookup_insert_ne by lia. by apply Hlk.
      * apply list_lookup_singleton_Some in Hib as [Hi0 <-].
        replace i with (length args) by lia. apply lookup_insert_eq.
Qed.

(** C1. Of N calls of [CreateUser] on the empty store, the call number
    [i + 1] finds [i] records in the document, gives the new record the
    ID [i + 1], sets it under that key, writes the document and returns
    the record.  After the N calls the document has exactly N entries,
    under the keys 1 to N, and the entry [i + 1] is the record of the
    call number [i + 1] (its email coerced to valid UTF-8). *)
Theorem create_sequence (args : list Args) :
  Z.of_nat (length args) < 2 ^ 63 →
  (∀ i a, args !! i = Some a →
     let fs := run (creates (take i args)) empty_store in
     let u := new_user i a in
     ∃ m, document fs = Ok (mkDB (Some m))
          ∧ size m = i
          ∧ ID u = Z.of_nat (size m) + 1
          ∧ CreateUser a.1 a.2 fs
            = (Ok u, Some (json.Marshal (mkDB (Some (<[ID u := u]> m))))))
  ∧ ∃ m, document (run (creates args) empty_store) = Ok (mkDB (Some m))
         ∧ size m = length args
         ∧ (∀ k, is_Some (m !! k) ↔ 1 <= k <= Z.of_nat (length args))
         ∧ (∀ i a, args !! i = Some a →
              m !! (Z.of_nat i + 1) = Some (coerceUser (new_user i a))
              ∧ ID (coerceUser (new_user i a)) = Z.of_nat i + 1).
Proof.
  intros Hn. split.
  - intros i a Hia fs u. pose proof (lookup_lt_Some _ _ _ Hia) as Hi.
    destruct (creates_state (take i args)) as (m & Hd & Hsz & _).
    { rewrite length_take. lia. }
    rewrite length_take_le in Hsz by lia.
    exists m. split; [done|]. split; [done|]. split; [cbn; lia|].
    subst fs. rewrite (CreateUser_run _ _ Hd m _ _ eq_refl).
    rewrite len_Some, Hsz.
    rewrite wrap_int_small by (unfold int_ok; lia). done.
  - destruct (creates_state args Hn) as (m & Hd & Hsz & Hdom & Hlk).
    exists m. split_and!; try done. intros i a Hia. split; [by apply Hlk|done].
Qed.

(** *** The invariant *)

Lemma store_inv_write m k u :
  ints_ok (mkDB (Some m)) → keyed_by_ID (mkDB (Some m)) →
  int_ok k → ID u = k →
  store_inv (Some (json.Marshal (mkDB (Some (<[k := u]> m))))).
Proof.
  intros Hi Hk Hkok Hu.
  exists (coerceUser <$> <[k := u]> m). split.
  - rewrite document_Marshal; [done|]. apply ints_ok_insert; [done..|].
    by rewrite Hu.
  - apply (keyed_coerceDB (mkDB (Some (<[k := u]> m)))). by apply keyed_insert.
Qed.

(** The record under [id] was replaced by one with the same ID. *)
Ltac keep_inv :=
  match goal with
  | Hi : ints_ok _, Hk : keyed_by_ID _, Hu : _ !! ?id = Some ?user |- _ =>
    destruct (Hi id user Hu); apply store_inv_write; auto;
    apply (Hk id user Hu)
  end.

Lemma exec_store_inv fs c : store_inv fs → store_inv (exec fs c).
Proof.
  intros (m & Hd & Hk). destruct (document_ok _ _ Hd) as [Hi Hs].
  assert (Hsame : store_inv (Some (json.Marshal (mkDB (Some m))))).
  { exists m. split; [by eapply document_rewrite|done]. }
  destruct c as [body password|id body password|id|id token|id]; cbn [exec].
  - rewrite (CreateUser_run _ _ Hd m _ _ eq_refl). cbn [snd].
    apply store_inv_write; auto using int_ok_wrap_int.
  - destruct (m !! id) as [user|] eqn:Hu.
    + rewrite (UpdateUserDB_present _ _ Hd m _ user _ _ eq_refl Hu). cbn [snd].
      keep_inv.
    + by rewrite (UpdateUserDB_absent _ _ Hd _ _ _ Hu).
  - destruct (m !! id) as [user|] eqn:Hu.
    + rewrite (UpgradeUser_present _ _ Hd m _ user eq_refl Hu). cbn [snd].
      keep_inv.
    + rewrite (UpgradeUser_absent _ _ Hd _ Hu). by exists m.
  - destruct (m !! id) as [user|] eqn:Hu.
    + rewrite (StoreToken_present _ _ Hd m _ user _ eq_refl Hu). cbn [snd].
      keep_inv.
    + by rewrite (StoreToken_absent _ _ Hd _ _ Hu).
  - destruct (m !! id) as [user|] eqn:Hu.
    + rewrite (RevokeToken_present _ _ Hd m _ user eq_refl Hu). cbn [snd].
      keep_inv.
    + by rewrite (RevokeToken_absent _ _ Hd _ Hu).
Qed.

(** C8. In every document that the calls of the store produce from the
    empty document, every record is stored under its ID. *)
Theorem reachable_keyed_by_ID (cs : list call) :
  ∃ d, document (run cs empty_store) = Ok d ∧ keyed_by_ID d.
Proof.
  assert (H : store_inv (run cs empty_store)).
  { induction cs as [|c cs IH] using rev_ind.
    - exists ∅. split; [done|]. intros k u Hu.
      change ((∅ : gmap Z User) !! k = Some u) in Hu.
      by rewrite lookup_empty in Hu.
    - rewrite run_snoc. by apply exec_store_inv. }
  destruct H as (m & Hd & Hk). eauto.
Qed.

(** ** The calls on the document *)

(** A call on a store whose document has a map leaves a store whose
    document has the map [step c m]. *)
Lemma exec_document fs m c :
  document fs = Ok (mkDB (Some m)) →
  document (exec fs c) = Ok (mkDB (Some (step c m))).
Proof.
  intros Hd. destruct (document_ok _ _ Hd) as [Hi Hs].
  assert (Hset : ∀ id user u,
            m !! id = Some user → ID u = ID user →
            document (Some (json.Marshal (mkDB (Some (<[id := u]> m)))))
            = Ok (mkDB (Some (<[id := coerceUser u]> m)))).
  { intros id user u Hu Hid. destruct (Hi id user Hu).
    rewrite document_Marshal by (apply ints_ok_insert; [done..|by rewrite Hid]).
    by rewrite coerceDB_insert. }
  destruct c as [body password|id body password|id|id token|id];
    cbn [exec step].
  - rewrite (CreateUser_run _ _ Hd m _ _ eq_refl). cbn [snd].
    rewrite document_Marshal
      by (apply ints_ok_insert; [done|apply int_ok_wrap_int..]).
    by rewrite coerceDB_insert.
  - destruct (m !! id) as [user|] eqn:Hu.
    + rewrite (UpdateUserDB_present _ _ Hd m _ user _ _ eq_refl Hu). cbn [snd].
      by apply (Hset id user).
    + rewrite (UpdateUserDB_absent _ _ Hd _ _ _ Hu). by eapply document_rewrite.
  - destruct (m !! id) as [user|] eqn:Hu.
    + rewrite (UpgradeUser_present _ _ Hd m _ user eq_refl Hu). cbn [snd].
      by apply (Hset id user).
    + by rewrite (UpgradeUser_absent _ _ Hd _ Hu).
  - destruct (m !! id) as [user|] eqn:Hu.
    + rewrite (StoreToken_present _ _ Hd m _ user _ eq_refl Hu). cbn [snd].
      by apply (Hset id user).
    + rewrite (StoreToken_absent _ _ Hd _ _ Hu). by eapply document_rewrite.
  - destruct (m !! id) as [user|] eqn:Hu.
    + rewrite (RevokeToken_present _ _ Hd m _ user eq_refl Hu). cbn [snd].
      by apply (Hset id user).
    + rewrite (RevokeToken_absent _ _ Hd _ Hu). by eapply document_rewrite.
Qed.

Lemma run_document cs : ∀ fs m,
  document fs = Ok (mkDB (Some m)) →
  document (run cs fs) = Ok (mkDB (Some (steps cs m))).
Proof.
  induction cs as [|c cs IH]; intros fs m Hd; [done|].
  cbn [run steps foldl]. apply IH. by apply exec_document.
Qed.

Lemma steps_snoc cs c m : steps (cs ++ [c]) m = step c (steps cs m).
Proof. unfold steps. by rewrite foldl_app. Qed.

(** ** The keys of the document *)

Lemma keyed_step c m :
  keyed_by_ID (mkDB (Some m)) → keyed_by_ID (mkDB (Some (step c m))).
Proof.
  intros Hk.
  assert (Hset : ∀ id user u,
            m !! id = Some user → ID u = ID user →
            keyed_by_ID (mkDB (Some (<[id := coerceUser u]> m)))).
  { intros id user u Hu Hid. apply keyed_insert; [done|].
    cbn [coerceUser ID]. rewrite Hid. apply (Hk id user Hu). }
  destruct c as [body password|id body password|id|id token|id];
    cbn [step]; try (destruct (m !! id) as [user|] eqn:Hu; [|done]);
    try by apply (Hset id user).
  by apply keyed_insert.
Qed.

Lemma is_Some_insert_present (m : gmap Z User) id user u k :
  m !! id = Some user → is_Some (<[id := u]> m !! k) ↔ is_Some (m !! k).
Proof.
  intros Hu. rewrite lookup_insert. case_decide; [subst|done].
  rewrite Hu. split; eauto.
Qed.

Lemma size_insert_present (m : gmap Z User) id user u :
  m !! id = Some user → size (<[id := u]> m) = size m.
Proof. intros Hu. apply map_size_insert_Some. by rewrite Hu. Qed.

(** A call keeps the keys 1 to N, and [CreateUser] adds the key N + 1. *)
Lemma dense_step c m :
  dense m → (is_create c = true → Z.of_nat (size m) + 1 < 2 ^ 63) →
  dense (step c m)
  ∧ size (step c m) = (size m + if is_create c then 1 else 0)%nat.
Proof.
  unfold dense. intros Hm Hb.
  assert (Hset : ∀ id user u,
            m !! id = Some user →
            dense (<[id := u]> m) ∧ size (<[id := u]> m) = (size m + 0)%nat).
  { intros id user u Hu. rewrite (size_insert_present _ _ _ _ Hu). split; [|lia].
    intros k. rewrite (size_insert_present _ _ _ _ Hu).
    rewrite (is_Some_insert_present _ _ _ _ _ Hu). apply Hm. }
  destruct c as [body password|id body password|id|id token|id];
    cbn [step is_create];
    try (destruct (m !! id) as [user|] eqn:Hu;
         [by apply (Hset id user)|split; [done|lia]]).
  specialize (Hb eq_refl).
  cbv zeta. rewrite wrap_int_small by (unfold int_ok; lia).
  set (n := Z.of_nat (size m) + 1).
  assert (Hnew : m !! n = None).
  { apply eq_None_not_Some. rewrite Hm. lia. }
  rewrite map_size_insert_None by done. split; [|lia].
  intros k. rewrite lookup_insert. case_decide.
  - subst k. split; [lia|by eauto].
  - rewrite Hm. lia.
Qed.

Lemma creates_in_snoc cs c :
  creates_in (cs ++ [c]) = (creates_in cs + if is_create c then 1 else 0)%nat.
Proof.
  unfold creates_in. rewrite filter_app, length_app. f_equal.
  destruct c; reflexivity.
Qed.

Lemma dense_empty : dense ∅.
Proof.
  intros k. rewrite lookup_empty, map_size_empty.
  split; [by intros []|simpl; lia].
Qed.

(** The map after calls on the empty store. *)
Lemma steps_facts cs :
  Z.of_nat (creates_in cs) < 2 ^ 63 →
  dense (steps cs ∅) ∧ size (steps cs ∅) = creates_in cs
  ∧ keyed_by_ID (mkDB (Some (steps cs ∅))).
Proof.
  induction cs as [|c cs IH] using rev_ind; intros Hb.
  - split; [apply dense_empty|]. split; [done|].
    intros k u Hu. change ((∅ : gmap Z User) !! k = Some u) in Hu.
    by rewrite lookup_empty in Hu.
  - rewrite creates_in_snoc in Hb |- *. rewrite steps_snoc.
    destruct IH as (Hd & Hs & Hk); [lia|].
    destruct (dense_step c (steps cs ∅) Hd) as [Hd' Hs'].
    { rewrite Hs. intros Hc. rewrite Hc in Hb. lia. }
    split; [done|]. split; [lia|]. by apply keyed_step.
Qed.

(** *** The list of a map whose keys are 1 to N *)

Lemma Sorted_seqZ m n : Sorted Z.le (seqZ m n).
Proof.
  destruct (decide (n <= 0)) as [Hn|Hn]; [rewrite seqZ_nil by done; constructor|].
  rewrite <- (Z2Nat.id n) by lia. generalize (Z.to_nat n) as k. clear n Hn.
  intros k. revert m. induction k as [|k IH]; intros m; [constructor|].
  rewrite seqZ_cons by lia.
  replace (Z.pred (Z.of_nat (S k))) with (Z.of_nat k) by lia.
  constructor; [apply IH|].
  destruct k as [|k]; [constructor|].
  rewrite seqZ_cons by lia. constructor. lia.
Qed.

Lemma keys_of_values (l : list (Z * User)) :
  (∀ k u, (k, u) ∈ l → ID u = k) → ID <$> l.*2 = l.*1.
Proof.
  induction l as [|[k u] l IH]; intros H; [done|]. cbn. f_equal.
  - apply H. left.
  - apply IH. intros k' u' Hin. apply H. by right.
Qed.

Lemma keys_dense (m : gmap Z User) :
  dense m → (map_to_list m).*1 ≡ₚ seqZ 1 (Z.of_nat (size m)).
Proof.
  intros Hm. apply NoDup_Permutation.
  - apply NoDup_fst_map_to_list.
  - apply NoDup_seqZ.
  - intros k. rewrite elem_of_seqZ, list_elem_of_fmap. split.
    + intros ([k' u] & -> & Hin). apply elem_of_map_to_list in Hin.
      cbn. assert (is_Some (m !! k')) as Hs%Hm by eauto. lia.
    + intros Hk. destruct (proj2 (Hm k)) as [u Hu]; [lia|].
      exists (k, u). split; [done|]. by apply elem_of_map_to_list.
Qed.

(** The IDs of the list that [GetUser] returns are 1 to N. *)
Lemma IDs_dense (m : gmap Z User) (range_ : gmap Z User → list (Z * User)) :
  dense m → keyed_by_ID (mkDB (Some m)) →
  (∀ m, range_ m ≡ₚ map_to_list m) →
  ID <$> merge_sort ID_le (range_ m).*2 = seqZ 1 (Z.of_nat (size m)).
Proof.
  intros Hm Hk Hr. apply (Sorted_unique Z.le).
  - apply (Sorted_fmap _ ID_le); [done|]. apply Sorted_merge_sort, _.
  - apply Sorted_seqZ.
  - rewrite merge_sort_Permutation, Hr, keys_of_values; [by apply keys_dense|].
    intros k u Hin. apply elem_of_map_to_list in Hin. apply (Hk k u Hin).
Qed.

(** The element [i] of that list is the record under the key [i + 1]. *)
Lemma users_dense (m : gmap Z User) (range_ : gmap Z User → list (Z * User)) i :
  dense m → keyed_by_ID (mkDB (Some m)) →
  (∀ m, range_ m ≡ₚ map_to_list m) →
  merge_sort ID_le (range_ m).*2 !! i = m !! (Z.of_nat i + 1).
Proof.
  intros Hm Hk Hr. pose proof (IDs_dense m range_ Hm Hk Hr) as HID.
  unfold dense in Hm.
  set (users := merge_sort ID_le (range_ m).*2) in *.
  assert (Hlen : length users = size m).
  { apply (f_equal length) in HID. rewrite length_fmap, length_seqZ in HID. lia. }
  destruct (users !! i) as [u|] eqn:Hu.
  - pose proof (lookup_lt_Some _ _ _ Hu) as Hi.
    assert (HIDu : ID u = Z.of_nat i + 1).
    { pose proof (f_equal (λ l, l !! i) HID) as H. cbn in H.
      rewrite list_lookup_fmap, Hu, lookup_seqZ_lt in H by lia.
      cbn in H. injection H as H. lia. }
    destruct (elem_of_values m users u) as [k Hku].
    { subst users. by rewrite merge_sort_Permutation, Hr. }
    { eapply list_elem_of_lookup_2, Hu. }
    rewrite <- HIDu, (Hk k u Hku). done.
  - apply lookup_ge_None in Hu. symmetry. apply eq_None_not_Some.
    rewrite Hm. lia.
Qed.

(** ** The outcome of a call *)

Lemma document_cases fs :
  (∃ d, document fs = Ok d) ∨ (∃ e, document fs = Err e).
Proof.
  unfold document, loadUserDB. unfold_M.
  destruct fs as [data|]; [|by eauto].
  destruct (json.Unmarshal data); eauto.
Qed.

Lemma document_Err fs e : document fs = Err e → loadUserDB fs = (Err e, fs).
Proof.
  unfold document, loadUserDB. unfold_M.
  destruct fs as [data|]; [|by intros [= <-]].
  destruct (json.Unmarshal data); [done|by intros [= <-]].
Qed.

Lemma call_load_fails fs e c :
  document fs = Err e → outcome c fs = Err e ∧ exec fs c = fs.
Proof.
  intros H%document_Err.
  destruct c; cbn [outcome exec];
    unfold CreateUser, UpdateUserDB, UpgradeUser, StoreToken, RevokeToken;
    unfold_M; unfold mbind, M_bind; by rewrite H.
Qed.

Lemma call_create fs m body password :
  document fs = Ok (mkDB (Some m)) →
  let nextID := wrap_int (Z.of_nat (size m) + 1) in
  let u := mkUser body nextID password [] false in
  outcome (Create body password) fs = Ok ()
  ∧ exec fs (Create body password)
    = Some (json.Marshal (mkDB (Some (<[nextID := u]> m)))).
Proof.
  intros Hd. cbn [outcome exec].
  by rewrite (CreateUser_run _ _ Hd m _ _ eq_refl).
Qed.

Lemma call_create_nil fs body password :
  document fs = Ok (mkDB None) →
  outcome (Create body password) fs = Panic
  ∧ exec fs (Create body password) = fs.
Proof.
  intros Hd. cbn [outcome exec].
  by rewrite (CreateUser_nil _ _ Hd _ _ eq_refl).
Qed.

Lemma call_present fs m c id user :
  document fs = Ok (mkDB (Some m)) →
  target c = Some id → m !! id = Some user →
  outcome c fs = Ok ()
  ∧ exec fs c
    = Some (json.Marshal (mkDB (Some (<[id := changed c user]> m)))).
Proof.
  intros Hd Hc Hu.
  destruct c as [?|id' body password|id'|id' token|id']; [done|..];
    injection Hc as ->; cbn [outcome exec changed].
  - by rewrite (UpdateUserDB_present _ _ Hd m _ user _ _ eq_refl Hu).
  - by rewrite (UpgradeUser_present _ _ Hd m _ user eq_refl Hu).
  - by rewrite (StoreToken_present _ _ Hd m _ user _ eq_refl Hu).
  - by rewrite (RevokeToken_present _ _ Hd m _ user eq_refl Hu).
Qed.

Lemma call_absent fs d c id :
  document fs = Ok d →
  target c = Some id → comma_ok (Users d) id = None →
  match c with
  | Upgrade _ => outcome c fs = Err ErrInvalidUserID ∧ exec fs c = fs
  | _ => outcome c fs = Ok () ∧ exec fs c = Some (json.Marshal d)
  end.
Proof.
  intros Hd Hc Hu.
  destruct c as [?|id' body password|id'|id' token|id']; [done|..];
    injection Hc as ->; cbn [outcome exec].
  - by rewrite (UpdateUserDB_absent _ _ Hd _ _ _ Hu).
  - by rewrite (UpgradeUser_absent _ _ Hd _ Hu).
  - by rewrite (StoreToken_absent _ _ Hd _ _ Hu).
  - by rewrite (RevokeToken_absent _ _ Hd _ Hu).
Qed.

Lemma target_None c : target c = None → ∃ body password, c = Create body password.
Proof. destruct c; [eauto|done..]. Qed.

Lemma GetUser_fails fs e range_ :
  document fs = Err e → GetUser range_ fs = (Err e, fs).
Proof.
  intros H%document_Err. unfold GetUser. unfold_M. unfold mbind, M_bind.
  by rewrite H.
Qed.

Lemma GetUserByID_fails fs e range_ id :
  document fs = Err e → GetUserByID range_ id fs = (Err e, fs).
Proof.
  intros H. unfold GetUserByID. unfold_M. unfold mbind, M_bind.
  by rewrite (GetUser_fails _ _ _ H).
Qed.

(** ** Opening a store *)

(** X1. [NewUserDB] reports no error, the write of the file not failing.
    On a path without a file it writes the document with the empty map;
    a file that exists is left as it is, also one that does not parse.
    So the store is readable afterwards exactly when the file was
    missing or readable before, and a second [NewUserDB] changes
    nothing. *)
Theorem NewUserDB_ensures fs :
  ∃ fs',
    NewUserDB fs = (Ok (), fs')
    ∧ (fs = None → document fs' = Ok (mkDB (Some ∅)))
    ∧ (fs ≠ None → fs' = fs)
    ∧ (∀ d, document fs' = Ok d
            ↔ (fs = None ∧ d = mkDB (Some ∅)) ∨ document fs = Ok d)
    ∧ NewUserDB fs' = (Ok (), fs').
Proof.
  destruct fs as [data|].
  - exists (Some data). split_and!; try done.
    intros d. split; [by right|]. by intros [[? _]|?].
  - exists empty_store. split_and!; try done.
    intros d. rewrite document_empty_store. split.
    + intros [= <-]. by left.
    + by intros [[_ ->]|?].
Qed.

(** ** Failures *)

(** X2. [GetUser] and [GetUserByID] never write the file, whatever they
    return and in whatever order [range] visits the map. *)
Theorem reads_never_write fs range_ id :
  (GetUser range_ fs).2 = fs ∧ (GetUserByID range_ id fs).2 = fs.
Proof.
  destruct (document_cases fs) as [[d Hd]|[e He]].
  - pose proof (GetUser_run _ _ Hd range_) as Hg. split; [by rewrite Hg|].
    rewrite (GetUserByID_run _ _ _ _ Hg).
    destruct (_ || _); [done|].
    unfold_M. by destruct (_ !! _).
  - by rewrite (GetUser_fails _ _ _ He), (GetUserByID_fails _ _ _ _ He).
Qed.

(** X3. The write of the file not failing, a call of [CreateUser],
    [UpdateUserDB], [UpgradeUser], [StoreToken] or [RevokeToken] that
    does not return a nil error has failed before its write and has left
    the file as it was.  The failure is the error of [loadUserDB], the
    error "invalid user id" of [UpgradeUser], or the panic of
    [CreateUser] on a nil map: the three places of the source that leave
    a call before [writeUserDB].  (An error of [os.WriteFile] itself,
    after which the file may be truncated, is not in the model.) *)
Theorem failed_call_keeps_file fs c :
  outcome c fs ≠ Ok () →
  exec fs c = fs
  ∧ ((∃ e, document fs = Err e ∧ outcome c fs = Err e)
     ∨ (∃ id d, c = Upgrade id ∧ document fs = Ok d
                ∧ comma_ok (Users d) id = None
                ∧ outcome c fs = Err ErrInvalidUserID)
     ∨ (is_create c = true ∧ document fs = Ok (mkDB None)
        ∧ outcome c fs = Panic)).
Proof.
  intros Hne.
  destruct (document_cases fs) as [[[[m|]] Hd]|[e He]].
  - destruct (target c) as [id|] eqn:Hc.
    + destruct (m !! id) as [user|] eqn:Hu.
      * by destruct (call_present _ _ _ _ _ Hd Hc Hu).
      * pose proof (call_absent _ _ _ _ Hd Hc Hu) as H.
        destruct c; destruct H as [Ho He]; try done.
        split; [done|]. right. left. injection Hc as ->.
        by exists id, (mkDB (Some m)).
    + apply target_None in Hc as (body & password & ->).
      by destruct (call_create _ _ body password Hd).
  - destruct (target c) as [id|] eqn:Hc.
    + pose proof (call_absent _ _ _ id Hd Hc eq_refl) as H.
      destruct c; destruct H as [Ho He]; try done.
      split; [done|]. right. left. injection Hc as ->.
      by exists id, (mkDB None).
    + apply target_None in Hc as (body & password & ->).
      destruct (call_create_nil _ body password Hd) as [Ho He].
      split; [done|]. right. right. done.
  - destruct (call_load_fails _ _ c He) as [Ho Hf].
    split; [done|]. left. by exists e.
Qed.

(** X4. When the file cannot be loaded, because it is missing or does
    not parse, every call returns the error of [loadUserDB] and leaves
    the file as it is. *)
Theorem load_error_propagates fs e range_ c id :
  document fs = Err e →
  GetUser range_ fs = (Err e, fs)
  ∧ GetUserByID range_ id fs = (Err e, fs)
  ∧ outcome c fs = Err e ∧ exec fs c = fs.
Proof.
  intros He. split; [by apply GetUser_fails|].
  split; [by apply GetUserByID_fails|]. by apply call_load_fails.
Qed.

(** X5. The only run-time panic of the store is the assignment of
    [CreateUser] to a nil map: a call panics exactly when it is
    [CreateUser] and the document read from the file has no map
    (["users":null]).  [GetUser] and [GetUserByID] never panic: the index
    [ID-1] is within the slice whenever the guard of [GetUserByID]
    lets it through. *)
Theorem panic_iff_create_nil_map fs c range_ id :
  (outcome c fs = Panic
   ↔ is_create c = true ∧ document fs = Ok (mkDB None))
  ∧ (GetUser range_ fs).1 ≠ Panic
  ∧ (GetUserByID range_ id fs).1 ≠ Panic.
Proof.
  destruct (document_cases fs) as [[[[m|]] Hd]|[e He]].
  - split_and!.
    + rewrite Hd. split; [|by intros [_ [=]]].
      destruct (target c) as [id'|] eqn:Hc.
      * destruct (m !! id') as [user|] eqn:Hu.
        -- destruct (call_present _ _ _ _ _ Hd Hc Hu) as [-> _]. done.
        -- pose proof (call_absent _ _ _ _ Hd Hc Hu) as H.
           destruct c; destruct H as [-> _]; done.
      * apply target_None in Hc as (body & password & ->).
        by destruct (call_create _ _ body password Hd) as [-> _].
    + by rewrite (GetUser_run _ _ Hd).
    + rewrite (GetUserByID_run _ _ _ _ (GetUser_run _ _ Hd range_)).
      destruct (_ || _) eqn:E; [done|].
      apply orb_false_elim in E as [E1 E2]. bool2prop.
      destruct (_ !! _) eqn:El; [done|].
      apply lookup_ge_None in El. lia.
  - split_and!.
    + rewrite Hd. destruct (target c) as [id'|] eqn:Hc.
      * pose proof (call_absent _ _ _ id' Hd Hc eq_refl) as H.
        destruct c; destruct H as [-> _]; (split; [done|by intros [[=] _]]).
      * apply target_None in Hc as (body & password & ->).
        destruct (call_create_nil _ body password Hd) as [-> _]. by split.
    + by rewrite (GetUser_run _ _ Hd).
    + rewrite (GetUserByID_run _ _ _ _ (GetUser_run _ _ Hd range_)).
      destruct (_ || _) eqn:E; [done|].
      apply orb_false_elim in E as [E1 E2]. bool2prop.
      destruct (_ !! _) eqn:El; [done|].
      apply lookup_ge_None in El. lia.
  - destruct (call_load_fails _ _ c He) as [-> _].
    rewrite (GetUser_fails _ _ _ He), (GetUserByID_fails _ _ _ _ He), He. split_and!; try done. split; [done|by intros [_ [=]]].
Qed.

(** X6. The errors of the writing calls, the write of the file not
    failing: a call returns an error exactly when the file cannot be
    loaded (the error of [loadUserDB]) or when it is [UpgradeUser] for an
    ID that the document does not hold ("invalid user id").
    [UpdateUserDB], [StoreToken] and [RevokeToken] report no error for an
    unknown ID. *)
Theorem error_iff fs c e :
  outcome c fs = Err e
  ↔ document fs = Err e
    ∨ ∃ id d, c = Upgrade id ∧ document fs = Ok d
              ∧ comma_ok (Users d) id = None ∧ e = ErrInvalidUserID.
Proof.
  destruct (document_cases fs) as [[d Hd]|[e' He]].
  - rewrite Hd. split.
    + intros Ho. right.
      destruct (target c) as [id|] eqn:Hc.
      * destruct (comma_ok (Users d) id) as [user|] eqn:Hu.
        -- destruct (comma_ok_Some _ _ _ Hu) as (m & Hm & Hu').
           destruct d as [users]. cbn in Hm. subst users.
           destruct (call_present _ _ _ _ _ Hd Hc Hu') as [Ho' _]. congruence.
        -- pose proof (call_absent _ _ _ _ Hd Hc Hu) as H.
           destruct c; destruct H as [Ho' _]; try congruence.
           injection Hc as ->. exists id, d. split_and!; congruence.
      * apply target_None in Hc as (body & password & ->).
        destruct d as [[m|]].
        -- destruct (call_create _ _ body password Hd) as [Ho' _]. congruence.
        -- destruct (call_create_nil _ body password Hd) as [Ho' _]. congruence.
    + intros [[=]|(id & d' & -> & [= <-] & Hu & ->)].
      by destruct (call_absent _ _ (Upgrade id) _ Hd eq_refl Hu).
  - destruct (call_load_fails _ _ c He) as [-> _]. rewrite He. split.
    + intros [= ->]. by left.
    + intros [[= ->]|(? & ? & _ & [=] & _)]. done.
Qed.

(** ** Calls one after the other *)

Lemma exec_document_nil fs c id :
  document fs = Ok (mkDB None) → target c = Some id →
  document (exec fs c) = Ok (mkDB None).
Proof.
  intros Hd Hc. pose proof (call_absent _ _ _ _ Hd Hc eq_refl) as H.
  destruct c; destruct H as [_ ->]; try done; by eapply document_rewrite.
Qed.

Lemma step_commute c1 c2 id1 id2 m :
  target c1 = Some id1 → target c2 = Some id2 → id1 ≠ id2 →
  step c2 (step c1 m) = step c1 (step c2 m).
Proof.
  intros H1 H2 Hne.
  assert (S1 : ∀ m, step c1 m = match m !! id1 with
                               | Some user => <[id1 := coerceUser (changed c1 user)]> m
                               | None => m
                               end).
  { intros m'. destruct c1; [done|by injection H1 as ->..]. }
  assert (S2 : ∀ m, step c2 m = match m !! id2 with
                               | Some user => <[id2 := coerceUser (changed c2 user)]> m
                               | None => m
                               end).
  { intros m'. destruct c2; [done|by injection H2 as ->..]. }
  rewrite (S1 m), (S2 m).
  destruct (m !! id1) as [u1|] eqn:E1, (m !! id2) as [u2|] eqn:E2;
    rewrite ?S1, ?S2, ?lookup_insert_ne, ?E1, ?E2 by done; try done.
  by apply insert_insert_ne.
Qed.

Lemma exec_absorbs_absent fs d c1 c2 id :
  document fs = Ok d →
  target c1 = Some id → target c2 = Some id →
  (∀ id', c2 ≠ Upgrade id') →
  comma_ok (Users d) id = None →
  exec (exec fs c1) c2 = exec fs c2.
Proof.
  intros Hd H1 H2 Hup Hu.
  pose proof (call_absent _ _ _ _ Hd H1 Hu) as Ha1.
  pose proof (call_absent _ _ _ _ Hd H2 Hu) as Ha2.
  pose proof (call_absent _ _ _ _ (document_rewrite _ _ Hd) H2 Hu) as Ha2'.
  assert (exec fs c2 = Some (json.Marshal d)) as E2.
  { destruct c2; destruct Ha2; try done. by destruct (Hup id0). }
  assert (exec (Some (json.Marshal d)) c2 = Some (json.Marshal d)) as E2'.
  { destruct c2; destruct Ha2'; try done. }
  assert (exec fs c1 = fs ∨ exec fs c1 = Some (json.Marshal d))
    as [->| ->] by (destruct c1; destruct Ha1; auto).
  - done.
  - by rewrite E2, E2'.
Qed.

(** A call absorbs an earlier call on the same ID whose changes it
    overwrites. *)
Lemma exec_absorbs fs c1 c2 id :
  target c1 = Some id → target c2 = Some id →
  (∀ id', c2 ≠ Upgrade id') →
  (∀ user, utf8.ValidString (Email user) = true →
           utf8.ValidString (RefreshToken user) = true →
           changed c2 (coerceUser (changed c1 user)) = changed c2 user) →
  exec (exec fs c1) c2 = exec fs c2.
Proof.
  intros H1 H2 Hup Hch.
  destruct (document_cases fs) as [[[[m|]] Hd]|[e He]].
  - destruct (m !! id) as [user|] eqn:Hu.
    + pose proof (exec_document _ _ c1 Hd) as Hd1.
      assert (step c1 m = <[id := coerceUser (changed c1 user)]> m) as Hs.
      { destruct c1; [done|injection H1 as ->; cbn [step]; by rewrite Hu..]. }
      rewrite Hs in Hd1.
      destruct (call_present _ _ _ _ _ Hd1 H2 (lookup_insert_eq _ _ _)) as [_ ->].
      destruct (call_present _ _ _ _ _ Hd H2 Hu) as [_ ->].
      destruct (document_ok _ _ Hd) as [_ Hs'].
      destruct (Hs' id user Hu). by rewrite insert_insert_eq, Hch.
    + by apply (exec_absorbs_absent _ (mkDB (Some m)) _ _ id).
  - by apply (exec_absorbs_absent _ (mkDB None) _ _ id).
  - destruct (call_load_fails _ _ c1 He) as [_ ->]. done.
Qed.

Lemma is_Some_step c m k : is_Some (m !! k) → is_Some (step c m !! k).
Proof.
  intros Hk.
  assert (∀ j u, is_Some (<[j := u]> m !! k)) as Hins.
  { intros j u. rewrite lookup_insert. by case_decide. }
  destruct c; cbn [step]; cbv zeta; [apply Hins|..];
    (destruct (m !! id) eqn:E; [apply Hins|done]).
Qed.

Lemma size_step c m : (size m ≤ size (step c m))%nat.
Proof.
  assert (∀ k u, (size m ≤ size (<[k := u]> m))%nat) as Hins.
  { intros k u. destruct (m !! k) eqn:E.
    - by erewrite map_size_insert_Some.
    - rewrite map_size_insert_None by done. lia. }
  destruct c; cbn [step]; cbv zeta;
    try (destruct (m !! _) eqn:E; [|done]); apply Hins.
Qed.

(** X7. [CreateUser] on a store whose document has a map with N entries
    sets the new record under the key N+1 (as a Go [int]) and every other
    entry stays as it is.  When the key N+1 is free the document gains an
    entry; when it is in use (a document whose keys are not 1 to N) the
    record there is replaced, the number of entries stays N, and the call
    still reports no error. *)
Theorem CreateUser_fresh_or_overwrite fs m body password :
  document fs = Ok (mkDB (Some m)) →
  ∃ u fs' m',
    CreateUser body password fs = (Ok u, fs')
    ∧ ID u = wrap_int (Z.of_nat (size m) + 1)
    ∧ document fs' = Ok (mkDB (Some m'))
    ∧ m' !! ID u = Some (coerceUser u)
    ∧ (∀ k, k ≠ ID u → m' !! k = m !! k)
    ∧ (m !! ID u = None → size m' = S (size m))
    ∧ (is_Some (m !! ID u) → size m' = size m).
Proof.
  intros Hd. pose proof (exec_document _ _ (Create body password) Hd) as Hd'.
  cbn [exec step] in Hd'. cbv zeta in Hd'.
  rewrite (CreateUser_run _ _ Hd m _ _ eq_refl) in Hd' |- *.
  rewrite len_Some. cbv zeta. cbn [snd] in Hd'.
  eexists _, _, _. split; [done|]. split; [done|]. split; [exact Hd'|].
  cbn [ID]. split_and!.
  - apply lookup_insert_eq.
  - intros k Hk. by apply lookup_insert_ne.
  - intros Hn. by apply map_size_insert_None.
  - intros [u' Hu']. by eapply map_size_insert_Some.
Qed.

(** X8. For an ID that is present in the document, [StoreToken id t]
    sets the refresh token of that record and nothing else: in the
    document read back from the file the record has the token [t]
    (coerced to valid UTF-8, which is [t] itself when [t] is valid) and
    its other fields as before, and every other record is as it was. *)
Theorem StoreToken_frame fs d id user token :
  document fs = Ok d →
  comma_ok (Users d) id = Some user →
  ∃ m fs' m' u,
    Users d = Some m
    ∧ StoreToken id token fs = (Ok (), fs')
    ∧ document fs' = Ok (mkDB (Some m'))
    ∧ m' !! id = Some u
    ∧ RefreshToken u = coerceString token
    ∧ (utf8.ValidString token = true → RefreshToken u = token)
    ∧ Email u = Email user ∧ ID u = ID user ∧ Password u = Password user
    ∧ IsChirpyRed u = IsChirpyRed user
    ∧ (∀ j, j ≠ id → m' !! j = m !! j).
Proof.
  intros Hd Hu. destruct (comma_ok_Some _ _ _ Hu) as (m & Hm & Hu').
  destruct d as [users]. cbn in Hm. subst users.
  pose proof (exec_document _ _ (StoreRefreshToken id token) Hd) as Hd'.
  cbn [exec step] in Hd'. rewrite Hu' in Hd'.
  rewrite (StoreToken_present _ _ Hd m _ user _ eq_refl Hu') in Hd' |- *.
  cbn [snd] in Hd'. destruct (document_ok _ _ Hd) as [_ Hs].
  destruct (Hs id user Hu') as [He _].
  eexists m, _, _, _. split; [done|]. split; [done|]. split; [exact Hd'|].
  split; [apply lookup_insert_eq|]. cbn.
  split_and!; try done.
  - apply coerce_valid.
  - by apply coerce_valid.
  - intros j Hj. by apply lookup_insert_ne.
Qed.

(** X9. For an ID that is present in the document, [RevokeToken id]
    empties the refresh token of that record and changes nothing else; a
    second [RevokeToken id] leaves the file as the first one wrote
    it. *)
Theorem RevokeToken_frame fs d id user :
  document fs = Ok d →
  comma_ok (Users d) id = Some user →
  let u := mkUser (Email user) (ID user) (Password user) []
                  (IsChirpyRed user) in
  ∃ m fs',
    Users d = Some m
    ∧ RevokeToken id fs = (Ok (), fs')
    ∧ document fs' = Ok (mkDB (Some (<[id := u]> m)))
    ∧ RevokeToken id fs' = (Ok (), fs').
Proof.
  intros Hd Hu u. destruct (comma_ok_Some _ _ _ Hu) as (m & Hm & Hu').
  destruct d as [users]. cbn in Hm. subst users.
  destruct (document_ok _ _ Hd) as [Hi Hs].
  destruct (Hi id user Hu') as [Hid Hiu]. destruct (Hs id user Hu') as [He _].
  assert (Hd' : document (Some (json.Marshal (mkDB (Some (<[id := u]> m)))))
                = Ok (mkDB (Some (<[id := u]> m)))).
  { rewrite document_Marshal by by apply ints_ok_insert.
    rewrite coerceDB_insert by done. by rewrite coerceUser_valid. }
  exists m, (Some (json.Marshal (mkDB (Some (<[id := u]> m))))).
  split; [done|]. split; [by eapply RevokeToken_present|]. split; [done|].
  rewrite (RevokeToken_present _ _ Hd' (<[id := u]> m) id u eq_refl)
    by apply lookup_insert_eq.
  by rewrite insert_insert_eq.
Qed.

(** X10. The last write wins.  On every store, a second [UpdateUserDB]
    for the same ID leaves the file that it would have written without
    the first one, and so does a [StoreToken] after a [StoreToken] or a
    [RevokeToken], and a [RevokeToken] after a [StoreToken]. *)
Theorem last_write_wins fs id :
  (∀ e1 p1 e2 p2,
     exec (exec fs (Update id e1 p1)) (Update id e2 p2)
     = exec fs (Update id e2 p2))
  ∧ (∀ t1 t2,
       exec (exec fs (StoreRefreshToken id t1)) (StoreRefreshToken id t2)
       = exec fs (StoreRefreshToken id t2))
  ∧ (∀ t,
       exec (exec fs (RevokeRefreshToken id)) (StoreRefreshToken id t)
       = exec fs (StoreRefreshToken id t))
  ∧ (∀ t,
       exec (exec fs (StoreRefreshToken id t)) (RevokeRefreshToken id)
       = exec fs (RevokeRefreshToken id)).
Proof.
  split_and!; intros; apply (exec_absorbs _ _ _ id); try done;
    intros user He Ht; cbn [changed coerceUser Email ID Password RefreshToken IsChirpyRed];
    by rewrite ?(coerce_valid _ He), ?(coerce_valid _ Ht).
Qed.

(** X11. Calls for different IDs commute: whichever of two calls among
    [UpdateUserDB], [UpgradeUser], [StoreToken] and [RevokeToken] is made
    first, the document of the store is the same afterwards. *)
Theorem calls_commute fs c1 c2 id1 id2 :
  target c1 = Some id1 → target c2 = Some id2 → id1 ≠ id2 →
  document (exec (exec fs c1) c2) = document (exec (exec fs c2) c1).
Proof.
  intros H1 H2 Hne.
  destruct (document_cases fs) as [[[[m|]] Hd]|[e He]].
  - rewrite (exec_document _ _ c2 (exec_document _ _ c1 Hd)).
    rewrite (exec_document _ _ c1 (exec_document _ _ c2 Hd)).
    by rewrite (step_commute c1 c2 id1 id2).
  - rewrite (exec_document_nil _ c2 _ (exec_document_nil _ c1 _ Hd H1) H2).
    by rewrite (exec_document_nil _ c1 _ (exec_document_nil _ c2 _ Hd H2) H1).
  - destruct (call_load_fails _ _ c1 He) as [_ E1].
    destruct (call_load_fails _ _ c2 He) as [_ E2].
    by rewrite E1, E2, E1.
Qed.

(** X12. No call removes a record: after any call on a store that can be
    loaded, the store can still be loaded, every key of the document is
    still a key, and the number of entries has not gone down. *)
Theorem keys_never_removed fs d c :
  document fs = Ok d →
  ∃ d', document (exec fs c) = Ok d'
        ∧ (∀ k, is_Some (entries (Users d) !! k)
                → is_Some (entries (Users d') !! k))
        ∧ (size (entries (Users d)) ≤ size (entries (Users d')))%nat.
Proof.
  intros Hd. destruct d as [[m|]].
  - exists (mkDB (Some (step c m))). split; [by apply exec_document|].
    split; [intros k; apply is_Some_step|apply size_step].
  - exists (mkDB None). split; [|done].
    destruct (target c) as [id|] eqn:Hc.
    + by eapply exec_document_nil.
    + apply target_None in Hc as (body & password & ->).
      by destruct (call_create_nil _ body password Hd) as [_ ->].
Qed.

(** X13. The calls refine their effect on the map: after any sequence of
    calls on a store whose document has the map [m], the document read
    from the file has the map obtained from [m] by making, call by call,
    the assignment of that call (with the strings it sets coerced to
    valid UTF-8). *)
Theorem run_refines_steps cs fs m :
  document fs = Ok (mkDB (Some m)) →
  document (run cs fs) = Ok (mkDB (Some (steps cs m)))
  ∧ ints_ok (mkDB (Some (steps cs m)))
  ∧ strings_valid (mkDB (Some (steps cs m))).
Proof.
  intros Hd. pose proof (run_document cs _ _ Hd) as H.
  split; [done|]. by eapply document_ok.
Qed.

(** X14. A store whose document has no map stays that way: [CreateUser]
    panics before it writes, the other calls write the document back as
    they read it, so after any sequence of calls the document still has
    no map and [GetUser] returns the empty list. *)
Theorem nil_map_is_stuck (cs : list call) fs range_ :
  document fs = Ok (mkDB None) →
  (∀ m, range_ m ≡ₚ map_to_list m) →
  document (run cs fs) = Ok (mkDB None)
  ∧ GetUser range_ (run cs fs) = (Ok [], run cs fs)
  ∧ ∀ body password,
      CreateUser body password (run cs fs) = (Panic, run cs fs).
Proof.
  intros Hd Hr.
  assert (Hd' : document (run cs fs) = Ok (mkDB None)).
  { revert fs Hd. induction cs as [|c cs IH]; intros fs Hd; [done|].
    cbn [run foldl]. apply IH.
    destruct (target c) as [id|] eqn:Hc.
    - by eapply exec_document_nil.
    - apply target_None in Hc as (body & password & ->).
      by destruct (call_create_nil _ body password Hd) as [_ ->]. }
  split; [done|]. split.
  - rewrite (GetUser_run _ _ Hd'). cbn [Users].
    change (entries None) with (∅ : gmap Z User).
    pose proof (Hr ∅) as Hp. rewrite map_to_list_empty in Hp.
    apply Permutation_nil_r in Hp. by rewrite Hp.
  - intros body password. by apply (CreateUser_nil _ _ Hd').
Qed.

(** ** Stores with the keys 1 to N *)

Lemma entries_Some m : entries (Some m) = m.
Proof. reflexivity. Qed.

Section dense_store.

Context (range_ : gmap Z User → list (Z * User)).
Context (Hr : ∀ m, range_ m ≡ₚ map_to_list m).

Lemma length_users_dense (m : gmap Z User) :
  length (merge_sort ID_le (range_ m).*2) = size m.
Proof.
  rewrite merge_sort_Permutation, length_fmap, Hr.
  apply length_map_to_list.
Qed.

Lemma GetUserByID_dense fs m id :
  document fs = Ok (mkDB (Some m)) →
  dense m → keyed_by_ID (mkDB (Some m)) →
  GetUserByID range_ id fs
  = (match m !! id with Some u => Ok u | None => Err ErrInvalidID end, fs).
Proof.
  intros Hd Hm Hk.
  rewrite (GetUserByID_run _ _ _ _ (GetUser_run _ _ Hd range_)).
  cbn [Users]. rewrite entries_Some, length_users_dense.
  destruct (_ || _) eqn:E.
  - destruct (m !! id) eqn:Hu; [|done].
    assert (is_Some (m !! id)) as Hi by done. apply Hm in Hi.
    apply orb_true_iff in E as [E|E]; bool2prop; lia.
  - apply orb_false_elim in E as [E1 E2]. bool2prop.
    rewrite users_dense by done.
    replace (Z.of_nat (Z.to_nat (id - 1)) + 1) with id by lia.
    assert (is_Some (m !! id)) as [u ->] by (apply Hm; lia). done.
Qed.

End dense_store.

Lemma step_keeps c m k u :
  dense m → (is_create c = true → Z.of_nat (size m) + 1 < 2 ^ 63) →
  m !! k = Some u →
  ∃ u', step c m !! k = Some u' ∧ ID u' = ID u
        ∧ (IsChirpyRed u = true → IsChirpyRed u' = true).
Proof.
  intros Hm Hb Hu.
  assert (1 <= k <= Z.of_nat (size m)) as Hk by (apply Hm; eauto).
  destruct c as [body password|id body password|id|id token|id];
    cbn [step]; cbv zeta.
  - specialize (Hb eq_refl).
    rewrite wrap_int_small by (unfold int_ok; lia).
    rewrite lookup_insert_ne by lia. eauto.
  - destruct (m !! id) as [user|] eqn:E; [|by eauto].
    rewrite lookup_insert. case_decide; [subst|by eauto].
    rewrite E in Hu. injection Hu as ->. eexists. split; [done|]. by cbn.
  - destruct (m !! id) as [user|] eqn:E; [|by eauto].
    rewrite lookup_insert. case_decide; [subst|by eauto].
    rewrite E in Hu. injection Hu as ->. eexists. split; [done|]. by cbn.
  - destruct (m !! id) as [user|] eqn:E; [|by eauto].
    rewrite lookup_insert. case_decide; [subst|by eauto].
    rewrite E in Hu. injection Hu as ->. eexists. split; [done|]. by cbn.
  - destruct (m !! id) as [user|] eqn:E; [|by eauto].
    rewrite lookup_insert. case_decide; [subst|by eauto].
    rewrite E in Hu. injection Hu as ->. eexists. split; [done|]. by cbn.
Qed.

Lemma creates_in_app cs1 cs2 :
  creates_in (cs1 ++ cs2) = (creates_in cs1 + creates_in cs2)%nat.
Proof. unfold creates_in. by rewrite filter_app, length_app. Qed.

(** X15. The stores that the calls produce from the empty store have the
    keys 1 to N: after any sequence of calls of which N are calls of
    [CreateUser], the document has exactly N entries, under the keys 1 to
    N, and the record under the key [k] has the ID [k].  The calls other
    than [CreateUser] do not change the keys. *)
Theorem reachable_dense (cs : list call) :
  Z.of_nat (creates_in cs) < 2 ^ 63 →
  ∃ m, document (run cs empty_store) = Ok (mkDB (Some m))
       ∧ size m = creates_in cs
       ∧ (∀ k, is_Some (m !! k) ↔ 1 <= k <= Z.of_nat (creates_in cs))
       ∧ (∀ k u, m !! k = Some u → ID u = k).
Proof.
  intros Hb. destruct (steps_facts cs Hb) as (Hm & Hs & Hk).
  exists (steps cs ∅). split; [apply run_document, document_empty_store|].
  split; [done|]. split; [|exact Hk].
  intros k. rewrite <- Hs. apply Hm.
Qed.

(** X16. On a store whose document has the keys 1 to N and every record
    under its ID, [GetUser] returns the N records in the order of their
    keys, whatever the order in which [range] visits the map: the
    element at the position [i] is the record under the key [i + 1], and
    the IDs of the list are 1, 2, ..., N. *)
Theorem GetUser_dense fs m range_ :
  document fs = Ok (mkDB (Some m)) →
  dense m → keyed_by_ID (mkDB (Some m)) →
  (∀ m, range_ m ≡ₚ map_to_list m) →
  ∃ users,
    GetUser range_ fs = (Ok users, fs)
    ∧ length users = size m
    ∧ (∀ i, users !! i = m !! (Z.of_nat i + 1))
    ∧ ID <$> users = seqZ 1 (Z.of_nat (size m)).
Proof.
  intros Hd Hm Hk Hr. eexists. split; [apply (GetUser_run _ _ Hd)|].
  cbn [Users]. rewrite entries_Some. split; [by apply length_users_dense|].
  split; [intros i; by apply users_dense|by apply IDs_dense].
Qed.

(** X17. On a store whose document has the keys 1 to N and every record
    under its ID, [GetUserByID id] is the lookup of [id] in the document:
    it returns the record stored under [id], whose ID is [id], and fails
    with "invalid ID" exactly when the document has no such key. *)
Theorem GetUserByID_by_ID fs m range_ id :
  document fs = Ok (mkDB (Some m)) →
  dense m → keyed_by_ID (mkDB (Some m)) →
  (∀ m, range_ m ≡ₚ map_to_list m) →
  GetUserByID range_ id fs
  = (match m !! id with Some u => Ok u | None => Err ErrInvalidID end, fs)
  ∧ (∀ u, GetUserByID range_ id fs = (Ok u, fs) → ID u = id).
Proof.
  intros Hd Hm Hk Hr. rewrite (GetUserByID_dense _ Hr _ m) by done.
  split; [done|]. intros u. destruct (m !! id) as [u'|] eqn:E; [|done].
  intros [= <-]. by apply (Hk id u').
Qed.

(** X18. Read your writes.  On a store whose document has the keys 1 to
    N and every record under its ID, after [UpdateUserDB], [UpgradeUser],
    [StoreToken] or [RevokeToken] for an ID that is present,
    [GetUserByID] of that ID returns the record as the call has set it
    (its strings coerced to valid UTF-8), and [GetUserByID] of any other
    ID returns what it returned before. *)
Theorem write_then_read fs m range_ c id user :
  document fs = Ok (mkDB (Some m)) →
  dense m → keyed_by_ID (mkDB (Some m)) →
  (∀ m, range_ m ≡ₚ map_to_list m) →
  target c = Some id → m !! id = Some user →
  outcome c fs = Ok ()
  ∧ GetUserByID range_ id (exec fs c)
    = (Ok (coerceUser (changed c user)), exec fs c)
  ∧ (∀ j, j ≠ id →
       (GetUserByID range_ j (exec fs c)).1 = (GetUserByID range_ j fs).1).
Proof.
  intros Hd Hm Hk Hr Hc Hu.
  split; [by destruct (call_present _ _ _ _ _ Hd Hc Hu)|].
  pose proof (exec_document _ _ c Hd) as Hd'.
  assert (is_create c = false) as Hnc by by destruct c.
  destruct (dense_step c m Hm) as [Hm' _]; [by rewrite Hnc|].
  pose proof (keyed_step c _ Hk) as Hk'.
  assert (step c m = <[id := coerceUser (changed c user)]> m) as Hs.
  { destruct c; [done|injection Hc as ->; cbn [step]; by rewrite Hu..]. }
  split.
  - rewrite (GetUserByID_dense _ Hr _ _ id Hd' Hm' Hk').
    by rewrite Hs, lookup_insert_eq.
  - intros j Hj.
    rewrite (GetUserByID_dense _ Hr _ _ j Hd' Hm' Hk').
    rewrite (GetUserByID_dense _ Hr _ _ j Hd Hm Hk).
    by rewrite Hs, lookup_insert_ne.
Qed.

(** X19. On a store whose document has the keys 1 to N and every record
    under its ID, [CreateUser] returns a record with the ID N+1;
    afterwards [GetUserByID] of that ID returns the record (its email
    coerced to valid UTF-8, its password byte for byte as it was given),
    [GetUserByID] of any other ID returns what it returned before, and
    the list of [GetUser] is the list before with the new record at its
    end. *)
Theorem CreateUser_then_read fs m range_ body password :
  document fs = Ok (mkDB (Some m)) →
  dense m → keyed_by_ID (mkDB (Some m)) →
  (∀ m, range_ m ≡ₚ map_to_list m) →
  Z.of_nat (size m) + 1 < 2 ^ 63 →
  ∃ u fs' users,
    CreateUser body password fs = (Ok u, fs')
    ∧ ID u = Z.of_nat (size m) + 1
    ∧ GetUserByID range_ (ID u) fs' = (Ok (coerceUser u), fs')
    ∧ Password (coerceUser u) = password
    ∧ (utf8.ValidString body = true → coerceUser u = u)
    ∧ (∀ j, j ≠ ID u →
         (GetUserByID range_ j fs').1 = (GetUserByID range_ j fs).1)
    ∧ GetUser range_ fs = (Ok users, fs)
    ∧ GetUser range_ fs' = (Ok (users ++ [coerceUser u]), fs').
Proof.
  intros Hd Hm Hk Hr Hb.
  pose proof (exec_document _ _ (Create body password) Hd) as Hd'.
  destruct (dense_step (Create body password) m Hm) as [Hm' Hsz]; [done|].
  pose proof (keyed_step (Create body password) _ Hk) as Hk'.
  cbn [exec step is_create] in *. cbv zeta in *.
  rewrite (CreateUser_run _ _ Hd m _ _ eq_refl) in Hd' |- *.
  rewrite len_Some in *. cbv zeta in *. cbn [snd] in Hd'.
  rewrite wrap_int_small in * by (unfold int_ok; lia).
  set (u := mkUser body (Z.of_nat (size m) + 1) password [] false) in *.
  set (fs' := Some (json.Marshal _)) in *.
  assert (m !! (Z.of_nat (size m) + 1) = None) as Hfree.
  { apply eq_None_not_Some. intros Hi%Hm. lia. }
  eexists u, fs', _. split; [done|]. split; [done|].
  split_and!.
  - rewrite (GetUserByID_dense _ Hr _ _ _ Hd' Hm' Hk').
    by rewrite lookup_insert_eq.
  - done.
  - intros Hv. by apply coerceUser_valid.
  - intros j Hj. cbn [ID u] in Hj.
    rewrite (GetUserByID_dense _ Hr _ _ _ Hd' Hm' Hk').
    rewrite (GetUserByID_dense _ Hr _ _ _ Hd Hm Hk).
    by rewrite lookup_insert_ne.
  - apply (GetUser_run _ _ Hd).
  - rewrite (GetUser_run _ _ Hd'). cbn [Users]. rewrite !entries_Some.
    f_equal. f_equal.
    apply list_eq. intros i. rewrite users_dense by done.
    destruct (decide (i < size m)%nat) as [Hi|Hi].
    + rewrite lookup_app_l by (by rewrite length_users_dense).
      rewrite users_dense by done. apply lookup_insert_ne. lia.
    + rewrite lookup_app_r by (rewrite length_users_dense by done; lia).
      rewrite length_users_dense by done.
      destruct (decide (i = size m)) as [->|Hne].
      * rewrite Nat.sub_diag. apply lookup_insert_eq.
      * rewrite lookup_insert_ne by lia.
        replace (i - size m)%nat with (S (i - size m - 1)) by lia. cbn.
        apply eq_None_not_Some. intros Hs%Hm. lia.
Qed.

(** X20. An upgrade is permanent, and so is an ID: whatever calls follow,
    a record of a store produced from the empty store stays under its
    key with the same ID, and once its upgrade flag is set it stays
    set. *)
Theorem upgrade_is_permanent (cs1 cs2 : list call) k m1 u1 :
  Z.of_nat (creates_in (cs1 ++ cs2)) < 2 ^ 63 →
  document (run cs1 empty_store) = Ok (mkDB (Some m1)) →
  m1 !! k = Some u1 →
  ∃ m2 u2,
    document (run (cs1 ++ cs2) empty_store) = Ok (mkDB (Some m2))
    ∧ m2 !! k = Some u2
    ∧ ID u2 = ID u1
    ∧ (IsChirpyRed u1 = true → IsChirpyRed u2 = true).
Proof.
  intros Hb Hd1 Hu1.
  rewrite (run_document cs1 _ _ document_empty_store) in Hd1.
  injection Hd1 as <-.
  exists (steps (cs1 ++ cs2) ∅).
  rewrite (run_document (cs1 ++ cs2) _ _ document_empty_store).
  induction cs2 as [|c cs2 IH] using rev_ind.
  - rewrite app_nil_r. eauto.
  - rewrite app_assoc, creates_in_snoc in Hb.
    destruct IH as (u2 & _ & Hu2 & Hid & Hred); [lia|].
    destruct (steps_facts (cs1 ++ cs2)) as (Hm & Hs & _); [lia|].
    rewrite app_assoc, steps_snoc.
    destruct (step_keeps c _ k u2 Hm) as (u3 & Hu3 & Hid3 & Hred3); [|done|].
    { intros Hc. rewrite Hc in Hb. lia. }
    exists u3. split_and!; [done|done|congruence|auto].
Qed.

(** ** The properties on an example *)

Example scenario_holds : document scenario_store = Ok scenario_document.
Proof. vm_compute. reflexivity. Qed.

(** The file of that store. *)
Example scenario_file :
  scenario_store = Some
    (json_text "{'users':{"
     ++ json_text "'1':{'email':'a@x.com','id':1,'password':'aGFzaEE=',"
     ++ json_text "'refreshToken':'','is_chirpy_red':false},"
     ++ json_text "'2':{'email':'b@x.com','id':2,'password':'aGFzaEI=',"
     ++ json_text "'refreshToken':'','is_chirpy_red':false}}}").
Proof. vm_compute. reflexivity. Qed.

(** The keys of the file are sorted as strings, and [Marshal] escapes the
    characters that matter to HTML. *)
Example Marshal_escapes :
  json.Marshal
    (mkDB (Some (<[10 := User_zero]>
                   {[ 2 := mkUser (bytes "<a&b>") 7 (Some []) [x0a] true ]})))
  = json_text "{'users':{"
    ++ json_text "'10':{'email':'','id':0,'password':null,"
    ++ json_text "'refreshToken':'','is_chirpy_red':false},"
    ++ json_text "'2':{'email':'\u003ca\u0026b\u003e','id':7,'password':'',"
    ++ json_text "'refreshToken':'\n','is_chirpy_red':true}}}".
Proof. vm_compute. reflexivity. Qed.

(** The scenario of the specification: after the two users signed up,
    [GetUserByID 2] is the second one; after [UpgradeUser 1] the first
    one is upgraded; [UpdateUserDB 5] returns the zero [User] and leaves
    two records. *)
Example spec_scenario :
  let b := mkUser (bytes "b@x.com") 2 (Some (bytes "hashB")) [] false in
  let a' := mkUser (bytes "a@x.com") 1 (Some (bytes "hashA")) [] true in
  let s3 := (UpgradeUser 1 scenario_store).2 in
  let s4 := (UpdateUserDB 5 (bytes "c@x.com") (Some (bytes "hashC")) s3) in
  (GetUserByID range_canonical 2 scenario_store).1 = Ok b
  ∧ (GetUserByID range_canonical 1 s3).1 = Ok a'
  ∧ s4.1 = Ok User_zero
  ∧ (GetUser range_canonical s4.2).1 = Ok [a'; b].
Proof. vm_compute. done. Qed.

(** The list of the users does not depend on the order of the visit. *)
Example GetUser_any_order :
  (∀ m, range_reversed m ≡ₚ map_to_list m)
  ∧ range_reversed (entries (Users scenario_document))
    ≠ range_canonical (entries (Users scenario_document))
  ∧ GetUser range_reversed scenario_store
    = GetUser range_canonical scenario_store.
Proof.
  split; [intros m; apply reverse_Permutation|].
  split; [vm_compute; discriminate|vm_compute; reflexivity].
Qed.

(** An email that is not valid UTF-8: the record returned has the email
    of the call, the record read back from the file has U+FFFD. *)
Example Update_coerces_email :
  let r := UpdateUserDB 1 [xff] None scenario_store in
  r.1 = Ok (mkUser [xff] 1 None [] false)
  ∧ (GetUserByID range_canonical 1 r.2).1
    = Ok (mkUser [xef; xbf; xbd] 1 None [] false).
Proof. vm_compute. done. Qed.

(** A store whose document has a nil map: reading works, [CreateUser]
    panics on the assignment. *)
Example nil_map_panics :
  document (Some (json.Marshal DB_zero)) = Ok DB_zero
  ∧ (GetUser range_canonical (Some (json.Marshal DB_zero))).1 = Ok []
  ∧ (CreateUser (bytes "a@x.com") None (Some (json.Marshal DB_zero))).1
    = Panic.
Proof. vm_compute. done. Qed.

(** [GetUserByID] at every ID around the two records, with the map
    visited from the key 2 to the key 1: the records come out by
    ascending ID, and the IDs 0, 3 and -1 are refused. *)
Example GetUserByID_bounds :
  let a := mkUser (bytes "a@x.com") 1 (Some (bytes "hashA")) [] false in
  let b := mkUser (bytes "b@x.com") 2 (Some (bytes "hashB")) [] false in
  (range_canonical (entries (Users scenario_document))).*2 = [b; a]
  ∧ (GetUser range_canonical scenario_store).1 = Ok [a; b]
  ∧ (GetUserByID range_canonical 1 scenario_store).1 = Ok a
  ∧ (GetUserByID range_canonical 2 scenario_store).1 = Ok b
  ∧ (GetUserByID range_canonical 0 scenario_store).1 = Err ErrInvalidID
  ∧ (GetUserByID range_canonical 3 scenario_store).1 = Err ErrInvalidID
  ∧ (GetUserByID range_canonical (-1) scenario_store).1 = Err ErrInvalidID.
Proof. vm_compute. done. Qed.

Lemma create_sequence_witness :
  Z.of_nat (length scenario_args) < 2 ^ 63
  ∧ (∀ i a, scenario_args !! i = Some a →
       let fs := run (creates (take i scenario_args)) empty_store in
       let u := new_user i a in
       ∃ m, document fs = Ok (mkDB (Some m))
            ∧ size m = i
            ∧ ID u = Z.of_nat (size m) + 1
            ∧ CreateUser a.1 a.2 fs
              = (Ok u, Some (json.Marshal (mkDB (Some (<[ID u := u]> m))))))
  ∧ ∃ m, document scenario_store = Ok (mkDB (Some m))
         ∧ size m = length scenario_args
         ∧ (∀ k, is_Some (m !! k) ↔ 1 <= k <= Z.of_nat (length scenario_args))
         ∧ (∀ i a, scenario_args !! i = Some a →
              m !! (Z.of_nat i + 1) = Some (coerceUser (new_user i a))
              ∧ ID (coerceUser (new_user i a)) = Z.of_nat i + 1).
Proof.
  assert (H : Z.of_nat (length scenario_args) < 2 ^ 63)
    by (vm_compute; reflexivity).
  split; [exact H|]. exact (create_sequence scenario_args H).
Defined.

Lemma GetUserByID_position_witness :
  document scenario_store = Ok scenario_document
  ∧ (∀ m, range_canonical m ≡ₚ map_to_list m)
  ∧ ∃ users,
      GetUser range_canonical scenario_store = (Ok users, scenario_store)
      ∧ Sorted ID_le users
      ∧ users ≡ₚ (map_to_list (entries (Users scenario_document))).*2
      ∧ Z.of_nat (length users) = 2
      ∧ (∀ id, 1 <= id <= 2 →
           ∃ u, users !! Z.to_nat (id - 1) = Some u
                ∧ GetUserByID range_canonical id scenario_store
                  = (Ok u, scenario_store))
      ∧ (∀ id, id <= 0 ∨ 2 < id →
           GetUserByID range_canonical id scenario_store
           = (Err ErrInvalidID, scenario_store)).
Proof.
  assert (H1 : document scenario_store = Ok scenario_document)
    by (vm_compute; reflexivity).
  assert (H2 : ∀ m, range_canonical m ≡ₚ map_to_list m)
    by (intros m; reflexivity).
  split; [exact H1|]. split; [exact H2|].
  exact (GetUserByID_position scenario_store scenario_document
           range_canonical H1 H2).
Defined.

Lemma absent_id_noop_witness :
  document scenario_store = Ok scenario_document
  ∧ comma_ok (Users scenario_document) 5 = None
  ∧ UpdateUserDB 5 (bytes "c@x.com") (Some (bytes "hashC")) scenario_store
    = (Ok User_zero, Some (json.Marshal scenario_document))
  ∧ StoreToken 5 (bytes "token") scenario_store
    = (Ok (), Some (json.Marshal scenario_document))
  ∧ RevokeToken 5 scenario_store
    = (Ok (), Some (json.Marshal scenario_document))
  ∧ document (Some (json.Marshal scenario_document)) = Ok scenario_document.
Proof.
  assert (H1 : document scenario_store = Ok scenario_document)
    by (vm_compute; reflexivity).
  assert (H2 : comma_ok (Users scenario_document) 5 = None)
    by (vm_compute; reflexivity).
  split; [exact H1|]. split; [exact H2|].
  exact (absent_id_noop scenario_store scenario_document 5
           (bytes "c@x.com") (Some (bytes "hashC")) (bytes "token") H1 H2).
Defined.

Lemma UpdateUserDB_frame_witness :
  document scenario_store = Ok scenario_document
  ∧ comma_ok (Users scenario_document) 2
    = Some (mkUser (bytes "b@x.com") 2 (Some (bytes "hashB")) [] false)
  ∧ ∃ m u fs',
      Users scenario_document = Some m
      ∧ UpdateUserDB 2 (bytes "c@x.com") None scenario_store = (Ok u, fs')
      ∧ fs' = Some (json.Marshal (mkDB (Some (<[2 := u]> m))))
      ∧ Email u = bytes "c@x.com" ∧ Password u = None
      ∧ ID u = 2 ∧ RefreshToken u = []
      ∧ IsChirpyRed u = false
      ∧ (∀ j, j ≠ 2 → <[2 := u]> m !! j = m !! j)
      ∧ document fs' = Ok (mkDB (Some (<[2 := coerceUser u]> m)))
      ∧ (utf8.ValidString (bytes "c@x.com") = true → coerceUser u = u).
Proof.
  assert (H1 : document scenario_store = Ok scenario_document)
    by (vm_compute; reflexivity).
  assert (H2 : comma_ok (Users scenario_document) 2
          = Some (mkUser (bytes "b@x.com") 2 (Some (bytes "hashB")) [] false))
    by (vm_compute; reflexivity).
  split; [exact H1|]. split; [exact H2|].
  exact (UpdateUserDB_frame scenario_store scenario_document 2 _
           (bytes "c@x.com") None H1 H2).
Defined.

Lemma UpgradeUser_idempotent_witness :
  document scenario_store = Ok scenario_document
  ∧ (∀ user, comma_ok (Users scenario_document) 1 = Some user →
       let u := mkUser (Email user) (ID user) (Password user)
                       (RefreshToken user) true in
       ∃ m fs',
         Users scenario_document = Some m
         ∧ UpgradeUser 1 scenario_store = (Ok (), fs')
         ∧ document fs' = Ok (mkDB (Some (<[1 := u]> m)))
         ∧ UpgradeUser 1 fs' = (Ok (), fs'))
  ∧ (comma_ok (Users scenario_document) 1 = None →
     UpgradeUser 1 scenario_store = (Err ErrInvalidUserID, scenario_store)).
Proof.
  assert (H1 : document scenario_store = Ok scenario_document)
    by (vm_compute; reflexivity).
  split; [exact H1|].
  exact (UpgradeUser_idempotent scenario_store scenario_document 1 H1).
Defined.

Lemma GetUser_sorted_witness :
  document scenario_store = Ok scenario_document
  ∧ (∀ m, range_canonical m ≡ₚ map_to_list m)
  ∧ ∃ users,
      GetUser range_canonical scenario_store = (Ok users, scenario_store)
      ∧ Sorted ID_le users
      ∧ users ≡ₚ (map_to_list (entries (Users scenario_document))).*2
      ∧ ∀ range', (∀ m, range' m ≡ₚ map_to_list m) →
          ∃ users', GetUser range' scenario_store = (Ok users', scenario_store)
                    ∧ ID <$> users' = ID <$> users
                    ∧ (keyed_by_ID scenario_document → users' = users).
Proof.
  assert (H1 : document scenario_store = Ok scenario_document)
    by (vm_compute; reflexivity).
  assert (H2 : ∀ m, range_canonical m ≡ₚ map_to_list m)
    by (intros m; reflexivity).
  split; [exact H1|]. split; [exact H2|].
  exact (GetUser_sorted scenario_store scenario_document range_canonical H1 H2).
Defined.

Lemma write_load_roundtrip_witness :
  ints_ok scenario_document
  ∧ (strings_valid scenario_document →
     document (writeUserDB scenario_document None).2 = Ok scenario_document)
  ∧ document (writeUserDB scenario_document None).2
    = Ok (coerceDB scenario_document)
  ∧ (document (writeUserDB scenario_document None).2 = Ok scenario_document →
     strings_valid scenario_document).
Proof.
  assert (H : ints_ok scenario_document).
  { apply (document_ok scenario_store). vm_compute. reflexivity. }
  split; [exact H|]. exact (write_load_roundtrip scenario_document None H).
Defined.

Lemma CreateUser_fresh_fields_witness :
  (∀ u fs', CreateUser (bytes "a@x.com") None scenario_store = (Ok u, fs') →
     RefreshToken u = [] ∧ IsChirpyRed u = false
     ∧ Email u = bytes "a@x.com" ∧ Password u = None
     ∧ ∃ d' u', document fs' = Ok d'
                ∧ comma_ok (Users d') (ID u) = Some u'
                ∧ RefreshToken u' = [] ∧ IsChirpyRed u' = false)
  ∧ (∀ d m, document scenario_store = Ok d → Users d = Some m →
       ∃ u fs', CreateUser (bytes "a@x.com") None scenario_store = (Ok u, fs')).
Proof.
  exact (CreateUser_fresh_fields scenario_store (bytes "a@x.com") None).
Defined.

(** ** Further properties on the examples *)

Example scenario_dense :
  document scenario_store = Ok (mkDB (Some scenario_map))
  ∧ dense scenario_map ∧ keyed_by_ID (mkDB (Some scenario_map)).
Proof.
  split; [vm_compute; reflexivity|].
  assert (scenario_map = steps (creates scenario_args) ∅) as ->
    by (vm_compute; reflexivity).
  destruct (steps_facts (creates scenario_args)) as (H1 & _ & H2);
    [vm_compute; reflexivity|done].
Qed.

(** On a file whose keys are not 1 to N the next ID may be in use:
    [CreateUser] replaces the record there and reports no error, and
    [GetUserByID] does not find the record by its ID. *)
Example CreateUser_overwrites :
  let r := CreateUser (bytes "c@x.com") None gap_store in
  document gap_store
  = Ok (mkDB (Some {[ 2 := mkUser (bytes "b@x.com") 2 None [] true ]}))
  ∧ (GetUserByID range_canonical 2 gap_store).1 = Err ErrInvalidID
  ∧ (GetUserByID range_canonical 1 gap_store).1
    = Ok (mkUser (bytes "b@x.com") 2 None [] true)
  ∧ r.1 = Ok (mkUser (bytes "c@x.com") 2 None [] false)
  ∧ document r.2
    = Ok (mkDB (Some {[ 2 := mkUser (bytes "c@x.com") 2 None [] false ]})).
Proof. vm_compute. done. Qed.

(** Revoking a token that is held: the second user holds the token
    [token]; [RevokeToken 2] changes the file, the record read
    afterwards has the empty token, and the document is again the one
    before the token was stored. *)
Example RevokeToken_empties :
  let b := mkUser (bytes "b@x.com") 2 (Some (bytes "hashB")) [] false in
  let b' := mkUser (bytes "b@x.com") 2 (Some (bytes "hashB")) (bytes "token")
                   false in
  let r := RevokeToken 2 token_store in
  (GetUserByID range_canonical 2 token_store).1 = Ok b'
  ∧ r.1 = Ok ()
  ∧ r.2 ≠ token_store
  ∧ (GetUserByID range_canonical 2 r.2).1 = Ok b
  ∧ document r.2 = Ok scenario_document.
Proof.
  vm_compute. split_and!; done.
Qed.

Lemma NewUserDB_ensures_witness :
  ∃ fs',
    NewUserDB None = (Ok (), fs')
    ∧ ((None : file) = None → document fs' = Ok (mkDB (Some ∅)))
    ∧ ((None : file) ≠ None → fs' = None)
    ∧ (∀ d, document fs' = Ok d
            ↔ ((None : file) = None ∧ d = mkDB (Some ∅)) ∨ document None = Ok d)
    ∧ NewUserDB fs' = (Ok (), fs').
Proof. exact (NewUserDB_ensures None). Defined.

Lemma failed_call_keeps_file_witness :
  outcome (Upgrade 7) scenario_store ≠ Ok ()
  ∧ exec scenario_store (Upgrade 7) = scenario_store
  ∧ ((∃ e, document scenario_store = Err e
           ∧ outcome (Upgrade 7) scenario_store = Err e)
     ∨ (∃ id d, Upgrade 7 = Upgrade id ∧ document scenario_store = Ok d
                ∧ comma_ok (Users d) id = None
                ∧ outcome (Upgrade 7) scenario_store = Err ErrInvalidUserID)
     ∨ (is_create (Upgrade 7) = true
        ∧ document scenario_store = Ok (mkDB None)
        ∧ outcome (Upgrade 7) scenario_store = Panic)).
Proof.
  assert (H : outcome (Upgrade 7) scenario_store ≠ Ok ())
    by (vm_compute; discriminate).
  split; [exact H|].
  exact (failed_call_keeps_file scenario_store (Upgrade 7) H).
Defined.

Lemma load_error_propagates_witness :
  document broken_store = Err ErrUnmarshal
  ∧ GetUser range_canonical broken_store = (Err ErrUnmarshal, broken_store)
  ∧ GetUserByID range_canonical 1 broken_store
    = (Err ErrUnmarshal, broken_store)
  ∧ outcome (Create (bytes "a@x.com") None) broken_store = Err ErrUnmarshal
  ∧ exec broken_store (Create (bytes "a@x.com") None) = broken_store.
Proof.
  assert (H : document broken_store = Err ErrUnmarshal)
    by (vm_compute; reflexivity).
  split; [exact H|].
  exact (load_error_propagates broken_store ErrUnmarshal range_canonical
           (Create (bytes "a@x.com") None) 1 H).
Defined.

Lemma CreateUser_fresh_or_overwrite_witness :
  document scenario_store = Ok (mkDB (Some scenario_map))
  ∧ ∃ u fs' m',
      CreateUser (bytes "c@x.com") None scenario_store = (Ok u, fs')
      ∧ ID u = wrap_int (Z.of_nat (size scenario_map) + 1)
      ∧ document fs' = Ok (mkDB (Some m'))
      ∧ m' !! ID u = Some (coerceUser u)
      ∧ (∀ k, k ≠ ID u → m' !! k = scenario_map !! k)
      ∧ (scenario_map !! ID u = None → size m' = S (size scenario_map))
      ∧ (is_Some (scenario_map !! ID u) → size m' = size scenario_map).
Proof.
  assert (H : document scenario_store = Ok (mkDB (Some scenario_map)))
    by (vm_compute; reflexivity).
  split; [exact H|].
  exact (CreateUser_fresh_or_overwrite scenario_store scenario_map
           (bytes "c@x.com") None H).
Defined.

Lemma StoreToken_frame_witness :
  document scenario_store = Ok scenario_document
  ∧ comma_ok (Users scenario_document) 2
    = Some (mkUser (bytes "b@x.com") 2 (Some (bytes "hashB")) [] false)
  ∧ ∃ m fs' m' u,
      Users scenario_document = Some m
      ∧ StoreToken 2 (bytes "token") scenario_store = (Ok (), fs')
      ∧ document fs' = Ok (mkDB (Some m'))
      ∧ m' !! 2 = Some u
      ∧ RefreshToken u = coerceString (bytes "token")
      ∧ (utf8.ValidString (bytes "token") = true
         → RefreshToken u = bytes "token")
      ∧ Email u = bytes "b@x.com" ∧ ID u = 2
      ∧ Password u = Some (bytes "hashB")
      ∧ IsChirpyRed u = false
      ∧ (∀ j, j ≠ 2 → m' !! j = m !! j).
Proof.
  assert (H1 : document scenario_store = Ok scenario_document)
    by (vm_compute; reflexivity).
  assert (H2 : comma_ok (Users scenario_document) 2
          = Some (mkUser (bytes "b@x.com") 2 (Some (bytes "hashB")) [] false))
    by (vm_compute; reflexivity).
  split; [exact H1|]. split; [exact H2|].
  exact (StoreToken_frame scenario_store scenario_document 2 _
           (bytes "token") H1 H2).
Defined.

Lemma RevokeToken_frame_witness :
  document token_store = Ok token_document
  ∧ comma_ok (Users token_document) 2
    = Some (mkUser (bytes "b@x.com") 2 (Some (bytes "hashB")) (bytes "token")
                   false)
  ∧ ∃ m fs',
      Users token_document = Some m
      ∧ RevokeToken 2 token_store = (Ok (), fs')
      ∧ document fs'
        = Ok (mkDB (Some (<[2 := mkUser (bytes "b@x.com") 2
                                  (Some (bytes "hashB")) [] false]> m)))
      ∧ RevokeToken 2 fs' = (Ok (), fs').
Proof.
  assert (H1 : document token_store = Ok token_document)
    by (vm_compute; reflexivity).
  assert (H2 : comma_ok (Users token_document) 2
          = Some (mkUser (bytes "b@x.com") 2 (Some (bytes "hashB"))
                         (bytes "token") false))
    by (vm_compute; reflexivity).
  split; [exact H1|]. split; [exact H2|].
  exact (RevokeToken_frame token_store token_document 2 _ H1 H2).
Defined.

Lemma calls_commute_witness :
  target (Upgrade 1) = Some 1
  ∧ target (StoreRefreshToken 2 (bytes "token")) = Some 2
  ∧ 1 ≠ 2
  ∧ document (exec (exec scenario_store (Upgrade 1))
                   (StoreRefreshToken 2 (bytes "token")))
    = document (exec (exec scenario_store (StoreRefreshToken 2 (bytes "token")))
                     (Upgrade 1)).
Proof.
  assert (H1 : target (Upgrade 1) = Some 1) by reflexivity.
  assert (H2 : target (StoreRefreshToken 2 (bytes "token")) = Some 2)
    by reflexivity.
  assert (H3 : 1 ≠ 2) by lia.
  split; [exact H1|]. split; [exact H2|]. split; [exact H3|].
  exact (calls_commute scenario_store _ _ 1 2 H1 H2 H3).
Defined.

Lemma keys_never_removed_witness :
  document scenario_store = Ok scenario_document
  ∧ ∃ d', document (exec scenario_store (Create (bytes "c@x.com") None))
          = Ok d'
          ∧ (∀ k, is_Some (entries (Users scenario_document) !! k)
                  → is_Some (entries (Users d') !! k))
          ∧ (size (entries (Users scenario_document))
             ≤ size (entries (Users d')))%nat.
Proof.
  assert (H : document scenario_store = Ok scenario_document)
    by (vm_compute; reflexivity).
  split; [exact H|].
  exact (keys_never_removed scenario_store scenario_document
           (Create (bytes "c@x.com") None) H).
Defined.

Lemma run_refines_steps_witness :
  document empty_store = Ok (mkDB (Some ∅))
  ∧ document (run scenario_calls empty_store)
    = Ok (mkDB (Some (steps scenario_calls ∅)))
  ∧ ints_ok (mkDB (Some (steps scenario_calls ∅)))
  ∧ strings_valid (mkDB (Some (steps scenario_calls ∅))).
Proof.
  assert (H : document empty_store = Ok (mkDB (Some ∅))) by reflexivity.
  split; [exact H|].
  exact (run_refines_steps scenario_calls empty_store ∅ H).
Defined.

Lemma reachable_dense_witness :
  Z.of_nat (creates_in scenario_calls) < 2 ^ 63
  ∧ ∃ m, document (run scenario_calls empty_store) = Ok (mkDB (Some m))
         ∧ size m = creates_in scenario_calls
         ∧ (∀ k, is_Some (m !! k)
                 ↔ 1 <= k <= Z.of_nat (creates_in scenario_calls))
         ∧ (∀ k u, m !! k = Some u → ID u = k).
Proof.
  assert (H : Z.of_nat (creates_in scenario_calls) < 2 ^ 63)
    by (vm_compute; reflexivity).
  split; [exact H|]. exact (reachable_dense scenario_calls H).
Defined.

Lemma GetUser_dense_witness :
  document scenario_store = Ok (mkDB (Some scenario_map))
  ∧ dense scenario_map
  ∧ keyed_by_ID (mkDB (Some scenario_map))
  ∧ (∀ m, range_reversed m ≡ₚ map_to_list m)
  ∧ ∃ users,
      GetUser range_reversed scenario_store = (Ok users, scenario_store)
      ∧ length users = size scenario_map
      ∧ (∀ i, users !! i = scenario_map !! (Z.of_nat i + 1))
      ∧ ID <$> users = seqZ 1 (Z.of_nat (size scenario_map)).
Proof.
  destruct scenario_dense as (H1 & H2 & H3).
  assert (H4 : ∀ m, range_reversed m ≡ₚ map_to_list m)
    by (intros m; apply reverse_Permutation).
  split; [exact H1|]. split; [exact H2|]. split; [exact H3|].
  split; [exact H4|].
  exact (GetUser_dense scenario_store scenario_map range_reversed H1 H2 H3 H4).
Defined.

Lemma GetUserByID_by_ID_witness :
  document scenario_store = Ok (mkDB (Some scenario_map))
  ∧ dense scenario_map
  ∧ keyed_by_ID (mkDB (Some scenario_map))
  ∧ (∀ m, range_canonical m ≡ₚ map_to_list m)
  ∧ GetUserByID range_canonical 2 scenario_store
    = (match scenario_map !! 2 with
       | Some u => Ok u
       | None => Err ErrInvalidID
       end, scenario_store)
  ∧ (∀ u, GetUserByID range_canonical 2 scenario_store = (Ok u, scenario_store)
          → ID u = 2).
Proof.
  destruct scenario_dense as (H1 & H2 & H3).
  assert (H4 : ∀ m, range_canonical m ≡ₚ map_to_list m)
    by (intros m; reflexivity).
  split; [exact H1|]. split; [exact H2|]. split; [exact H3|].
  split; [exact H4|].
  exact (GetUserByID_by_ID scenario_store scenario_map range_canonical 2
           H1 H2 H3 H4).
Defined.

Lemma write_then_read_witness :
  document scenario_store = Ok (mkDB (Some scenario_map))
  ∧ dense scenario_map
  ∧ keyed_by_ID (mkDB (Some scenario_map))
  ∧ (∀ m, range_canonical m ≡ₚ map_to_list m)
  ∧ target (Upgrade 2) = Some 2
  ∧ scenario_map !! 2
    = Some (mkUser (bytes "b@x.com") 2 (Some (bytes "hashB")) [] false)
  ∧ outcome (Upgrade 2) scenario_store = Ok ()
  ∧ GetUserByID range_canonical 2 (exec scenario_store (Upgrade 2))
    = (Ok (coerceUser
             (changed (Upgrade 2)
                (mkUser (bytes "b@x.com") 2 (Some (bytes "hashB")) [] false))),
       exec scenario_store (Upgrade 2))
  ∧ (∀ j, j ≠ 2 →
       (GetUserByID range_canonical j (exec scenario_store (Upgrade 2))).1
       = (GetUserByID range_canonical j scenario_store).1).
Proof.
  destruct scenario_dense as (H1 & H2 & H3).
  assert (H4 : ∀ m, range_canonical m ≡ₚ map_to_list m)
    by (intros m; reflexivity).
  assert (H5 : target (Upgrade 2) = Some 2) by reflexivity.
  assert (H6 : scenario_map !! 2
               = Some (mkUser (bytes "b@x.com") 2 (Some (bytes "hashB")) []
                              false))
    by (vm_compute; reflexivity).
  split; [exact H1|]. split; [exact H2|]. split; [exact H3|].
  split; [exact H4|]. split; [exact H5|]. split; [exact H6|].
  exact (write_then_read scenario_store scenario_map range_canonical
           (Upgrade 2) 2 _ H1 H2 H3 H4 H5 H6).
Defined.

Lemma CreateUser_then_read_witness :
  document scenario_store = Ok (mkDB (Some scenario_map))
  ∧ dense scenario_map
  ∧ keyed_by_ID (mkDB (Some scenario_map))
  ∧ (∀ m, range_canonical m ≡ₚ map_to_list m)
  ∧ Z.of_nat (size scenario_map) + 1 < 2 ^ 63
  ∧ ∃ u fs' users,
      CreateUser (bytes "c@x.com") None scenario_store = (Ok u, fs')
      ∧ ID u = Z.of_nat (size scenario_map) + 1
      ∧ GetUserByID range_canonical (ID u) fs' = (Ok (coerceUser u), fs')
      ∧ Password (coerceUser u) = None
      ∧ (utf8.ValidString (bytes "c@x.com") = true → coerceUser u = u)
      ∧ (∀ j, j ≠ ID u →
           (GetUserByID range_canonical j fs').1
           = (GetUserByID range_canonical j scenario_store).1)
      ∧ GetUser range_canonical scenario_store = (Ok users, scenario_store)
      ∧ GetUser range_canonical fs' = (Ok (users ++ [coerceUser u]), fs').
Proof.
  destruct scenario_dense as (H1 & H2 & H3).
  assert (H4 : ∀ m, range_canonical m ≡ₚ map_to_list m)
    by (intros m; reflexivity).
  assert (H5 : Z.of_nat (size scenario_map) + 1 < 2 ^ 63)
    by (vm_compute; reflexivity).
  split; [exact H1|]. split; [exact H2|]. split; [exact H3|].
  split; [exact H4|]. split; [exact H5|].
  exact (CreateUser_then_read scenario_store scenario_map range_canonical
           (bytes "c@x.com") None H1 H2 H3 H4 H5).
Defined.

Lemma upgrade_is_permanent_witness :
  Z.of_nat (creates_in (scenario_calls ++ later_calls)) < 2 ^ 63
  ∧ document (run scenario_calls empty_store)
    = Ok (mkDB (Some (steps scenario_calls ∅)))
  ∧ steps scenario_calls ∅ !! 1
    = Some (mkUser (bytes "a@x.com") 1 (Some (bytes "hashA")) [] true)
  ∧ ∃ m2 u2,
      document (run (scenario_calls ++ later_calls) empty_store)
      = Ok (mkDB (Some m2))
      ∧ m2 !! 1 = Some u2
      ∧ ID u2 = 1
      ∧ (true = true → IsChirpyRed u2 = true).
Proof.
  assert (H1 : Z.of_nat (creates_in (scenario_calls ++ later_calls)) < 2 ^ 63)
    by (vm_compute; reflexivity).
  assert (H2 : document (run scenario_calls empty_store)
               = Ok (mkDB (Some (steps scenario_calls ∅))))
    by (vm_compute; reflexivity).
  assert (H3 : steps scenario_calls ∅ !! 1
               = Some (mkUser (bytes "a@x.com") 1 (Some (bytes "hashA")) []
                              true))
    by (vm_compute; reflexivity).
  split; [exact H1|]. split; [exact H2|]. split; [exact H3|].
  exact (upgrade_is_permanent scenario_calls later_calls 1 _ _ H1 H2 H3).
Defined.

Lemma nil_map_is_stuck_witness :
  document (Some (json.Marshal DB_zero)) = Ok (mkDB None)
  ∧ (∀ m, range_canonical m ≡ₚ map_to_list m)
  ∧ document (run scenario_calls (Some (json.Marshal DB_zero)))
    = Ok (mkDB None)
  ∧ GetUser range_canonical (run scenario_calls (Some (json.Marshal DB_zero)))
    = (Ok [], run scenario_calls (Some (json.Marshal DB_zero)))
  ∧ ∀ body password,
      CreateUser body password
        (run scenario_calls (Some (json.Marshal DB_zero)))
      = (Panic, run scenario_calls (Some (json.Marshal DB_zero))).
Proof.
  assert (H1 : document (Some (json.Marshal DB_zero)) = Ok (mkDB None))
    by (vm_compute; reflexivity).
  assert (H2 : ∀ m, range_canonical m ≡ₚ map_to_list m)
    by (intros m; reflexivity).
  split; [exact H1|]. split; [exact H2|].
  exact (nil_map_is_stuck scenario_calls _ range_canonical H1 H2).
Defined.
